(** * Salon reservation system: conflict index and mutation ledger

    A shallow embedding of the core of [salon_rezervasyon]:
    - [data_structures/interval_tree.py]  (module [IntervalTree]),
    - [data_structures/avl_tree.py]       (module [AVLTree]),
    - [data_structures/stack_queue.py]    (modules [StackQueue], [Queues]),
    - [data_structures/sorting.py]        (module [Sorting]),
    - [reservation_system.py]             (module [ReservationSystem]).

    Python integers are [Z].  A Python object that is mutated in place and
    shared between containers is a location in an explicit store.  A Python
    exception is the [Raise] outcome of the [result] type. *)

From stdpp Require Import gmap strings list pretty sorting.
From Stdlib Require Import ZArith Lia OrderedTypeEx.
From Equations Require Import Equations.

Local Open Scope Z_scope.

(** ** Exceptions *)

Inductive exn : Type :=
| ValueError
| KeyError
| AttributeError
| IndexError
| TypeError.

Inductive result (A : Type) : Type :=
| Ok (a : A)
| Raise (e : exn).

Arguments Ok {A} a.
Arguments Raise {A} e.

Definition rbind {A B : Type} (m : result A) (k : A -> result B) : result B :=
  match m with
  | Ok a => k a
  | Raise e => Raise e
  end.

Notation "'let*' x ':=' m 'in' k" := (rbind m (fun x => k))
  (at level 10, x name, m at level 100, k at level 200).

(** Python's short-circuit [a and b] where evaluating [b] may raise. *)
Definition and_then (a : bool) (b : result bool) : result bool :=
  if a then b else Ok false.

(** * data_structures/interval_tree.py *)

Module IntervalTree.

Section WithData.

(** The type of the payload ([Interval.data]); [None] is Python's [None]. *)
Context {D : Type}.

Record Interval : Type := mkInterval {
  start : Z;
  end_ : Z;
  data : option D
}.

(** [Interval.__init__]: raises [ValueError] when [start > end]. *)
Definition Interval_init (s e : Z) (d : option D) : result Interval :=
  if e <? s then Raise ValueError else Ok (mkInterval s e d).

(** [Interval.overlaps] *)
Definition overlaps (self other : Interval) : bool :=
  (start self <? end_ other) && (start other <? end_ self).

(** [Interval.contains] *)
Definition contains (self : Interval) (point : Z) : bool :=
  (start self <=? point) && (point <? end_ self).

(** [Interval.__eq__]: the payload is not compared. *)
Definition Interval_eq (self other : Interval) : bool :=
  (start self =? start other) && (end_ self =? end_ other).

(** [Interval.__lt__]: by start, ties broken by end. *)
Definition Interval_lt (self other : Interval) : bool :=
  if negb (start self =? start other)
  then start self <? start other
  else end_ self <? end_ other.

(** [IntervalNode]; [Nil] is the [None] child. The fields are in the order
    of the class: interval, max_end, left, right, height. *)
Inductive IntervalNode : Type :=
| Nil
| Node (interval : Interval) (max_end : Z)
       (left right : IntervalNode) (height : Z).

Definition _height (node : IntervalNode) : Z :=
  match node with
  | Nil => 0
  | Node _ _ _ _ h => h
  end.

Definition _balance_factor (node : IntervalNode) : Z :=
  match node with
  | Nil => 0
  | Node _ _ l r _ => _height l - _height r
  end.

(** The value of [max_end] computed by [_update_height_and_max]. *)
Definition new_max_end (iv : Interval) (l r : IntervalNode) : Z :=
  let m0 := end_ iv in
  let m1 := match l with Nil => m0 | Node _ lm _ _ _ => Z.max m0 lm end in
  match r with Nil => m1 | Node _ rm _ _ _ => Z.max m1 rm end.

Definition _update_height_and_max (node : IntervalNode) : IntervalNode :=
  match node with
  | Nil => Nil
  | Node iv _ l r _ =>
      Node iv (new_max_end iv l r) l r (1 + Z.max (_height l) (_height r))
  end.

(** [x = y.left; T2 = x.right] raises [AttributeError] when [y.left] is
    [None]. *)
Definition _rotate_right (y : IntervalNode) : result IntervalNode :=
  match y with
  | Node yiv ym (Node xiv xm xl T2 xh) yr yh =>
      let y' := _update_height_and_max (Node yiv ym T2 yr yh) in
      Ok (_update_height_and_max (Node xiv xm xl y' xh))
  | _ => Raise AttributeError
  end.

Definition _rotate_left (x : IntervalNode) : result IntervalNode :=
  match x with
  | Node xiv xm xl (Node yiv ym T2 yr yh) xh =>
      let x' := _update_height_and_max (Node xiv xm xl T2 xh) in
      Ok (_update_height_and_max (Node yiv ym x' yr yh))
  | _ => Raise AttributeError
  end.

(** [node.interval] on a possibly absent node. *)
Definition interval_of (node : IntervalNode) : result Interval :=
  match node with
  | Nil => Raise AttributeError
  | Node iv _ _ _ _ => Ok iv
  end.

Definition left_of (node : IntervalNode) : IntervalNode :=
  match node with
  | Nil => Nil
  | Node _ _ l _ _ => l
  end.

Definition right_of (node : IntervalNode) : IntervalNode :=
  match node with
  | Nil => Nil
  | Node _ _ _ r _ => r
  end.

(** [node.left = t] and [node.right = t] on a present node. *)
Definition set_left (node t : IntervalNode) : IntervalNode :=
  match node with
  | Nil => Nil
  | Node iv m _ r h => Node iv m t r h
  end.

Definition set_right (node t : IntervalNode) : IntervalNode :=
  match node with
  | Nil => Nil
  | Node iv m l _ h => Node iv m l t h
  end.

(** The four rebalancing tests at the end of the inner [_insert]. *)
Definition insert_rebalance (node : IntervalNode) (interval : Interval)
  : result IntervalNode :=
  let balance := _balance_factor node in
  let* c1 := and_then (1 <? balance)
          (let* li := interval_of (left_of node) in
           Ok (start interval <? start li)) in
  if c1 then _rotate_right node else
  let* c2 := and_then (balance <? -1)
          (let* ri := interval_of (right_of node) in
           Ok (start ri <=? start interval)) in
  if c2 then _rotate_left node else
  let* c3 := and_then (1 <? balance)
          (let* li := interval_of (left_of node) in
           Ok (start li <=? start interval)) in
  if c3 then
    let* l' := _rotate_left (left_of node) in
    _rotate_right (set_left node l')
  else
  let* c4 := and_then (balance <? -1)
          (let* ri := interval_of (right_of node) in
           Ok (start interval <? start ri)) in
  if c4 then
    let* r' := _rotate_right (right_of node) in
    _rotate_left (set_right node r')
  else Ok node.

(** The inner [_insert] of [IntervalTree.insert]. *)
Fixpoint _insert (node : IntervalNode) (interval : Interval)
  : result IntervalNode :=
  match node with
  | Nil => Ok (Node interval (end_ interval) Nil Nil 1)
  | Node iv m l r h =>
      let* node1 := (if start interval <? start iv
                then let* l' := _insert l interval in Ok (Node iv m l' r h)
                else let* r' := _insert r interval in Ok (Node iv m l r' h)) in
      insert_rebalance (_update_height_and_max node1) interval
  end.

(** The inner [_search] of [find_overlapping]; the list is the order in
    which [result.append] is called. *)
Fixpoint _search (node : IntervalNode) (query : Interval) : list Interval :=
  match node with
  | Nil => []
  | Node iv m l r _ =>
      if m <=? start query then []
      else
        (match l with Nil => [] | _ => _search l query end)
        ++ (if overlaps iv query then [iv] else [])
        ++ (if start iv <? end_ query then _search r query else [])
  end.

(** The inner [_has_overlap] of [has_overlap]. *)
Fixpoint _has_overlap (node : IntervalNode) (query : Interval) : bool :=
  match node with
  | Nil => false
  | Node iv m l r _ =>
      if m <=? start query then false
      else if overlaps iv query then true
      else if (match l with
               | Nil => false
               | Node _ lm _ _ _ =>
                   if start query <? lm then _has_overlap l query else false
               end) then true
      else if start iv <? end_ query then _has_overlap r query
      else false
  end.

(** The inner [_search] of [find_at_point]. *)
Fixpoint _search_point (node : IntervalNode) (point : Z) : list Interval :=
  match node with
  | Nil => []
  | Node iv m l r _ =>
      if m <=? point then []
      else
        (match l with Nil => [] | _ => _search_point l point end)
        ++ (if contains iv point then [iv] else [])
        ++ (if start iv <=? point then _search_point r point else [])
  end.

(** The inner [_find_min] of [delete]: the leftmost node. It is only called
    on a present node; on [Nil] the loop test itself would raise. *)
Fixpoint _find_min (node : IntervalNode) : IntervalNode :=
  match node with
  | Nil => Nil
  | Node _ _ Nil _ _ => node
  | Node _ _ l _ _ => _find_min l
  end.

(** The rebalancing tests at the end of the inner [_delete]. *)
Definition delete_rebalance (node : IntervalNode) : result IntervalNode :=
  let balance := _balance_factor node in
  if (1 <? balance) && (0 <=? _balance_factor (left_of node)) then
    _rotate_right node
  else if (1 <? balance) && (_balance_factor (left_of node) <? 0) then
    let* l' := _rotate_left (left_of node) in
    _rotate_right (set_left node l')
  else if (balance <? -1) && (_balance_factor (right_of node) <=? 0) then
    _rotate_left node
  else if (balance <? -1) && (0 <? _balance_factor (right_of node)) then
    let* r' := _rotate_right (right_of node) in
    _rotate_left (set_right node r')
  else Ok node.

(** The inner [_delete] of [IntervalTree.delete]. The two early returns
    ([return node.right], [return node.left]) skip the update and the
    rebalancing. *)
Fixpoint _delete (node : IntervalNode) (interval : Interval)
  : result IntervalNode :=
  match node with
  | Nil => Ok Nil
  | Node iv m l r h =>
      if Interval_lt interval iv then
        let* l' := _delete l interval in
        delete_rebalance (_update_height_and_max (Node iv m l' r h))
      else if (start iv <? start interval)
              || ((start interval =? start iv) && (end_ iv <? end_ interval))
      then
        let* r' := _delete r interval in
        delete_rebalance (_update_height_and_max (Node iv m l r' h))
      else if Interval_eq interval iv then
        match l, r with
        | Nil, _ => Ok r
        | _, Nil => Ok l
        | _, _ =>
            let* successor := interval_of (_find_min r) in
            let* r' := _delete r successor in
            delete_rebalance
              (_update_height_and_max (Node successor m l r' h))
        end
      else
        let* r' := _delete r interval in
        delete_rebalance (_update_height_and_max (Node iv m l r' h))
  end.

Fixpoint _count_nodes (node : IntervalNode) : Z :=
  match node with
  | Nil => 0
  | Node _ _ l r _ => 1 + _count_nodes l + _count_nodes r
  end.

(** The inner [_inorder] of [get_all_intervals]. *)
Fixpoint _inorder (node : IntervalNode) : list Interval :=
  match node with
  | Nil => []
  | Node iv _ l r _ => _inorder l ++ iv :: _inorder r
  end.

(** The [IntervalTree] object. *)
Record IntervalTree : Type := mkIntervalTree {
  root : IntervalNode;
  size : Z
}.

(** [IntervalTree.__init__] *)
Definition empty : IntervalTree := mkIntervalTree Nil 0.

(** [IntervalTree.insert]; the method always returns [True]. *)
Definition insert (self : IntervalTree) (interval : Interval)
  : result IntervalTree :=
  let* root' := _insert (root self) interval in
  Ok (mkIntervalTree root' (size self + 1)).

Definition find_overlapping (self : IntervalTree) (query : Interval)
  : list Interval :=
  _search (root self) query.

Definition has_overlap (self : IntervalTree) (query : Interval) : bool :=
  _has_overlap (root self) query.

Definition find_at_point (self : IntervalTree) (point : Z) : list Interval :=
  _search_point (root self) point.

(** [IntervalTree.delete]: the new tree and the returned flag. *)
Definition delete (self : IntervalTree) (interval : Interval)
  : result (IntervalTree * bool) :=
  let old_size := size self in
  let* root' := _delete (root self) interval in
  let new_size := _count_nodes root' in
  if new_size <? old_size
  then Ok (mkIntervalTree root' new_size, true)
  else Ok (mkIntervalTree root' (size self), false).

Definition get_all_intervals (self : IntervalTree) : list Interval :=
  _inorder (root self).

(** [IntervalTree.__len__] *)
Definition len (self : IntervalTree) : Z := size self.

(** [Interval.duration] *)
Definition duration (self : Interval) : Z := end_ self - start self.

(** [existing.sort(key=lambda x: x.start)]. [list.sort] is stable, so its
    result is the one of the stable insertion sort: an element goes before
    the first later element whose start is not smaller. *)
Fixpoint insert_by_start (x : Interval) (sorted : list Interval)
  : list Interval :=
  match sorted with
  | [] => [x]
  | y :: ys =>
      if start x <=? start y then x :: sorted else y :: insert_by_start x ys
  end.

Fixpoint sort_by_start (xs : list Interval) : list Interval :=
  match xs with
  | [] => []
  | x :: xs' => insert_by_start x (sort_by_start xs')
  end.

(** The [for interval in existing] loop of [find_available_slots], over
    [available] and [current_start]. *)
Fixpoint _slots (existing : list Interval) (duration : Z)
    (available : list Interval) (current_start : Z)
  : result (list Interval * Z) :=
  match existing with
  | [] => Ok (available, current_start)
  | interval :: rest =>
      let* available' :=
        (if current_start <? start interval then
           let gap := start interval - current_start in
           if duration <=? gap then
             let* slot := Interval_init current_start (start interval) None in
             Ok (available ++ [slot])
           else Ok available
         else Ok available) in
      let current_start' :=
        if current_start <? end_ interval then end_ interval
        else current_start in
      _slots rest duration available' current_start'
  end.

(** [IntervalTree.find_available_slots] on numbers (the two branches on
    [isinstance(duration, timedelta)] run the same code). *)
Definition find_available_slots (self : IntervalTree)
    (start_ end' duration : Z) : result (list Interval) :=
  let* query := Interval_init start_ end' None in
  let existing := sort_by_start (find_overlapping self query) in
  let* p := _slots existing duration [] start_ in
  let available := fst p in
  let current_start := snd p in
  if current_start <? end' then
    let gap := end' - current_start in
    if duration <=? gap then
      let* slot := Interval_init current_start end' None in
      Ok (available ++ [slot])
    else Ok available
  else Ok available.

(** [IntervalTree.suggest_alternative] on numbers: without a search range
    the day is [0, 24 * 60] minutes. *)
Definition suggest_alternative (self : IntervalTree) (requested : Interval)
    (search_range : option (Z * Z)) : result (list Interval) :=
  let d := duration requested in
  let range :=
    match search_range with
    | Some r => r
    | None => (0, 24 * 60)
    end in
  find_available_slots self (fst range) (snd range) d.

(** [IntervalTree.clear] *)
Definition clear (self : IntervalTree) : IntervalTree := mkIntervalTree Nil 0.

End WithData.

Arguments Interval : clear implicits.
Arguments IntervalNode : clear implicits.
Arguments IntervalTree : clear implicits.

End IntervalTree.

(** * data_structures/avl_tree.py *)

Module AVLTree.

Section WithKeyValue.

Context {K V : Type}.

(** What a node's [value] field can hold: [None], the key itself (the
    default of [AVLNode.__init__] when no value is given), or a value. *)
Inductive stored : Type :=
| SNone
| SKey (k : K)
| SVal (v : V).

(** The [compare_func] of the tree; the default is
    [lambda a, b: (a > b) - (a < b)]. *)
Context (_compare : K -> K -> Z).

(** [AVLNode]; [Nil] is the [None] child. The fields are in the order of the
    class: key, value, left, right, height. *)
Inductive AVLNode : Type :=
| Nil
| Node (key : K) (value : stored) (left right : AVLNode) (height : Z).

(** [AVLNode.__init__]: [value if value is not None else key]. *)
Definition AVLNode_init (key : K) (value : option V) : AVLNode :=
  Node key (match value with Some v => SVal v | None => SKey key end)
       Nil Nil 1.

(** The assignment [node.value = value]. *)
Definition assigned (value : option V) : stored :=
  match value with
  | Some v => SVal v
  | None => SNone
  end.

Definition _height (node : AVLNode) : Z :=
  match node with
  | Nil => 0
  | Node _ _ _ _ h => h
  end.

Definition _balance_factor (node : AVLNode) : Z :=
  match node with
  | Nil => 0
  | Node _ _ l r _ => _height l - _height r
  end.

Definition _update_height (node : AVLNode) : AVLNode :=
  match node with
  | Nil => Nil
  | Node k v l r _ => Node k v l r (1 + Z.max (_height l) (_height r))
  end.

(** [x = y.left; B = x.right] raises [AttributeError] when [y.left] is
    [None]. *)
Definition _rotate_right (y : AVLNode) : result AVLNode :=
  match y with
  | Node yk yv (Node xk xv xl B xh) yr yh =>
      let y' := _update_height (Node yk yv B yr yh) in
      Ok (_update_height (Node xk xv xl y' xh))
  | _ => Raise AttributeError
  end.

Definition _rotate_left (x : AVLNode) : result AVLNode :=
  match x with
  | Node xk xv xl (Node yk yv B yr yh) xh =>
      let x' := _update_height (Node xk xv xl B xh) in
      Ok (_update_height (Node yk yv x' yr yh))
  | _ => Raise AttributeError
  end.

(** [node.key] on a possibly absent node. *)
Definition key_of (node : AVLNode) : result K :=
  match node with
  | Nil => Raise AttributeError
  | Node k _ _ _ _ => Ok k
  end.

Definition left_of (node : AVLNode) : AVLNode :=
  match node with
  | Nil => Nil
  | Node _ _ l _ _ => l
  end.

Definition right_of (node : AVLNode) : AVLNode :=
  match node with
  | Nil => Nil
  | Node _ _ _ r _ => r
  end.

Definition set_left (node t : AVLNode) : AVLNode :=
  match node with
  | Nil => Nil
  | Node k v _ r h => Node k v t r h
  end.

Definition set_right (node t : AVLNode) : AVLNode :=
  match node with
  | Nil => Nil
  | Node k v l _ h => Node k v l t h
  end.

(** [AVLTree._rebalance] *)
Definition _rebalance (node : AVLNode) (key : K) : result AVLNode :=
  let balance := _balance_factor node in
  let* c1 := and_then (1 <? balance)
               (let* lk := key_of (left_of node) in
                Ok (_compare key lk <? 0)) in
  if c1 then _rotate_right node else
  let* c2 := and_then (balance <? -1)
               (let* rk := key_of (right_of node) in
                Ok (0 <? _compare key rk)) in
  if c2 then _rotate_left node else
  let* c3 := and_then (1 <? balance)
               (let* lk := key_of (left_of node) in
                Ok (0 <? _compare key lk)) in
  if c3 then
    let* l' := _rotate_left (left_of node) in
    _rotate_right (set_left node l')
  else
  let* c4 := and_then (balance <? -1)
               (let* rk := key_of (right_of node) in
                Ok (_compare key rk <? 0)) in
  if c4 then
    let* r' := _rotate_right (right_of node) in
    _rotate_left (set_right node r')
  else Ok node.

(** The inner [_insert] of [AVLTree.insert]. On an equal key the node's
    value is assigned and the node is returned at once. *)
Fixpoint _insert (node : AVLNode) (key : K) (value : option V)
  : result AVLNode :=
  match node with
  | Nil => Ok (AVLNode_init key value)
  | Node k v l r h =>
      let cmp := _compare key k in
      if cmp <? 0 then
        let* l' := _insert l key value in
        _rebalance (_update_height (Node k v l' r h)) key
      else if 0 <? cmp then
        let* r' := _insert r key value in
        _rebalance (_update_height (Node k v l r' h)) key
      else Ok (Node k (assigned value) l r h)
  end.

(** [AVLTree._search_node]: the loop descends from the root. *)
Fixpoint _search_node (current : AVLNode) (key : K) : AVLNode :=
  match current with
  | Nil => Nil
  | Node k _ l r _ =>
      let cmp := _compare key k in
      if cmp <? 0 then _search_node l key
      else if 0 <? cmp then _search_node r key
      else current
  end.

(** [AVLTree._find_min]: the leftmost node. *)
Fixpoint _find_min (node : AVLNode) : AVLNode :=
  match node with
  | Nil => Nil
  | Node _ _ Nil _ _ => node
  | Node _ _ l _ _ => _find_min l
  end.

(** The rebalancing tests at the end of the inner [_delete]. *)
Definition delete_rebalance (node : AVLNode) : result AVLNode :=
  let balance := _balance_factor node in
  if (1 <? balance) && (0 <=? _balance_factor (left_of node)) then
    _rotate_right node
  else if (1 <? balance) && (_balance_factor (left_of node) <? 0) then
    let* l' := _rotate_left (left_of node) in
    _rotate_right (set_left node l')
  else if (balance <? -1) && (_balance_factor (right_of node) <=? 0) then
    _rotate_left node
  else if (balance <? -1) && (0 <? _balance_factor (right_of node)) then
    let* r' := _rotate_right (right_of node) in
    _rotate_left (set_right node r')
  else Ok node.

(** The inner [_delete] of [AVLTree.delete]. *)
Fixpoint _delete (node : AVLNode) (key : K) : result AVLNode :=
  match node with
  | Nil => Ok Nil
  | Node k v l r h =>
      let cmp := _compare key k in
      if cmp <? 0 then
        let* l' := _delete l key in
        delete_rebalance (_update_height (Node k v l' r h))
      else if 0 <? cmp then
        let* r' := _delete r key in
        delete_rebalance (_update_height (Node k v l r' h))
      else
        match l, r with
        | Nil, _ => Ok r
        | _, Nil => Ok l
        | _, _ =>
            match _find_min r with
            | Nil => Raise AttributeError
            | Node sk sv _ _ _ =>
                let* r' := _delete r sk in
                delete_rebalance (_update_height (Node sk sv l r' h))
            end
        end
  end.

(** The inner [_inorder] of [inorder_traversal]. *)
Fixpoint _inorder (node : AVLNode) : list (K * stored) :=
  match node with
  | Nil => []
  | Node k v l r _ => _inorder l ++ (k, v) :: _inorder r
  end.

(** The [AVLTree] object. *)
Record AVLTree : Type := mkAVLTree {
  root : AVLNode;
  size : Z
}.

(** [AVLTree.__init__] *)
Definition empty : AVLTree := mkAVLTree Nil 0.

(** [AVLTree.insert]: the new tree and the returned flag
    [self.size > old_size]. *)
Definition insert (self : AVLTree) (key : K) (value : option V)
  : result (AVLTree * bool) :=
  let old_size := size self in
  let* root' := _insert (root self) key value in
  let size' := size self + 1 in
  Ok (mkAVLTree root' size', old_size <? size').

(** [AVLTree.search]: [node.value if node else None]. *)
Definition search (self : AVLTree) (key : K) : stored :=
  match _search_node (root self) key with
  | Nil => SNone
  | Node _ v _ _ _ => v
  end.

(** [AVLTree.contains] *)
Definition contains (self : AVLTree) (key : K) : bool :=
  match _search_node (root self) key with
  | Nil => false
  | Node _ _ _ _ _ => true
  end.

(** [AVLTree.delete] *)
Definition delete (self : AVLTree) (key : K) : result (AVLTree * bool) :=
  if negb (contains self key) then Ok (self, false)
  else
    let* root' := _delete (root self) key in
    Ok (mkAVLTree root' (size self - 1), true).

Definition inorder_traversal (self : AVLTree) : list (K * stored) :=
  _inorder (root self).

(** [AVLTree.__len__] *)
Definition len (self : AVLTree) : Z := size self.

(** [AVLTree._find_max]: the rightmost node. *)
Fixpoint _find_max (node : AVLNode) : AVLNode :=
  match node with
  | Nil => Nil
  | Node _ _ _ Nil _ => node
  | Node _ _ _ r _ => _find_max r
  end.

(** [node.value] of a present node. *)
Definition value_of (node : AVLNode) : stored :=
  match node with
  | Nil => SNone
  | Node _ v _ _ _ => v
  end.

(** [AVLTree.get_min] / [AVLTree.get_max]: [None] on an empty tree. *)
Definition get_min (self : AVLTree) : stored :=
  match root self with
  | Nil => SNone
  | node => value_of (_find_min node)
  end.

Definition get_max (self : AVLTree) : stored :=
  match root self with
  | Nil => SNone
  | node => value_of (_find_max node)
  end.

(** The inner [_range_query] of [range_query]; the list is the order of
    the [result.append] calls. *)
Fixpoint _range_query (node : AVLNode) (low high : K) : list (K * stored) :=
  match node with
  | Nil => []
  | Node k v l r _ =>
      (if 0 <? _compare k low then _range_query l low high else [])
      ++ (if (0 <=? _compare k low) && (_compare k high <=? 0)
          then [(k, v)] else [])
      ++ (if _compare k high <? 0 then _range_query r low high else [])
  end.

Definition range_query (self : AVLTree) (low high : K) : list (K * stored) :=
  _range_query (root self) low high.

(** [AVLTree.get_height] *)
Definition get_height (self : AVLTree) : Z := _height (root self).

(** The inner [_check_balance] of [is_balanced]. *)
Fixpoint _check_balance (node : AVLNode) : bool :=
  match node with
  | Nil => true
  | Node _ _ l r _ =>
      if 1 <? Z.abs (_balance_factor node) then false
      else _check_balance l && _check_balance r
  end.

Definition is_balanced (self : AVLTree) : bool := _check_balance (root self).

(** [AVLTree.clear] *)
Definition clear (self : AVLTree) : AVLTree := mkAVLTree Nil 0.

End WithKeyValue.

Arguments stored : clear implicits.
Arguments AVLNode : clear implicits.
Arguments AVLTree : clear implicits.

End AVLTree.

(** * data_structures/stack_queue.py *)

Module StackQueue.

(** ** Stack *)

Section Stack.

Context {T : Type}.

(** [_items] is the Python list (the top is the last element);
    [_max_size = None] is an unbounded stack. *)
Record Stack : Type := mkStack {
  _items : list T;
  _max_size : option Z
}.

(** [Stack.__init__] *)
Definition Stack_init (max_size : option Z) : Stack := mkStack [] max_size.

(** The truth value of [self._max_size]: [None] and [0] are false. *)
Definition max_size_set (self : Stack) : bool :=
  match _max_size self with
  | None => false
  | Some m => negb (m =? 0)
  end.

(** [Stack.push]: a full stack is left as it is and [False] is returned. *)
Definition push (self : Stack) (item : T) : Stack * bool :=
  if max_size_set self
     && (match _max_size self with
         | Some m => m <=? Z.of_nat (length (_items self))
         | None => false
         end)
  then (self, false)
  else (mkStack (_items self ++ [item]) (_max_size self), true).

(** [Stack.pop]: raises [IndexError] on an empty stack. *)
Definition pop (self : Stack) : result (Stack * T) :=
  match last (_items self) with
  | None => Raise IndexError
  | Some x => Ok (mkStack (removelast (_items self)) (_max_size self), x)
  end.

(** [Stack.peek] *)
Definition peek (self : Stack) : result T :=
  match last (_items self) with
  | None => Raise IndexError
  | Some x => Ok x
  end.

Definition is_empty (self : Stack) : bool :=
  Z.of_nat (length (_items self)) =? 0.

Definition is_full (self : Stack) : bool :=
  match _max_size self with
  | None => false
  | Some m => m <=? Z.of_nat (length (_items self))
  end.

Definition Stack_size (self : Stack) : Z := Z.of_nat (length (_items self)).

Definition clear (self : Stack) : Stack := mkStack [] (_max_size self).

(** [Stack.to_list]: from the top down. *)
Definition to_list (self : Stack) : list T := rev (_items self).

End Stack.

Arguments Stack : clear implicits.

(** ** Undo/redo manager *)

Inductive ActionType : Type :=
| CREATE
| UPDATE
| DELETE
| BATCH.

Section Manager.

(** The type of the entity snapshots kept in [old_state] / [new_state]. *)
Context {S : Type}.

(** [Action]. A state field holds [None], a snapshot, or (for a batch) the
    list of buffered actions. The [timestamp] field, which no operation
    reads, is left out. *)
Inductive Action : Type :=
| mkAction (action_type : ActionType) (entity_type : string)
           (entity_id : option string)
           (old_state new_state : payload) (description : string)
with payload : Type :=
| PNone
| PState (s : S)
| PActions (l : list Action).

Definition action_type (a : Action) : ActionType :=
  match a with mkAction t _ _ _ _ _ => t end.
Definition entity_type (a : Action) : string :=
  match a with mkAction _ e _ _ _ _ => e end.
Definition entity_id (a : Action) : option string :=
  match a with mkAction _ _ i _ _ _ => i end.
Definition old_state (a : Action) : payload :=
  match a with mkAction _ _ _ o _ _ => o end.
Definition new_state (a : Action) : payload :=
  match a with mkAction _ _ _ _ n _ => n end.
Definition description (a : Action) : string :=
  match a with mkAction _ _ _ _ _ d => d end.

(** [UndoRedoManager]; the [on_state_change] callback is [None] in the
    reservation system and is left out. *)
Record UndoRedoManager : Type := mkManager {
  _undo_stack : Stack Action;
  _redo_stack : Stack Action;
  _max_history : Z;
  _batch_mode : bool;
  _batch_actions : list Action
}.

(** [UndoRedoManager.__init__] *)
Definition UndoRedoManager_init (max_history : Z) : UndoRedoManager :=
  mkManager (Stack_init (Some max_history)) (Stack_init (Some max_history))
            max_history false [].

(** [record_action]: the flag returned by [push] is dropped. *)
Definition record_action (self : UndoRedoManager) (action : Action)
  : UndoRedoManager :=
  if _batch_mode self then
    mkManager (_undo_stack self) (_redo_stack self) (_max_history self)
              (_batch_mode self) (_batch_actions self ++ [action])
  else
    mkManager (fst (push (_undo_stack self) action))
              (clear (_redo_stack self))
              (_max_history self) (_batch_mode self) (_batch_actions self).

(** [description or default] *)
Definition or_default (description default : string) : string :=
  if String.eqb description "" then default else description.

Definition record_create (self : UndoRedoManager) (entity_type entity_id : string)
    (new_state : S) (description : string) : UndoRedoManager :=
  record_action self
    (mkAction CREATE entity_type (Some entity_id) PNone (PState new_state)
       (or_default description (entity_type +:+ " oluşturuldu"))).

Definition record_update (self : UndoRedoManager) (entity_type entity_id : string)
    (old_state new_state : S) (description : string) : UndoRedoManager :=
  record_action self
    (mkAction UPDATE entity_type (Some entity_id)
       (PState old_state) (PState new_state)
       (or_default description (entity_type +:+ " güncellendi"))).

Definition record_delete (self : UndoRedoManager) (entity_type entity_id : string)
    (old_state : S) (description : string) : UndoRedoManager :=
  record_action self
    (mkAction DELETE entity_type (Some entity_id) (PState old_state) PNone
       (or_default description (entity_type +:+ " silindi"))).

Definition begin_batch (self : UndoRedoManager) : UndoRedoManager :=
  mkManager (_undo_stack self) (_redo_stack self) (_max_history self)
            true [].

(** [end_batch]: the buffered actions become the [old_state] of one
    [BATCH] action. *)
Definition end_batch (self : UndoRedoManager) (description : string)
  : UndoRedoManager :=
  if negb (_batch_mode self) then self
  else
    match _batch_actions self with
    | [] =>
        mkManager (_undo_stack self) (_redo_stack self) (_max_history self)
                  false []
    | _ :: _ =>
        let batch_action :=
          mkAction BATCH "batch" None (PActions (_batch_actions self)) PNone
                   description in
        mkManager (fst (push (_undo_stack self) batch_action))
                  (clear (_redo_stack self))
                  (_max_history self) false []
    end.

Definition cancel_batch (self : UndoRedoManager) : UndoRedoManager :=
  mkManager (_undo_stack self) (_redo_stack self) (_max_history self)
            false [].

Definition can_undo (self : UndoRedoManager) : bool :=
  negb (is_empty (_undo_stack self)).

Definition can_redo (self : UndoRedoManager) : bool :=
  negb (is_empty (_redo_stack self)).

(** [undo]: the popped action moves to the redo stack and is returned. *)
Definition undo (self : UndoRedoManager)
  : result (UndoRedoManager * option Action) :=
  if negb (can_undo self) then Ok (self, None)
  else
    let* p := pop (_undo_stack self) in
    let '(undo_stack', action) := p in
    Ok (mkManager undo_stack' (fst (push (_redo_stack self) action))
                  (_max_history self) (_batch_mode self)
                  (_batch_actions self),
        Some action).

Definition redo (self : UndoRedoManager)
  : result (UndoRedoManager * option Action) :=
  if negb (can_redo self) then Ok (self, None)
  else
    let* p := pop (_redo_stack self) in
    let '(redo_stack', action) := p in
    Ok (mkManager (fst (push (_undo_stack self) action)) redo_stack'
                  (_max_history self) (_batch_mode self)
                  (_batch_actions self),
        Some action).


Definition redo_count (self : UndoRedoManager) : Z :=
  Stack_size (_redo_stack self).

End Manager.

Arguments Action : clear implicits.
Arguments payload : clear implicits.
Arguments UndoRedoManager : clear implicits.

End StackQueue.

(** * reservation_system.py *)

Module ReservationSystem.

Import StackQueue.

Inductive ReservationStatus : Type :=
| PENDING
| CONFIRMED
| CANCELLED
| COMPLETED
| NO_SHOW.

Inductive RoomType : Type :=
| MEETING
| CONFERENCE
| TRAINING
| EXECUTIVE
| AUDITORIUM.

#[global] Instance ReservationStatus_eq_dec : EqDecision ReservationStatus.
Proof. solve_decision. Defined.

#[global] Instance RoomType_eq_dec : EqDecision RoomType.
Proof. solve_decision. Defined.

(** A [datetime] is the number of whole seconds since the epoch. *)
Definition datetime : Type := Z.

(** The [Room] dataclass. [hourly_rate] is a number that the core never
    computes with; it is kept as an integer. *)
Module Room.
Record t : Type := mk {
  id : string;
  name : string;
  capacity : Z;
  room_type : RoomType;
  floor : Z;
  amenities : list string;
  hourly_rate : Z;
  is_active : bool
}.
End Room.

(** The [Reservation] dataclass. *)
Module Reservation.
Record t : Type := mk {
  id : string;
  room_id : string;
  customer_name : string;
  customer_email : string;
  start_time : datetime;
  end_time : datetime;
  status : ReservationStatus;
  priority : Z;
  title : string;
  description : string;
  attendees : Z;
  created_at : datetime;
  updated_at : datetime
}.
End Reservation.

#[global] Instance Room_inhabited : Inhabited Room.t :=
  populate (Room.mk "" "" 0 MEETING 1 [] 0 true).

#[global] Instance Reservation_inhabited : Inhabited Reservation.t :=
  populate (Reservation.mk "" "" "" "" 0 0 PENDING 2 "" "" 1 0 0).

(** The dictionaries built by [to_dict]. [from_dict (to_dict x)] rebuilds
    every field of [x] (ISO strings and enum values are read back as they
    were written), so a dictionary is the record of the values it holds;
    [record_*] deep-copies it, which on values is the identity. *)
Inductive snapshot : Type :=
| RoomDict (d : Room.t)
| ReservationDict (d : Reservation.t).

(** The keyword arguments of [update_room] / [update_reservation]: one
    optional value per dataclass field (a key that names no attribute is
    ignored by the [hasattr] test). *)
Module RoomPatch.
Record t : Type := mk {
  id : option string;
  name : option string;
  capacity : option Z;
  room_type : option RoomType;
  floor : option Z;
  amenities : option (list string);
  hourly_rate : option Z;
  is_active : option bool
}.
Definition none : t := mk None None None None None None None None.
End RoomPatch.

Module ReservationPatch.
Record t : Type := mk {
  id : option string;
  room_id : option string;
  customer_name : option string;
  customer_email : option string;
  start_time : option datetime;
  end_time : option datetime;
  status : option ReservationStatus;
  priority : option Z;
  title : option string;
  description : option string;
  attendees : option Z;
  created_at : option datetime;
  updated_at : option datetime
}.
Definition none : t :=
  mk None None None None None None None None None None None None None.
End ReservationPatch.

(** [setattr] for every key of the keyword arguments. *)
Definition patch_room (p : RoomPatch.t) (r : Room.t) : Room.t :=
  Room.mk
    (default (Room.id r) (RoomPatch.id p))
    (default (Room.name r) (RoomPatch.name p))
    (default (Room.capacity r) (RoomPatch.capacity p))
    (default (Room.room_type r) (RoomPatch.room_type p))
    (default (Room.floor r) (RoomPatch.floor p))
    (default (Room.amenities r) (RoomPatch.amenities p))
    (default (Room.hourly_rate r) (RoomPatch.hourly_rate p))
    (default (Room.is_active r) (RoomPatch.is_active p)).

Definition patch_reservation (p : ReservationPatch.t) (r : Reservation.t)
  : Reservation.t :=
  Reservation.mk
    (default (Reservation.id r) (ReservationPatch.id p))
    (default (Reservation.room_id r) (ReservationPatch.room_id p))
    (default (Reservation.customer_name r) (ReservationPatch.customer_name p))
    (default (Reservation.customer_email r) (ReservationPatch.customer_email p))
    (default (Reservation.start_time r) (ReservationPatch.start_time p))
    (default (Reservation.end_time r) (ReservationPatch.end_time p))
    (default (Reservation.status r) (ReservationPatch.status p))
    (default (Reservation.priority r) (ReservationPatch.priority p))
    (default (Reservation.title r) (ReservationPatch.title p))
    (default (Reservation.description r) (ReservationPatch.description p))
    (default (Reservation.attendees r) (ReservationPatch.attendees p))
    (default (Reservation.created_at r) (ReservationPatch.created_at p))
    (default (Reservation.updated_at r) (ReservationPatch.updated_at p)).

Definition set_updated_at (now : datetime) (r : Reservation.t) : Reservation.t :=
  Reservation.mk (Reservation.id r) (Reservation.room_id r)
    (Reservation.customer_name r) (Reservation.customer_email r)
    (Reservation.start_time r) (Reservation.end_time r)
    (Reservation.status r) (Reservation.priority r) (Reservation.title r)
    (Reservation.description r) (Reservation.attendees r)
    (Reservation.created_at r) now.

Definition set_status (st : ReservationStatus) (r : Reservation.t)
  : Reservation.t :=
  Reservation.mk (Reservation.id r) (Reservation.room_id r)
    (Reservation.customer_name r) (Reservation.customer_email r)
    (Reservation.start_time r) (Reservation.end_time r)
    st (Reservation.priority r) (Reservation.title r)
    (Reservation.description r) (Reservation.attendees r)
    (Reservation.created_at r) (Reservation.updated_at r).

(** The default [compare_func] of the AVL trees on [str] keys:
    [(a > b) - (a < b)]. *)
Definition str_compare (a b : string) : Z :=
  match String.compare a b with
  | Lt => -1
  | Eq => 0
  | Gt => 1
  end.

(** References to the [Room] and [Reservation] objects: positions in the
    two object stores below. *)
Definition ref : Type := nat.

Abbreviation RoomTree := (AVLTree.AVLTree string ref).
Abbreviation Intervals := (IntervalTree.IntervalTree ref).

(** The [ReservationSystem] object. [room_objs] and [reservation_objs] are
    the stores of the dataclass instances, which the dictionaries, the AVL
    trees and the interval payloads share by reference. The priority queue,
    the building graph, the waiting list and the action log do not feed
    back into the fields below and are left out. *)
Record t : Type := mk {
  room_objs : list Room.t;
  reservation_objs : list Reservation.t;
  _rooms : gmap string ref;
  _room_tree : RoomTree;
  _reservations : gmap string ref;
  _reservation_tree : RoomTree;
  _room_intervals : gmap string Intervals;
  _undo_manager : UndoRedoManager snapshot
}.

(** [ReservationSystem.__init__] *)
Definition init : t :=
  mk [] [] ∅ AVLTree.empty ∅ AVLTree.empty ∅ (UndoRedoManager_init 100).

(** ** Methods as state transformers that may raise *)

(** A method call: the outcome (a value or a raised exception) and the
    state it leaves behind, which after an exception is the state mutated
    so far. *)
Definition M (A : Type) : Type := t -> result A * t.

Definition ret {A} (a : A) : M A := fun s => (Ok a, s).
Definition raise {A} (e : exn) : M A := fun s => (Raise e, s).
Definition lift {A} (r : result A) : M A := fun s => (r, s).
Definition bind {A B} (m : M A) (k : A -> M B) : M B :=
  fun s =>
    match m s with
    | (Ok a, s') => k a s'
    | (Raise e, s') => (Raise e, s')
    end.
Definition get : M t := fun s => (Ok s, s).

Notation "'let!' x ':=' m 'in' k" := (bind m (fun x => k))
  (at level 10, x name, m at level 100, k at level 200).
Notation "'do!' m 'in' k" := (bind m (fun _ => k))
  (at level 10, m at level 100, k at level 200).

Definition set_room_objs (v : list Room.t) : M unit := fun s =>
  (Ok tt, mk v (reservation_objs s) (_rooms s) (_room_tree s)
             (_reservations s) (_reservation_tree s) (_room_intervals s)
             (_undo_manager s)).
Definition set_reservation_objs (v : list Reservation.t) : M unit := fun s =>
  (Ok tt, mk (room_objs s) v (_rooms s) (_room_tree s)
             (_reservations s) (_reservation_tree s) (_room_intervals s)
             (_undo_manager s)).
Definition set_rooms (v : gmap string ref) : M unit := fun s =>
  (Ok tt, mk (room_objs s) (reservation_objs s) v (_room_tree s)
             (_reservations s) (_reservation_tree s) (_room_intervals s)
             (_undo_manager s)).
Definition set_room_tree (v : RoomTree) : M unit := fun s =>
  (Ok tt, mk (room_objs s) (reservation_objs s) (_rooms s) v
             (_reservations s) (_reservation_tree s) (_room_intervals s)
             (_undo_manager s)).
Definition set_reservations (v : gmap string ref) : M unit := fun s =>
  (Ok tt, mk (room_objs s) (reservation_objs s) (_rooms s) (_room_tree s)
             v (_reservation_tree s) (_room_intervals s)
             (_undo_manager s)).
Definition set_reservation_tree (v : RoomTree) : M unit := fun s =>
  (Ok tt, mk (room_objs s) (reservation_objs s) (_rooms s) (_room_tree s)
             (_reservations s) v (_room_intervals s)
             (_undo_manager s)).
Definition set_room_intervals (v : gmap string Intervals) : M unit := fun s =>
  (Ok tt, mk (room_objs s) (reservation_objs s) (_rooms s) (_room_tree s)
             (_reservations s) (_reservation_tree s) v
             (_undo_manager s)).
Definition set_undo_manager (v : UndoRedoManager snapshot) : M unit := fun s =>
  (Ok tt, mk (room_objs s) (reservation_objs s) (_rooms s) (_room_tree s)
             (_reservations s) (_reservation_tree s) (_room_intervals s)
             v).

(** ** The object stores *)

(** A new object; its reference is the next free position. *)
Definition new_room (r : Room.t) : M ref :=
  let! s := get in
  do! set_room_objs (room_objs s ++ [r]) in
  ret (length (room_objs s)).

Definition new_reservation (r : Reservation.t) : M ref :=
  let! s := get in
  do! set_reservation_objs (reservation_objs s ++ [r]) in
  ret (length (reservation_objs s)).

(** Attribute reads through a reference. Every reference handed out comes
    from [new_room] / [new_reservation], so the position is filled. *)
Definition room_at (s : t) (x : ref) : Room.t := room_objs s !!! x.
Definition reservation_at (s : t) (x : ref) : Reservation.t :=
  reservation_objs s !!! x.

Definition read_room (x : ref) : M Room.t :=
  let! s := get in ret (room_at s x).
Definition read_reservation (x : ref) : M Reservation.t :=
  let! s := get in ret (reservation_at s x).

(** In-place mutation of the object behind a reference. *)
Definition write_room (x : ref) (r : Room.t) : M unit :=
  let! s := get in set_room_objs (<[x := r]> (room_objs s)).
Definition write_reservation (x : ref) (r : Reservation.t) : M unit :=
  let! s := get in set_reservation_objs (<[x := r]> (reservation_objs s)).

(** [Room.to_dict] / [Reservation.to_dict] and the [from_dict] class
    methods, which build a new object. *)
Definition Room_to_dict (r : Room.t) : snapshot := RoomDict r.
Definition Reservation_to_dict (r : Reservation.t) : snapshot :=
  ReservationDict r.

Definition Room_from_dict (state : payload snapshot) : M ref :=
  match state with
  | PState (RoomDict d) => new_room d
  | PState (ReservationDict _) => raise KeyError
  | _ => raise TypeError
  end.

Definition Reservation_from_dict (state : payload snapshot) : M ref :=
  match state with
  | PState (ReservationDict d) => new_reservation d
  | PState (RoomDict _) => raise KeyError
  | _ => raise TypeError
  end.

(** ** Helpers *)

(** [_datetime_to_minutes]: [int(dt.timestamp() / 60)] truncates toward
    zero. *)
Definition _datetime_to_minutes (dt : datetime) : Z := Z.quot dt 60.

(** The truth value of what an AVL search returned: [None] and the empty
    string are false. *)
Definition truthy (v : AVLTree.stored string ref) : bool :=
  match v with
  | AVLTree.SNone => false
  | AVLTree.SKey k => negb (String.eqb k "")
  | AVLTree.SVal _ => true
  end.

(** Attribute access on what an AVL search returned: a [str] has none of
    the dataclass attributes. *)
Definition as_object (v : AVLTree.stored string ref) : M ref :=
  match v with
  | AVLTree.SVal x => ret x
  | _ => raise AttributeError
  end.

(** [self._room_intervals[room_id]] *)
Definition intervals_of (room_id : string) : M Intervals :=
  let! s := get in
  match _room_intervals s !! room_id with
  | Some tree => ret tree
  | None => raise KeyError
  end.

(** [self._room_intervals[room_id].insert(interval)] *)
Definition intervals_insert (room_id : string)
    (interval : IntervalTree.Interval ref) : M unit :=
  let! tree := intervals_of room_id in
  let! tree' := lift (IntervalTree.insert tree interval) in
  let! s := get in
  set_room_intervals (<[room_id := tree']> (_room_intervals s)).

(** [self._room_intervals[room_id].delete(interval)]; the flag is dropped. *)
Definition intervals_delete (room_id : string)
    (interval : IntervalTree.Interval ref) : M unit :=
  let! tree := intervals_of room_id in
  let! p := lift (IntervalTree.delete tree interval) in
  let! s := get in
  set_room_intervals (<[room_id := fst p]> (_room_intervals s)).

(** The interval of a reservation object:
    [Interval(minutes(start_time), minutes(end_time), reservation)]. *)
Definition interval_for (x : ref) : M (IntervalTree.Interval ref) :=
  let! r := read_reservation x in
  lift (IntervalTree.Interval_init
          (_datetime_to_minutes (Reservation.start_time r))
          (_datetime_to_minutes (Reservation.end_time r))
          (Some x)).

Definition room_tree_insert (key : string) (x : ref) : M unit :=
  let! s := get in
  let! p := lift (AVLTree.insert str_compare (_room_tree s) key (Some x)) in
  set_room_tree (fst p).

Definition room_tree_delete (key : string) : M unit :=
  let! s := get in
  let! p := lift (AVLTree.delete str_compare (_room_tree s) key) in
  set_room_tree (fst p).

Definition reservation_tree_insert (key : string) (x : ref) : M unit :=
  let! s := get in
  let! p := lift (AVLTree.insert str_compare (_reservation_tree s) key (Some x)) in
  set_reservation_tree (fst p).

Definition reservation_tree_delete (key : string) : M unit :=
  let! s := get in
  let! p := lift (AVLTree.delete str_compare (_reservation_tree s) key) in
  set_reservation_tree (fst p).

Definition with_undo_manager
    (f : UndoRedoManager snapshot -> UndoRedoManager snapshot) : M unit :=
  let! s := get in set_undo_manager (f (_undo_manager s)).

(** ** Rooms *)

Definition get_room (room_id : string) : M (AVLTree.stored string ref) :=
  let! s := get in ret (AVLTree.search str_compare (_room_tree s) room_id).

Definition add_room (room : Room.t) : M bool :=
  let! s := get in
  if decide (is_Some (_rooms s !! Room.id room)) then ret false
  else
    let! x := new_room room in
    let! s := get in
    do! set_rooms (<[Room.id room := x]> (_rooms s)) in
    do! room_tree_insert (Room.id room) x in
    let! s := get in
    do! set_room_intervals
          (<[Room.id room := IntervalTree.empty]> (_room_intervals s)) in
    do! with_undo_manager (fun m =>
          record_create m "room" (Room.id room) (Room_to_dict room)
            ("Salon eklendi: " +:+ Room.name room)) in
    ret true.

Definition update_room (room_id : string) (kwargs : RoomPatch.t) : M bool :=
  let! v := get_room room_id in
  if negb (truthy v) then ret false
  else
    let! x := as_object v in
    let! room := read_room x in
    let old_state := Room_to_dict room in
    do! write_room x (patch_room kwargs room) in
    let! room := read_room x in
    do! with_undo_manager (fun m =>
          record_update m "room" room_id old_state (Room_to_dict room)
            ("Salon güncellendi: " +:+ Room.name room)) in
    ret true.

Definition delete_room (room_id : string) : M bool :=
  let! v := get_room room_id in
  if negb (truthy v) then ret false
  else
    let! s := get in
    if match _room_intervals s !! room_id with
       | Some tree => 0 <? IntervalTree.len tree
       | None => false
       end
    then ret false
    else
      let! x := as_object v in
      let! room := read_room x in
      let old_state := Room_to_dict room in
      let! s := get in
      if decide (_rooms s !! room_id = None) then raise KeyError else
      do! set_rooms (delete room_id (_rooms s)) in
      do! room_tree_delete room_id in
      let! s := get in
      if decide (_room_intervals s !! room_id = None) then raise KeyError else
      do! set_room_intervals (delete room_id (_room_intervals s)) in
      do! with_undo_manager (fun m =>
            record_delete m "room" room_id old_state
              ("Salon silindi: " +:+ Room.name room)) in
      ret true.

(** ** Conflicts *)

(** The loop of [check_conflict] over the overlapping intervals. *)
Definition conflict_filter (s : t) (exclude_id : option string)
    (overlapping : list (IntervalTree.Interval ref)) : list ref :=
  omap (fun interval =>
          match IntervalTree.data interval with
          | None => None
          | Some x =>
              let reservation := reservation_at s x in
              if bool_decide (exclude_id = None
                              \/ Some (Reservation.id reservation) <> exclude_id)
                 && negb (bool_decide
                            (Reservation.status reservation = CANCELLED
                             \/ Reservation.status reservation = COMPLETED))
              then Some x else None
          end) overlapping.

Definition check_conflict (room_id : string) (start_time end_time : datetime)
    (exclude_id : option string) : M (list ref) :=
  let! s := get in
  match _room_intervals s !! room_id with
  | None => ret []
  | Some tree =>
      let! query_interval :=
        lift (IntervalTree.Interval_init (_datetime_to_minutes start_time)
                (_datetime_to_minutes end_time) None) in
      let overlapping := IntervalTree.find_overlapping tree query_interval in
      ret (conflict_filter s exclude_id overlapping)
  end.

(** ** Reservations *)

Definition get_reservation (reservation_id : string)
  : M (AVLTree.stored string ref) :=
  let! s := get in
  ret (AVLTree.search str_compare (_reservation_tree s) reservation_id).

(** [c.title or c.customer_name] *)
Definition conflict_name (c : Reservation.t) : string :=
  if String.eqb (Reservation.title c) "" then Reservation.customer_name c
  else Reservation.title c.

Definition create_reservation (reservation : Reservation.t)
  : M (bool * string) :=
  let! v := get_room (Reservation.room_id reservation) in
  if negb (truthy v) then ret (false, "Salon bulunamadı") else
  let! rx := as_object v in
  let! room := read_room rx in
  if negb (Room.is_active room) then ret (false, "Salon aktif değil") else
  if Room.capacity room <? Reservation.attendees reservation then
    ret (false, "Katılımcı sayısı salon kapasitesini ("
                +:+ pretty (Room.capacity room) +:+ ") aşıyor")
  else
  let! conflicts :=
    check_conflict (Reservation.room_id reservation)
      (Reservation.start_time reservation)
      (Reservation.end_time reservation) None in
  match conflicts with
  | _ :: _ =>
      let! s := get in
      let conflict_names :=
        map (fun c => conflict_name (reservation_at s c)) conflicts in
      ret (false, "Çakışma var: " +:+ String.concat ", " conflict_names)
  | [] =>
      let! x := new_reservation reservation in
      let! s := get in
      do! set_reservations
            (<[Reservation.id reservation := x]> (_reservations s)) in
      do! reservation_tree_insert (Reservation.id reservation) x in
      let! interval := interval_for x in
      do! intervals_insert (Reservation.room_id reservation) interval in
      do! with_undo_manager (fun m =>
            record_create m "reservation" (Reservation.id reservation)
              (Reservation_to_dict reservation)
              ("Rezervasyon oluşturuldu: " +:+ Reservation.title reservation)) in
      ret (true, "Rezervasyon başarıyla oluşturuldu (ID: "
                 +:+ Reservation.id reservation +:+ ")")
  end.

(** ['start_time' in kwargs or 'end_time' in kwargs or 'room_id' in kwargs] *)
Definition touches_timing (kwargs : ReservationPatch.t) : bool :=
  bool_decide (is_Some (ReservationPatch.start_time kwargs))
  || bool_decide (is_Some (ReservationPatch.end_time kwargs))
  || bool_decide (is_Some (ReservationPatch.room_id kwargs)).

(** [update_reservation]; [now] is the reading of [datetime.now()]. *)
Definition update_reservation (now : datetime) (reservation_id : string)
    (kwargs : ReservationPatch.t) : M (bool * string) :=
  let! v := get_reservation reservation_id in
  if negb (truthy v) then ret (false, "Rezervasyon bulunamadı") else
  let! x := as_object v in
  let! reservation := read_reservation x in
  let old_state := reservation in
  let old_room := Reservation.room_id reservation in
  let! old_interval := interval_for x in
  do! intervals_delete old_room old_interval in
  do! write_reservation x (patch_reservation kwargs reservation) in
  let! reservation := read_reservation x in
  do! write_reservation x (set_updated_at now reservation) in
  let! reservation := read_reservation x in
  let! conflicts :=
    (if touches_timing kwargs then
       check_conflict (Reservation.room_id reservation)
         (Reservation.start_time reservation)
         (Reservation.end_time reservation) (Some reservation_id)
     else ret []) in
  match conflicts with
  | _ :: _ =>
      do! write_reservation x old_state in
      do! intervals_insert old_room old_interval in
      ret (false, "Çakışma var, güncelleme iptal edildi")
  | [] =>
      let! new_interval := interval_for x in
      do! intervals_insert (Reservation.room_id reservation) new_interval in
      do! with_undo_manager (fun m =>
            record_update m "reservation" reservation_id
              (Reservation_to_dict old_state)
              (Reservation_to_dict reservation)
              ("Rezervasyon güncellendi: " +:+ Reservation.title reservation)) in
      ret (true, "Rezervasyon başarıyla güncellendi")
  end.

Definition cancel_reservation (now : datetime) (reservation_id : string)
  : M (bool * string) :=
  let! v := get_reservation reservation_id in
  if negb (truthy v) then ret (false, "Rezervasyon bulunamadı") else
  let! x := as_object v in
  let! reservation := read_reservation x in
  if decide (Reservation.status reservation = CANCELLED) then
    ret (false, "Rezervasyon zaten iptal edilmiş")
  else
  let old_state := Reservation_to_dict reservation in
  do! write_reservation x (set_updated_at now (set_status CANCELLED reservation)) in
  let! reservation := read_reservation x in
  let! interval := interval_for x in
  do! intervals_delete (Reservation.room_id reservation) interval in
  do! with_undo_manager (fun m =>
        record_update m "reservation" reservation_id old_state
          (Reservation_to_dict reservation)
          ("Rezervasyon iptal edildi: " +:+ Reservation.title reservation)) in
  ret (true, "Rezervasyon iptal edildi").

Definition delete_reservation (reservation_id : string) : M bool :=
  let! v := get_reservation reservation_id in
  if negb (truthy v) then ret false else
  let! x := as_object v in
  let! reservation := read_reservation x in
  let old_state := Reservation_to_dict reservation in
  let! interval := interval_for x in
  do! intervals_delete (Reservation.room_id reservation) interval in
  let! s := get in
  if decide (_reservations s !! reservation_id = None) then raise KeyError else
  do! set_reservations (delete reservation_id (_reservations s)) in
  do! reservation_tree_delete reservation_id in
  do! with_undo_manager (fun m =>
        record_delete m "reservation" reservation_id old_state
          ("Rezervasyon silindi: " +:+ Reservation.title reservation)) in
  ret true.

(** ** Undo / redo *)

Definition _force_delete_reservation (reservation_id : string) : M unit :=
  let! s := get in
  match _reservations s !! reservation_id with
  | None => ret tt
  | Some x =>
      let! res := read_reservation x in
      let! interval := interval_for x in
      do! (if decide (is_Some (_room_intervals s !! Reservation.room_id res))
           then intervals_delete (Reservation.room_id res) interval
           else ret tt) in
      let! s := get in
      do! set_reservations (delete reservation_id (_reservations s)) in
      reservation_tree_delete reservation_id
  end.

Definition _force_delete_room (room_id : string) : M unit :=
  let! s := get in
  match _rooms s !! room_id with
  | None => ret tt
  | Some _ =>
      do! set_rooms (delete room_id (_rooms s)) in
      do! room_tree_delete room_id in
      let! s := get in
      set_room_intervals (delete room_id (_room_intervals s))
  end.

Definition _restore_reservation (reservation_id : string)
    (state : payload snapshot) (create : bool) : M unit :=
  let! x := Reservation_from_dict state in
  let! s := get in
  do! (if create || bool_decide (_reservations s !! reservation_id = None)
       then
         do! set_reservations (<[reservation_id := x]> (_reservations s)) in
         reservation_tree_insert reservation_id x
       else
         match _reservations s !! reservation_id with
         | None => raise KeyError
         | Some old_res =>
             let! old := read_reservation old_res in
             let! old_interval := interval_for old_res in
             do! intervals_delete (Reservation.room_id old) old_interval in
             let! s := get in
             set_reservations (<[reservation_id := x]> (_reservations s))
         end) in
  let! reservation := read_reservation x in
  let! interval := interval_for x in
  let! s := get in
  if decide (is_Some (_room_intervals s !! Reservation.room_id reservation))
  then intervals_insert (Reservation.room_id reservation) interval
  else ret tt.

Definition _restore_room (room_id : string) (state : payload snapshot)
    (create : bool) : M unit :=
  let! x := Room_from_dict state in
  let! s := get in
  if create || bool_decide (_rooms s !! room_id = None) then
    do! set_rooms (<[room_id := x]> (_rooms s)) in
    do! room_tree_insert room_id x in
    let! s := get in
    if decide (_room_intervals s !! room_id = None)
    then set_room_intervals (<[room_id := IntervalTree.empty]> (_room_intervals s))
    else ret tt
  else
    set_rooms (<[room_id := x]> (_rooms s)).

(** The [entity_id] of an action that one of [record_create],
    [record_update], [record_delete] built is a string; only a [BATCH]
    action carries [None], and no branch below reads it. *)
Definition id_of (action : Action snapshot) : M string :=
  match entity_id action with
  | Some i => ret i
  | None => raise TypeError
  end.

(** [_apply_undo_action]; there is no branch for [BATCH]. *)
Definition _apply_undo_action (action : Action snapshot) : M unit :=
  match action_type action with
  | CREATE =>
      if String.eqb (entity_type action) "reservation" then
        let! i := id_of action in _force_delete_reservation i
      else if String.eqb (entity_type action) "room" then
        let! i := id_of action in _force_delete_room i
      else ret tt
  | UPDATE =>
      if String.eqb (entity_type action) "reservation" then
        let! i := id_of action in
        _restore_reservation i (old_state action) false
      else if String.eqb (entity_type action) "room" then
        let! i := id_of action in
        _restore_room i (old_state action) false
      else ret tt
  | DELETE =>
      if String.eqb (entity_type action) "reservation" then
        let! i := id_of action in
        _restore_reservation i (old_state action) true
      else if String.eqb (entity_type action) "room" then
        let! i := id_of action in
        _restore_room i (old_state action) true
      else ret tt
  | BATCH => ret tt
  end.

(** [_apply_redo_action]; there is no branch for [BATCH]. *)
Definition _apply_redo_action (action : Action snapshot) : M unit :=
  match action_type action with
  | CREATE =>
      if String.eqb (entity_type action) "reservation" then
        let! i := id_of action in
        _restore_reservation i (new_state action) true
      else if String.eqb (entity_type action) "room" then
        let! i := id_of action in
        _restore_room i (new_state action) true
      else ret tt
  | UPDATE =>
      if String.eqb (entity_type action) "reservation" then
        let! i := id_of action in
        _restore_reservation i (new_state action) false
      else if String.eqb (entity_type action) "room" then
        let! i := id_of action in
        _restore_room i (new_state action) false
      else ret tt
  | DELETE =>
      if String.eqb (entity_type action) "reservation" then
        let! i := id_of action in _force_delete_reservation i
      else if String.eqb (entity_type action) "room" then
        let! i := id_of action in _force_delete_room i
      else ret tt
  | BATCH => ret tt
  end.

(** [undo]: the message, or [None] when there is nothing to undo. *)
Definition undo : M (option string) :=
  let! s := get in
  let! p := lift (StackQueue.undo (_undo_manager s)) in
  do! set_undo_manager (fst p) in
  match snd p with
  | Some action =>
      do! _apply_undo_action action in
      ret (Some ("Geri alındı: " +:+ description action))
  | None => ret None
  end.

Definition redo : M (option string) :=
  let! s := get in
  let! p := lift (StackQueue.redo (_undo_manager s)) in
  do! set_undo_manager (fst p) in
  match snd p with
  | Some action =>
      do! _apply_redo_action action in
      ret (Some ("Yinelendi: " +:+ description action))
  | None => ret None
  end.

Definition can_undo (s : t) : bool := StackQueue.can_undo (_undo_manager s).
Definition can_redo (s : t) : bool := StackQueue.can_redo (_undo_manager s).

(** The batch mode of the undo manager, reached through
    [self._undo_manager]. *)
Definition begin_batch : M unit := with_undo_manager StackQueue.begin_batch.
Definition end_batch (description : string) : M unit :=
  with_undo_manager (fun m => StackQueue.end_batch m description).

End ReservationSystem.

(** * data_structures/sorting.py *)

Module Sorting.

Section WithKey.

(** The elements, the key function, and the order [<=] of the keys;
    [a >= b] is [b <= a]. *)
Context {A K : Type} (key : A -> K) (le : K -> K -> bool).

(** [should_take_left] of [_merge]. *)
Definition should_take_left (reverse : bool) (left_key right_key : K) : bool :=
  if reverse then le right_key left_key else le left_key right_key.

(** [_merge]: the loop runs while both lists have elements left; what
    remains of either list is appended. The recursion is on the two
    suffixes [left[i:]] and [right[j:]]. *)
Fixpoint _merge (reverse : bool) (left right : list A) : list A :=
  match left with
  | [] => right
  | x :: left' =>
      (fix from_right (right : list A) : list A :=
         match right with
         | [] => left
         | y :: right' =>
             if should_take_left reverse (key x) (key y)
             then x :: _merge reverse left' right
             else y :: from_right right'
         end) right
  end.

(** [_mergesort]: [arr[:mid]] and [arr[mid:]] with [mid = len(arr) // 2]. *)
Equations _mergesort (reverse : bool) (arr : list A) : list A
  by wf (length arr) lt :=
_mergesort reverse arr with le_lt_dec (length arr) 1 := {
  | left _ => arr
  | right _ =>
      let mid := (length arr / 2)%nat in
      _merge reverse (_mergesort reverse (take mid arr))
                     (_mergesort reverse (drop mid arr)) }.
Next Obligation.
  change (Nat.divmod (length arr) 1 0 1).1 with (length arr / 2)%nat.
  rewrite length_take. pose proof (Nat.div_lt (length arr) 2). lia.
Qed.
Next Obligation.
  change (Nat.divmod (length arr) 1 0 1).1 with (length arr / 2)%nat.
  rewrite length_drop.
  assert (0 < length arr / 2)%nat by (apply Nat.div_str_pos; lia). lia.
Qed.

(** [mergesort]: a list of at most one element is copied. *)
Definition mergesort (reverse : bool) (arr : list A) : list A :=
  if (length arr <=? 1)%nat then arr else _mergesort reverse arr.

End WithKey.

(** ** Binary search *)

(** A value together with the equation that it is the value of the
    inspected term: the test of a [while] loop, kept for the proof that
    the loop ends. *)
Definition inspect {B} (b : B) : {c | b = c} := exist _ b eq_refl.

Section WithSearch.

(** The elements, the key function, and the comparisons [==], [<] and
    [<=] of the keys. *)
Context {A K : Type} (key : A -> K) (eq lt le : K -> K -> bool).

(** [arr[i]]: a negative index counts from the end, and outside of the
    list it raises [IndexError]. *)
Definition getitem (arr : list A) (i : Z) : result A :=
  let n := Z.of_nat (length arr) in
  let j := if i <? 0 then i + n else i in
  if (0 <=? j) && (j <? n) then
    match arr !! Z.to_nat j with
    | Some x => Ok x
    | None => Raise IndexError
    end
  else Raise IndexError.

(** [arr[i:j]]: negative bounds count from the end, and both are brought
    into the list. *)
Definition slice (arr : list A) (i j : Z) : list A :=
  let n := Z.of_nat (length arr) in
  let clamp k := Z.min (if k <? 0 then Z.max (k + n) 0 else k) n in
  drop (Z.to_nat (clamp i)) (take (Z.to_nat (clamp j)) arr).

(** The [while left <= right] loop of [binary_search], from the values of
    [left] and [right]; [//] is the floor division. *)
Equations _binary_search (arr : list A) (target : K) (left_ right_ : Z)
  : result Z by wf (Z.to_nat (right_ - left_ + 1)) Nat.lt :=
_binary_search arr target left_ right_ with inspect (left_ <=? right_) := {
  | exist _ true _ =>
      let mid := (left_ + right_) / 2 in
      match getitem arr mid with
      | Raise e => Raise e
      | Ok x =>
          if eq (key x) target then Ok mid
          else if lt (key x) target
               then _binary_search arr target (mid + 1) right_
               else _binary_search arr target left_ (mid - 1)
      end
  | exist _ false _ => Ok (-1) }.
Next Obligation.
  apply Z.leb_le in e. unfold Nat.lt.
  assert (left_ <= (left_ + right_) / 2)
    by (apply Z.div_le_lower_bound; lia). lia.
Qed.
Next Obligation.
  apply Z.leb_le in e. unfold Nat.lt.
  assert ((left_ + right_) / 2 <= right_)
    by (apply Z.div_le_upper_bound; lia). lia.
Qed.

(** [binary_search] *)
Definition binary_search (arr : list A) (target : K) : result Z :=
  match arr with
  | [] => Ok (-1)
  | _ :: _ => _binary_search arr target 0 (Z.of_nat (length arr) - 1)
  end.

(** [binary_search_recursive]: the inner [_search] is the recursion
    above, and an empty list is not singled out. *)
Definition binary_search_recursive (arr : list A) (target : K) : result Z :=
  _binary_search arr target 0 (Z.of_nat (length arr) - 1).

(** The [while left < right] loop of [binary_search_leftmost],
    [binary_search_rightmost] and [binary_search_insert_position]:
    [goes_right] is the test on [key(arr[mid])], which is
    [key(arr[mid]) < target] in the first and the third and
    [key(arr[mid]) <= target] in the second. *)
Equations _bisect (goes_right : K -> bool) (arr : list A) (left_ right_ : Z)
  : result Z by wf (Z.to_nat (right_ - left_)) Nat.lt :=
_bisect goes_right arr left_ right_ with inspect (left_ <? right_) := {
  | exist _ true _ =>
      let mid := (left_ + right_) / 2 in
      match getitem arr mid with
      | Raise e => Raise e
      | Ok x =>
          if goes_right (key x)
          then _bisect goes_right arr (mid + 1) right_
          else _bisect goes_right arr left_ mid
      end
  | exist _ false _ => Ok left_ }.
Next Obligation.
  apply Z.ltb_lt in e. unfold Nat.lt.
  assert (left_ <= (left_ + right_) / 2)
    by (apply Z.div_le_lower_bound; lia). lia.
Qed.
Next Obligation.
  apply Z.ltb_lt in e. unfold Nat.lt.
  assert ((left_ + right_) / 2 < right_)
    by (apply Z.div_lt_upper_bound; lia). lia.
Qed.

(** [binary_search_leftmost] *)
Definition binary_search_leftmost (arr : list A) (target : K) : result Z :=
  match arr with
  | [] => Ok (-1)
  | _ :: _ =>
      let* left_ := _bisect (fun k => lt k target) arr 0
                      (Z.of_nat (length arr)) in
      let* found := and_then (left_ <? Z.of_nat (length arr))
                      (let* x := getitem arr left_ in
                       Ok (eq (key x) target)) in
      if found then Ok left_ else Ok (-1)
  end.

(** [binary_search_rightmost] *)
Definition binary_search_rightmost (arr : list A) (target : K) : result Z :=
  match arr with
  | [] => Ok (-1)
  | _ :: _ =>
      let* left_ := _bisect (fun k => le k target) arr 0
                      (Z.of_nat (length arr)) in
      let* found := and_then (0 <? left_)
                      (let* x := getitem arr (left_ - 1) in
                       Ok (eq (key x) target)) in
      if found then Ok (left_ - 1) else Ok (-1)
  end.

(** [binary_search_insert_position] *)
Definition binary_search_insert_position (arr : list A) (target : K)
  : result Z :=
  match arr with
  | [] => Ok 0
  | _ :: _ =>
      _bisect (fun k => lt k target) arr 0 (Z.of_nat (length arr))
  end.

(** The [while right < len(arr) and key(arr[right]) == high] loop of
    [binary_search_range]. *)
Equations _extend (arr : list A) (high : K) (right_ : Z)
  : result Z by wf (Z.to_nat (Z.of_nat (length arr) - right_)) Nat.lt :=
_extend arr high right_ with inspect (right_ <? Z.of_nat (length arr)) := {
  | exist _ true _ =>
      match getitem arr right_ with
      | Raise e => Raise e
      | Ok x =>
          if eq (key x) high then _extend arr high (right_ + 1)
          else Ok right_
      end
  | exist _ false _ => Ok right_ }.
Next Obligation. apply Z.ltb_lt in e. unfold Nat.lt. lia. Qed.

(** [binary_search_range] *)
Definition binary_search_range (arr : list A) (low high : K)
  : result (list A) :=
  match arr with
  | [] => Ok []
  | _ :: _ =>
      let* left_ := binary_search_insert_position arr low in
      let* right_ := binary_search_insert_position arr high in
      let* right_ := _extend arr high right_ in
      Ok (slice arr left_ right_)
  end.

End WithSearch.

End Sorting.

(** * data_structures/stack_queue.py: the queues *)

Module Queues.

(** ** Queue *)

Module Queue.
Section WithItem.

Context {T : Type}.

(** [_items] is the Python list (the front is the first element). *)
Record t : Type := mk {
  _items : list T;
  _max_size : option Z
}.

(** [Queue.__init__] *)
Definition init (max_size : option Z) : t := mk [] max_size.

(** [Queue.enqueue]: [self._max_size and len(self._items) >= self._max_size]
    refuses the item; [None] and [0] are false as a bound. *)
Definition enqueue (self : t) (item : T) : t * bool :=
  match _max_size self with
  | Some m =>
      if negb (m =? 0) && (m <=? Z.of_nat (length (_items self)))
      then (self, false)
      else (mk (_items self ++ [item]) (_max_size self), true)
  | None => (mk (_items self ++ [item]) (_max_size self), true)
  end.

(** [Queue.dequeue]: [self._items.pop(0)]; [IndexError] when empty. *)
Definition dequeue (self : t) : result (t * T) :=
  match _items self with
  | [] => Raise IndexError
  | x :: rest => Ok (mk rest (_max_size self), x)
  end.

Definition front (self : t) : result T :=
  match _items self with
  | [] => Raise IndexError
  | x :: _ => Ok x
  end.

Definition rear (self : t) : result T :=
  match last (_items self) with
  | None => Raise IndexError
  | Some x => Ok x
  end.

Definition is_empty (self : t) : bool :=
  Z.of_nat (length (_items self)) =? 0.

Definition is_full (self : t) : bool :=
  match _max_size self with
  | None => false
  | Some m => m <=? Z.of_nat (length (_items self))
  end.

Definition size (self : t) : Z := Z.of_nat (length (_items self)).

Definition clear (self : t) : t := mk [] (_max_size self).

Definition to_list (self : t) : list T := _items self.

End WithItem.
Arguments t : clear implicits.
End Queue.

(** ** CircularQueue *)

Module CircularQueue.

(** What the methods of the circular queue can raise. *)
Inductive raised : Type :=
| IndexError
| ZeroDivisionError.

Inductive outcome (A : Type) : Type :=
| Returns (a : A)
| Raises (e : raised).
Arguments Returns {A} a.
Arguments Raises {A} e.

Section WithItem.

Context {T : Type}.

(** The cells of [_items] hold an item or [None]. *)
Record t : Type := mk {
  _capacity : Z;
  _items : list (option T);
  _front : Z;
  _rear : Z;
  _size : Z
}.

(** [CircularQueue.__init__]: [[None] * capacity] is empty for a capacity
    below one. *)
Definition init (capacity : Z) : t :=
  mk capacity (replicate (Z.to_nat capacity) None) 0 (-1) 0.

Definition is_empty (self : t) : bool := _size self =? 0.

Definition is_full (self : t) : bool := _size self =? _capacity self.

Definition size (self : t) : Z := _size self.

(** The position in a list of [n] cells that the Python index [i] names:
    a negative index counts from the end. *)
Definition position (n : nat) (i : Z) : option nat :=
  if (0 <=? i) && (i <? Z.of_nat n) then Some (Z.to_nat i)
  else if (- Z.of_nat n <=? i) && (i <? 0) then Some (Z.to_nat (Z.of_nat n + i))
  else None.

(** [a % b]: the result has the sign of [b]; [b = 0] raises. *)
Definition py_mod (a b : Z) : outcome Z :=
  if b =? 0 then Raises ZeroDivisionError else Returns (a mod b).

(** [CircularQueue.enqueue] *)
Definition enqueue (self : t) (item : T) : outcome (t * bool) :=
  if is_full self then Returns (self, false)
  else
    match py_mod (_rear self + 1) (_capacity self) with
    | Raises e => Raises e
    | Returns rear' =>
        match position (length (_items self)) rear' with
        | None => Raises IndexError
        | Some i =>
            Returns (mk (_capacity self) (<[i := Some item]> (_items self))
                        (_front self) rear' (_size self + 1),
                     true)
        end
    end.

(** [CircularQueue.dequeue]: the cell that is read is set to [None]. *)
Definition dequeue (self : t) : outcome (t * option T) :=
  if is_empty self then Raises IndexError
  else
    match position (length (_items self)) (_front self) with
    | None => Raises IndexError
    | Some i =>
        let item := default None (_items self !! i) in
        match py_mod (_front self + 1) (_capacity self) with
        | Raises e => Raises e
        | Returns front' =>
            Returns (mk (_capacity self) (<[i := None]> (_items self))
                        front' (_rear self) (_size self - 1),
                     item)
        end
    end.

(** [CircularQueue.front] *)
Definition front (self : t) : outcome (option T) :=
  if is_empty self then Raises IndexError
  else
    match position (length (_items self)) (_front self) with
    | None => Raises IndexError
    | Some i => Returns (default None (_items self !! i))
    end.

End WithItem.
Arguments t : clear implicits.
End CircularQueue.

(** ** TaskQueue *)

Module TaskQueue.
Section WithTask.

(** The [Task] objects are stored and handed back; no method reads their
    fields. *)
Context {Task : Type}.

Record t : Type := mk {
  _queue : Queue.t Task;
  _processing : option Task;
  _completed : list Task
}.

(** [TaskQueue.__init__] *)
Definition init (max_size : option Z) : t := mk (Queue.init max_size) None [].

(** [TaskQueue.add_task] *)
Definition add_task (self : t) (task : Task) : t * bool :=
  let p := Queue.enqueue (_queue self) task in
  (mk (fst p) (_processing self) (_completed self), snd p).

(** [TaskQueue.get_next_task]: the dequeued task replaces whatever
    [_processing] held. *)
Definition get_next_task (self : t) : result (t * option Task) :=
  if Queue.is_empty (_queue self) then Ok (self, None)
  else
    let* p := Queue.dequeue (_queue self) in
    Ok (mk (fst p) (Some (snd p)) (_completed self), Some (snd p)).

(** [TaskQueue.complete_current_task] *)
Definition complete_current_task (self : t) : t * option Task :=
  match _processing self with
  | Some completed =>
      (mk (_queue self) None (_completed self ++ [completed]), Some completed)
  | None => (self, None)
  end.

(** [TaskQueue.cancel_current_task]: the flag of [enqueue] is dropped. *)
Definition cancel_current_task (self : t) : t * option Task :=
  match _processing self with
  | Some task =>
      (mk (fst (Queue.enqueue (_queue self) task)) None (_completed self),
       Some task)
  | None => (self, None)
  end.

Definition pending_count (self : t) : Z := Queue.size (_queue self).

Definition completed_count (self : t) : Z :=
  Z.of_nat (length (_completed self)).

Definition is_processing (self : t) : bool :=
  match _processing self with
  | Some _ => true
  | None => false
  end.

Definition current_task (self : t) : option Task := _processing self.

Definition get_pending_tasks (self : t) : list Task :=
  Queue.to_list (_queue self).

Definition get_completed_tasks (self : t) : list Task := _completed self.

End WithTask.
Arguments t : clear implicits.
End TaskQueue.

End Queues.

(** * Proofs: the interval tree *)

Module IntervalTreeProofs.

Import IntervalTree.

(** ** Invariants of the interval tree *)

Section Invariants.

Context {D : Type}.
Implicit Types (t l r x y n : IntervalNode D) (i iv q : Interval D).

(** I1 together with the stored heights: every [height] field is the height
    of its subtree and sibling heights differ by at most one. *)
Fixpoint avl t : Prop :=
  match t with
  | Nil => True
  | Node _ _ l r h =>
      avl l /\ avl r /\ h = 1 + Z.max (_height l) (_height r)
      /\ -1 <= _height l - _height r <= 1
  end.

(** I2: every [max_end] field is the value [_update_height_and_max]
    computes from the node's interval and its children. *)
Fixpoint max_ok t : Prop :=
  match t with
  | Nil => True
  | Node iv m l r _ => max_ok l /\ max_ok r /\ m = new_max_end iv l r
  end.

(** Search-tree order on [start]; equal starts may sit on either side
    (a left rotation moves an equal start to the left). *)
Fixpoint bst t : Prop :=
  match t with
  | Nil => True
  | Node iv _ l r _ =>
      bst l /\ bst r
      /\ Forall (fun i => start i <= start iv) (_inorder l)
      /\ Forall (fun i => start iv <= start i) (_inorder r)
  end.

Definition wf t : Prop := avl t /\ max_ok t /\ bst t.

(** The node that [_update_height_and_max] leaves behind. *)
Definition mk iv l r : IntervalNode D :=
  Node iv (new_max_end iv l r) l r (1 + Z.max (_height l) (_height r)).

Lemma update_mk iv m l r h :
  _update_height_and_max (Node iv m l r h) = mk iv l r.
Proof. reflexivity. Qed.

Lemma avl_height_nonneg t : avl t -> 0 <= _height t.
Proof.
  induction t as [|iv m l IHl r IHr h]; simpl; [lia|].
  intros (Hl & Hr & -> & _). specialize (IHl Hl). specialize (IHr Hr). lia.
Qed.

Lemma height_zero_nil t : avl t -> _height t <= 0 -> t = Nil.
Proof.
  destruct t as [|iv m l r h]; [reflexivity|]. simpl.
  intros (Hl & Hr & -> & _) Hh.
  pose proof (avl_height_nonneg _ Hl). pose proof (avl_height_nonneg _ Hr). lia.
Qed.

Lemma avl_mk iv l r :
  avl l -> avl r -> -1 <= _height l - _height r <= 1 -> avl (mk iv l r).
Proof. simpl. auto. Qed.

Lemma max_ok_mk iv l r : max_ok l -> max_ok r -> max_ok (mk iv l r).
Proof. simpl. auto. Qed.

Lemma inorder_mk iv l r : _inorder (mk iv l r) = _inorder l ++ iv :: _inorder r.
Proof. reflexivity. Qed.

Lemma height_mk iv l r : _height (mk iv l r) = 1 + Z.max (_height l) (_height r).
Proof. reflexivity. Qed.

(** *** Rotations *)

Lemma rotate_right_eq yiv ym xiv xm xl xr xh yr yh :
  _rotate_right (Node yiv ym (Node xiv xm xl xr xh) yr yh)
  = Ok (mk xiv xl (mk yiv xr yr)).
Proof. reflexivity. Qed.

Lemma rotate_left_eq xiv xm xl yiv ym yl yr yh xh :
  _rotate_left (Node xiv xm xl (Node yiv ym yl yr yh) xh)
  = Ok (mk yiv (mk xiv xl yl) yr).
Proof. reflexivity. Qed.

Lemma rotate_right_inv y (y' : IntervalNode D) :
  _rotate_right y = Ok y' ->
  exists yiv ym xiv xm xl xr xh yr yh,
    y = Node yiv ym (Node xiv xm xl xr xh) yr yh
    /\ y' = mk xiv xl (mk yiv xr yr).
Proof.
  destruct y as [|yiv ym [|xiv xm xl xr xh] yr yh]; simpl; try discriminate.
  intros [= <-]. by repeat eexists.
Qed.

Lemma rotate_left_inv x (x' : IntervalNode D) :
  _rotate_left x = Ok x' ->
  exists xiv xm xl yiv ym yl yr yh xh,
    x = Node xiv xm xl (Node yiv ym yl yr yh) xh
    /\ x' = mk yiv (mk xiv xl yl) yr.
Proof.
  destruct x as [|xiv xm xl [|yiv ym yl yr yh] xh]; simpl; try discriminate.
  intros [= <-]. by repeat eexists.
Qed.

Lemma rotate_right_inorder y (y' : IntervalNode D) :
  _rotate_right y = Ok y' -> _inorder y' = _inorder y.
Proof.
  intros H. apply rotate_right_inv in H
    as (yiv & ym & xiv & xm & xl & xr & xh & yr & yh & -> & ->).
  simpl. by rewrite <- app_assoc.
Qed.

Lemma rotate_left_inorder x (x' : IntervalNode D) :
  _rotate_left x = Ok x' -> _inorder x' = _inorder x.
Proof.
  intros H. apply rotate_left_inv in H
    as (xiv & xm & xl & yiv & ym & yl & yr & yh & xh & -> & ->).
  simpl. by rewrite <- app_assoc.
Qed.

Lemma rotate_right_max_ok y (y' : IntervalNode D) :
  _rotate_right y = Ok y' -> max_ok (left_of y) -> max_ok (right_of y) ->
  max_ok y'.
Proof.
  intros H. apply rotate_right_inv in H
    as (yiv & ym & xiv & xm & xl & xr & xh & yr & yh & -> & ->).
  simpl. intros (? & ? & ?) ?. auto 10.
Qed.

Lemma rotate_left_max_ok x (x' : IntervalNode D) :
  _rotate_left x = Ok x' -> max_ok (left_of x) -> max_ok (right_of x) ->
  max_ok x'.
Proof.
  intros H. apply rotate_left_inv in H
    as (xiv & xm & xl & yiv & ym & yl & yr & yh & xh & -> & ->).
  simpl. intros ? (? & ? & ?). auto 10.
Qed.

Lemma rotate_right_bst y (y' : IntervalNode D) : _rotate_right y = Ok y' -> bst y -> bst y'.
Proof.
  intros H. apply rotate_right_inv in H
    as (yiv & ym & xiv & xm & xl & xr & xh & yr & yh & -> & ->).
  simpl. intros ((Hxl & Hxr & Fxl & Fxr) & Hyr & Fl & Fr).
  apply Forall_app in Fl as (Fl1 & Fl2).
  apply Forall_cons in Fl2 as (Hxy & Fl2).
  repeat split; auto.
  apply Forall_app; split; [done|].
  apply Forall_cons; split; [done|].
  eapply Forall_impl; [exact Fr|]. simpl. intros; lia.
Qed.

Lemma rotate_left_bst x (x' : IntervalNode D) : _rotate_left x = Ok x' -> bst x -> bst x'.
Proof.
  intros H. apply rotate_left_inv in H
    as (xiv & xm & xl & yiv & ym & yl & yr & yh & xh & -> & ->).
  simpl. intros (Hxl & (Hyl & Hyr & Fyl & Fyr) & Fl & Fr).
  apply Forall_app in Fr as (Fr1 & Fr2).
  apply Forall_cons in Fr2 as (Hxy & Fr2).
  repeat split; auto.
  apply Forall_app; split; [|apply Forall_cons; split; [lia|done]].
  eapply Forall_impl; [exact Fl|]. simpl. intros; lia.
Qed.

(** *** Balance is restored by insertion and deletion, which never raise *)

Lemma insert_rebalance_inv n i (n' : IntervalNode D) :
  insert_rebalance n i = Ok n' ->
  n' = n
  \/ _rotate_right n = Ok n'
  \/ _rotate_left n = Ok n'
  \/ (exists l', _rotate_left (left_of n) = Ok l'
                 /\ _rotate_right (set_left n l') = Ok n')
  \/ (exists r', _rotate_right (right_of n) = Ok r'
                 /\ _rotate_left (set_right n r') = Ok n').
Proof.
  unfold insert_rebalance.
  destruct (and_then (1 <? _) _) as [[|]|]; simpl; try discriminate; [auto|].
  destruct (and_then (_ <? -1) _) as [[|]|]; simpl; try discriminate; [auto|].
  destruct (and_then (1 <? _) _) as [[|]|]; simpl; try discriminate.
  { destruct (_rotate_left (left_of n)) as [l'|] eqn:E; simpl; [|discriminate].
    intros H. right; right; right; left. eauto. }
  destruct (and_then (_ <? -1) _) as [[|]|]; simpl; try discriminate.
  { destruct (_rotate_right (right_of n)) as [r'|] eqn:E; simpl; [|discriminate].
    intros H. right; right; right; right. eauto. }
  intros [= <-]. auto.
Qed.

Lemma insert_rebalance_noop n i :
  -1 <= _balance_factor n <= 1 -> insert_rebalance n i = Ok n.
Proof.
  intros H. unfold insert_rebalance.
  replace (1 <? _balance_factor n) with false by (symmetry; apply Z.ltb_ge; lia).
  replace (_balance_factor n <? -1) with false by (symmetry; apply Z.ltb_ge; lia).
  reflexivity.
Qed.

Lemma insert_rebalance_left iv m liv lm ll lr lh r h i :
  1 < lh - _height r ->
  insert_rebalance (Node iv m (Node liv lm ll lr lh) r h) i
  = if start i <? start liv
    then _rotate_right (Node iv m (Node liv lm ll lr lh) r h)
    else let* l' := _rotate_left (Node liv lm ll lr lh) in
         _rotate_right (Node iv m l' r h).
Proof.
  intros H. unfold insert_rebalance. cbn [_balance_factor _height left_of interval_of rbind set_left].
  replace (1 <? lh - _height r) with true by (symmetry; apply Z.ltb_lt; lia).
  replace (lh - _height r <? -1) with false by (symmetry; apply Z.ltb_ge; lia).
  cbn [and_then rbind].
  destruct (Z.ltb_spec (start i) (start liv)) as [H1|H1]; [reflexivity|].
  replace (start liv <=? start i) with true by (symmetry; apply Z.leb_le; lia).
  reflexivity.
Qed.

Lemma insert_rebalance_right iv m l riv rm rl rr rh h i :
  _height l - rh < -1 ->
  insert_rebalance (Node iv m l (Node riv rm rl rr rh) h) i
  = if start riv <=? start i
    then _rotate_left (Node iv m l (Node riv rm rl rr rh) h)
    else let* r' := _rotate_right (Node riv rm rl rr rh) in
         _rotate_left (Node iv m l r' h).
Proof.
  intros H. unfold insert_rebalance. cbn [_balance_factor _height right_of interval_of rbind set_right].
  replace (1 <? _height l - rh) with false by (symmetry; apply Z.ltb_ge; lia).
  replace (_height l - rh <? -1) with true by (symmetry; apply Z.ltb_lt; lia).
  cbn [and_then rbind].
  destruct (Z.leb_spec (start riv) (start i)) as [H1|H1]; [reflexivity|].
  replace (start i <? start riv) with true by (symmetry; apply Z.ltb_lt; lia).
  reflexivity.
Qed.

Definition grew t (t' : IntervalNode D) i : Prop :=
  match t with
  | Nil => True
  | Node iv _ _ _ _ =>
      match t' with
      | Nil => False
      | Node iv' _ l' r' _ =>
          iv' = iv
          /\ if start i <? start iv
             then _height r' < _height l'
             else _height l' < _height r'
      end
  end.

Lemma avl_node_inv iv m l r h :
  avl (Node iv m l r h) ->
  avl l /\ avl r /\ h = 1 + Z.max (_height l) (_height r)
  /\ -1 <= _height l - _height r <= 1 /\ 0 <= _height l /\ 0 <= _height r.
Proof.
  simpl. intros (Hl & Hr & Hh & Hb).
  pose proof (avl_height_nonneg _ Hl). pose proof (avl_height_nonneg _ Hr). auto 10.
Qed.

Lemma insert_avl t i :
  avl t ->
  exists t', _insert t i = Ok t' /\ avl t'
    /\ (_height t' = _height t
        \/ (_height t' = _height t + 1 /\ grew t t' i)).
Proof.
  induction t as [|iv m l IHl r IHr h]; intros Ht.
  { eexists; split; [reflexivity|]. simpl. split; [lia|]. right. done. }
  apply avl_node_inv in Ht as (Hl & Hr & -> & Hb & Hl0 & Hr0).
  cbn [_insert]. destruct (Z.ltb_spec (start i) (start iv)) as [Hlt|Hge].
  - destruct (IHl Hl) as (l' & -> & Hl' & Hh). cbn [rbind]. rewrite update_mk.
    pose proof (avl_height_nonneg _ Hl') as Hl'0.
    destruct (Z_le_gt_dec (_height l' - _height r) 1) as [Hbal|Hbal].
    { rewrite insert_rebalance_noop by (simpl; lia).
      eexists; split; [reflexivity|]. split; [apply avl_mk; auto; lia|].
      rewrite height_mk. cbn [_height].
      destruct Hh as [Hh|[Hh Hg]]; [left; lia|].
      destruct (Z.eq_dec (_height l) (_height r)); [right|left; lia].
      split; [lia|]. simpl. split; [done|].
      replace (start i <? start iv) with true by (symmetry; apply Z.ltb_lt; lia). lia. }
    destruct Hh as [Hh|[Hh Hg]]; [lia|].
    destruct l as [|liv lm ll lr lh]; [simpl in *; lia|].
    destruct l' as [|liv' lm' ll' lr' lh']; [done|].
    destruct Hg as [-> Hg].
    apply avl_node_inv in Hl' as (Hll' & Hlr' & -> & Hb' & Hll0 & Hlr0).
    unfold mk at 1. rewrite insert_rebalance_left by (simpl in *; lia).
    cbn [_height] in *.
    destruct (Z.ltb_spec (start i) (start liv)) as [H1|H1].
    + rewrite rotate_right_eq. eexists; split; [reflexivity|].
      split.
      * apply avl_mk; [done|apply avl_mk; auto; lia|rewrite height_mk; lia].
      * left. rewrite !height_mk. lia.
    + destruct lr' as [|xiv xm xl xr xh]; [simpl in *; lia|].
      apply avl_node_inv in Hlr' as (Hxl & Hxr & -> & Hbx & Hxl0 & Hxr0).
      rewrite rotate_left_eq. cbn [rbind]. unfold mk at 1. rewrite rotate_right_eq.
      cbn [_height] in *.
      eexists; split; [reflexivity|]. split.
      * apply avl_mk; [apply avl_mk; auto; lia|apply avl_mk; auto; lia|rewrite !height_mk; lia].
      * left. rewrite !height_mk. lia.
  - destruct (IHr Hr) as (r' & -> & Hr' & Hh). cbn [rbind]. rewrite update_mk.
    pose proof (avl_height_nonneg _ Hr') as Hr'0.
    destruct (Z_le_gt_dec (_height r' - _height l) 1) as [Hbal|Hbal].
    { rewrite insert_rebalance_noop by (simpl; lia).
      eexists; split; [reflexivity|]. split; [apply avl_mk; auto; lia|].
      rewrite height_mk. cbn [_height].
      destruct Hh as [Hh|[Hh Hg]]; [left; lia|].
      destruct (Z.eq_dec (_height l) (_height r)); [right|left; lia].
      split; [lia|]. simpl. split; [done|].
      replace (start i <? start iv) with false by (symmetry; apply Z.ltb_ge; lia). lia. }
    destruct Hh as [Hh|[Hh Hg]]; [lia|].
    destruct r as [|riv rm rl rr rh]; [simpl in *; lia|].
    destruct r' as [|riv' rm' rl' rr' rh']; [done|].
    destruct Hg as [-> Hg].
    apply avl_node_inv in Hr' as (Hrl' & Hrr' & -> & Hb' & Hrl0 & Hrr0).
    unfold mk at 1. rewrite insert_rebalance_right by (simpl in *; lia).
    cbn [_height] in *.
    destruct (Z.leb_spec (start riv) (start i)) as [H1|H1].
    + replace (start i <? start riv) with false in Hg by (symmetry; apply Z.ltb_ge; lia).
      rewrite rotate_left_eq. eexists; split; [reflexivity|].
      split.
      * apply avl_mk; [apply avl_mk; auto; lia|done|rewrite height_mk; lia].
      * left. rewrite !height_mk. lia.
    + replace (start i <? start riv) with true in Hg by (symmetry; apply Z.ltb_lt; lia).
      destruct rl' as [|xiv xm xl xr xh]; [simpl in *; lia|].
      apply avl_node_inv in Hrl' as (Hxl & Hxr & -> & Hbx & Hxl0 & Hxr0).
      rewrite rotate_right_eq. cbn [rbind]. unfold mk at 1. rewrite rotate_left_eq.
      cbn [_height] in *.
      eexists; split; [reflexivity|]. split.
      * apply avl_mk; [apply avl_mk; auto; lia|apply avl_mk; auto; lia|rewrite !height_mk; lia].
      * left. rewrite !height_mk. lia.
Qed.

Lemma delete_rebalance_inv n (n' : IntervalNode D) :
  delete_rebalance n = Ok n' ->
  n' = n
  \/ _rotate_right n = Ok n'
  \/ _rotate_left n = Ok n'
  \/ (exists l', _rotate_left (left_of n) = Ok l'
                 /\ _rotate_right (set_left n l') = Ok n')
  \/ (exists r', _rotate_right (right_of n) = Ok r'
                 /\ _rotate_left (set_right n r') = Ok n').
Proof.
  unfold delete_rebalance.
  destruct (_ && _); [auto|].
  destruct (_ && _).
  { destruct (_rotate_left (left_of n)) as [l'|] eqn:E; simpl; [|discriminate].
    intros H. right; right; right; left. eauto. }
  destruct (_ && _); [auto|].
  destruct (_ && _).
  { destruct (_rotate_right (right_of n)) as [r'|] eqn:E; simpl; [|discriminate].
    intros H. right; right; right; right. eauto. }
  intros [= <-]. auto.
Qed.

Lemma rotate_right_mk yiv xiv xm xl xr xh (yr : IntervalNode D) :
  _rotate_right (mk yiv (Node xiv xm xl xr xh) yr)
  = Ok (mk xiv xl (mk yiv xr yr)).
Proof. reflexivity. Qed.

Lemma rotate_left_mk xiv xl yiv ym yl (yr : IntervalNode D) yh :
  _rotate_left (mk xiv xl (Node yiv ym yl yr yh))
  = Ok (mk yiv (mk xiv xl yl) yr).
Proof. reflexivity. Qed.

Lemma rotate_right_node_mk yiv ym xiv xl xr (yr : IntervalNode D) yh :
  _rotate_right (Node yiv ym (mk xiv xl xr) yr yh)
  = Ok (mk xiv xl (mk yiv xr yr)).
Proof. reflexivity. Qed.

Lemma rotate_left_node_mk xiv xm xl yiv yl (yr : IntervalNode D) xh :
  _rotate_left (Node xiv xm xl (mk yiv yl yr) xh)
  = Ok (mk yiv (mk xiv xl yl) yr).
Proof. reflexivity. Qed.

Lemma delete_rebalance_avl iv l r :
  avl l -> avl r -> -2 <= _height l - _height r <= 2 ->
  exists t', delete_rebalance (mk iv l r) = Ok t' /\ avl t'
    /\ (_height t' = _height (mk iv l r)
        \/ (_height t' = _height (mk iv l r) - 1
            /\ ~ -1 <= _height l - _height r <= 1)).
Proof.
  intros Hl Hr Hb.
  pose proof (avl_height_nonneg _ Hl) as Hl0.
  pose proof (avl_height_nonneg _ Hr) as Hr0.
  unfold delete_rebalance. cbn [mk _balance_factor left_of right_of set_left set_right].
  destruct (Z.ltb_spec 1 (_height l - _height r)) as [H2|H2]; cbn [andb].
  - destruct l as [|liv lm ll lr lh]; [simpl in *; lia|].
    apply avl_node_inv in Hl as (Hll & Hlr & -> & Hbl & Hll0 & Hlr0).
    cbn [_balance_factor _height] in *.
    destruct (Z.leb_spec 0 (_height ll - _height lr)) as [H3|H3].
    + rewrite rotate_right_mk. eexists; split; [reflexivity|]. split.
      * apply avl_mk; [done|apply avl_mk; auto; lia|rewrite height_mk; lia].
      * rewrite !height_mk. cbn [_height]. lia.
    + replace (_height ll - _height lr <? 0) with true by (symmetry; apply Z.ltb_lt; lia).
      destruct lr as [|xiv xm xl xr xh]; [simpl in *; lia|].
      apply avl_node_inv in Hlr as (Hxl & Hxr & -> & Hbx & Hxl0 & Hxr0).
      rewrite rotate_left_eq. cbn [rbind]. rewrite rotate_right_node_mk.
      cbn [_height] in *.
      eexists; split; [reflexivity|]. split.
      * apply avl_mk; [apply avl_mk; auto; lia|apply avl_mk; auto; lia|rewrite !height_mk; lia].
      * rewrite !height_mk. cbn [_height]. lia.
  - destruct (Z.ltb_spec (_height l - _height r) (-1)) as [H4|H4]; cbn [andb].
    + destruct r as [|riv rm rl rr rh]; [simpl in *; lia|].
      apply avl_node_inv in Hr as (Hrl & Hrr & -> & Hbr & Hrl0 & Hrr0).
      cbn [_balance_factor _height] in *.
      destruct (Z.leb_spec (_height rl - _height rr) 0) as [H3|H3].
      * rewrite rotate_left_mk. eexists; split; [reflexivity|]. split.
        -- apply avl_mk; [apply avl_mk; auto; lia|done|rewrite height_mk; lia].
        -- rewrite !height_mk. cbn [_height]. lia.
      * replace (0 <? _height rl - _height rr) with true by (symmetry; apply Z.ltb_lt; lia).
        destruct rl as [|xiv xm xl xr xh]; [simpl in *; lia|].
        apply avl_node_inv in Hrl as (Hxl & Hxr & -> & Hbx & Hxl0 & Hxr0).
        rewrite rotate_right_eq. cbn [rbind]. rewrite rotate_left_node_mk.
        cbn [_height] in *.
        eexists; split; [reflexivity|]. split.
        -- apply avl_mk; [apply avl_mk; auto; lia|apply avl_mk; auto; lia|rewrite !height_mk; lia].
        -- rewrite !height_mk. cbn [_height]. lia.
    + eexists; split; [reflexivity|]. split; [apply avl_mk; auto; lia|]. left. reflexivity.
Qed.

Lemma find_min_node iv m l r h :
  exists iv' m' r' h', _find_min (Node iv m l r h) = Node iv' m' Nil r' h'.
Proof.
  revert iv m r h. induction l as [|liv lm ll IH lr _ lh]; intros iv m r h.
  - simpl. eauto.
  - destruct (IH liv lm lr lh) as (iv' & m' & r' & h' & E).
    exists iv', m', r', h'. rewrite <- E. reflexivity.
Qed.

Lemma delete_avl t i :
  avl t ->
  exists t', _delete t i = Ok t' /\ avl t'
    /\ (_height t' = _height t \/ _height t' = _height t - 1).
Proof.
  revert i. induction t as [|iv m l IHl r IHr h]; intros i Ht.
  { exists Nil. simpl. auto. }
  pose proof Ht as Ht0.
  apply avl_node_inv in Ht as (Hl & Hr & -> & Hb & Hl0 & Hr0).
  assert (Hleft : forall j, exists t', (let* l' := _delete l j in
             delete_rebalance (_update_height_and_max (Node iv m l' r (1 + Z.max (_height l) (_height r))))) = Ok t'
             /\ avl t' /\ (_height t' = 1 + Z.max (_height l) (_height r)
                           \/ _height t' = 1 + Z.max (_height l) (_height r) - 1)).
  { intros j. destruct (IHl j Hl) as (l' & -> & Hl' & Hh). cbn [rbind]. rewrite update_mk.
    destruct (delete_rebalance_avl iv l' r Hl' Hr) as (t' & -> & Ht' & Hh'); [lia|].
    exists t'. split; [done|]. split; [done|]. rewrite height_mk in Hh'. lia. }
  assert (Hright : forall j iv0, exists t', (let* r' := _delete r j in
             delete_rebalance (_update_height_and_max (Node iv0 m l r' (1 + Z.max (_height l) (_height r))))) = Ok t'
             /\ avl t' /\ (_height t' = 1 + Z.max (_height l) (_height r)
                           \/ _height t' = 1 + Z.max (_height l) (_height r) - 1)).
  { intros j iv0. destruct (IHr j Hr) as (r' & -> & Hr' & Hh). cbn [rbind]. rewrite update_mk.
    destruct (delete_rebalance_avl iv0 l r' Hl Hr') as (t' & -> & Ht' & Hh'); [lia|].
    exists t'. split; [done|]. split; [done|]. rewrite height_mk in Hh'. lia. }
  cbn [_delete _height].
  destruct (Interval_lt i iv); [apply Hleft|].
  destruct (_ || _); [apply Hright|].
  destruct (Interval_eq i iv); [|apply Hright].
  destruct l as [|liv lm ll lr lh].
  { exists r. split; [done|]. split; [done|]. simpl in *. lia. }
  destruct r as [|riv rm rl rr rh].
  { eexists. split; [done|]. split; [done|]. simpl in *. lia. }
  destruct (find_min_node riv rm rl rr rh) as (iv' & m' & r' & h' & ->).
  cbn [interval_of rbind]. apply Hright.
Qed.
(** *** What rebalancing does to the contents and the order *)

(** The five outcomes of the rebalancing tests. *)
Definition rebal n (n' : IntervalNode D) : Prop :=
  n' = n
  \/ _rotate_right n = Ok n'
  \/ _rotate_left n = Ok n'
  \/ (exists l', _rotate_left (left_of n) = Ok l'
                 /\ _rotate_right (set_left n l') = Ok n')
  \/ (exists r', _rotate_right (right_of n) = Ok r'
                 /\ _rotate_left (set_right n r') = Ok n').

Lemma set_left_inorder n l' :
  _inorder l' = _inorder (left_of n) -> _inorder (set_left n l') = _inorder n.
Proof. destruct n; simpl; [done|]. by intros ->. Qed.

Lemma set_right_inorder n r' :
  _inorder r' = _inorder (right_of n) -> _inorder (set_right n r') = _inorder n.
Proof. destruct n; simpl; [done|]. by intros ->. Qed.

Lemma rebal_inorder n n' : rebal n n' -> _inorder n' = _inorder n.
Proof.
  intros [->|[H|[H|[(l' & H1 & H2)|(r' & H1 & H2)]]]].
  - done.
  - by apply rotate_right_inorder.
  - by apply rotate_left_inorder.
  - apply rotate_left_inorder in H1. apply rotate_right_inorder in H2.
    rewrite H2. by apply set_left_inorder.
  - apply rotate_right_inorder in H1. apply rotate_left_inorder in H2.
    rewrite H2. by apply set_right_inorder.
Qed.

Lemma set_left_bst n l' :
  bst n -> bst l' -> _inorder l' = _inorder (left_of n) -> bst (set_left n l').
Proof.
  destruct n; simpl; [done|]. intros (? & ? & ? & ?) ? ->. auto.
Qed.

Lemma set_right_bst n r' :
  bst n -> bst r' -> _inorder r' = _inorder (right_of n) -> bst (set_right n r').
Proof.
  destruct n; simpl; [done|]. intros (? & ? & ? & ?) ? ->. auto.
Qed.

Lemma bst_left_of n : bst n -> bst (left_of n).
Proof. destruct n; simpl; tauto. Qed.

Lemma bst_right_of n : bst n -> bst (right_of n).
Proof. destruct n; simpl; tauto. Qed.

Lemma rebal_bst n n' : rebal n n' -> bst n -> bst n'.
Proof.
  intros [->|[H|[H|[(l' & H1 & H2)|(r' & H1 & H2)]]]] Hn.
  - done.
  - by eapply rotate_right_bst.
  - by eapply rotate_left_bst.
  - eapply rotate_right_bst; [exact H2|].
    apply set_left_bst; [done| |by eapply rotate_left_inorder].
    eapply rotate_left_bst; [exact H1|]. by apply bst_left_of.
  - eapply rotate_left_bst; [exact H2|].
    apply set_right_bst; [done| |by eapply rotate_right_inorder].
    eapply rotate_right_bst; [exact H1|]. by apply bst_right_of.
Qed.

Lemma max_ok_left_of n : max_ok n -> max_ok (left_of n).
Proof. destruct n; simpl; tauto. Qed.

Lemma max_ok_right_of n : max_ok n -> max_ok (right_of n).
Proof. destruct n; simpl; tauto. Qed.

Lemma rebal_max_ok n n' : rebal n n' -> max_ok n -> max_ok n'.
Proof.
  intros [->|[H|[H|[(l' & H1 & H2)|(r' & H1 & H2)]]]] Hn.
  - done.
  - eapply rotate_right_max_ok; eauto using max_ok_left_of, max_ok_right_of.
  - eapply rotate_left_max_ok; eauto using max_ok_left_of, max_ok_right_of.
  - eapply rotate_right_max_ok; [exact H2| |].
    + destruct n; [discriminate|]. simpl in *.
      eapply rotate_left_max_ok; [exact H1| |]; destruct Hn as (Hl & _);
        eauto using max_ok_left_of, max_ok_right_of.
    + destruct n; [discriminate|]. simpl in *. tauto.
  - eapply rotate_left_max_ok; [exact H2| |].
    + destruct n; [discriminate|]. simpl in *. tauto.
    + destruct n; [discriminate|]. simpl in *.
      eapply rotate_right_max_ok; [exact H1| |]; destruct Hn as (_ & Hr & _);
        eauto using max_ok_left_of, max_ok_right_of.
Qed.

(** *** Insertion *)

(** Where the new interval lands in the in-order sequence. *)
Lemma insert_inorder t i (t' : IntervalNode D) :
  _insert t i = Ok t' ->
  exists xs ys, _inorder t = xs ++ ys /\ _inorder t' = xs ++ i :: ys.
Proof.
  revert t'. induction t as [|iv m l IHl r IHr h]; intros t'.
  { simpl. intros [= <-]. by exists [], []. }
  cbn [_insert]. destruct (start i <? start iv).
  - destruct (_insert l i) as [l'|] eqn:E; [|discriminate]. cbn [rbind].
    rewrite update_mk. intros H%insert_rebalance_inv%rebal_inorder.
    destruct (IHl _ eq_refl) as (xs & ys & E1 & E2).
    exists xs, (ys ++ iv :: _inorder r). rewrite H. simpl.
    rewrite E1, E2. by rewrite <- !app_assoc.
  - destruct (_insert r i) as [r'|] eqn:E; [|discriminate]. cbn [rbind].
    rewrite update_mk. intros H%insert_rebalance_inv%rebal_inorder.
    destruct (IHr _ eq_refl) as (xs & ys & E1 & E2).
    exists (_inorder l ++ iv :: xs), ys. rewrite H. simpl.
    rewrite E1, E2. by rewrite <- !app_assoc.
Qed.

Lemma insert_Forall (P : Interval D -> Prop) t i (t' : IntervalNode D) :
  _insert t i = Ok t' -> P i -> Forall P (_inorder t) -> Forall P (_inorder t').
Proof.
  intros (xs & ys & -> & ->)%insert_inorder Hi (H1 & H2)%Forall_app.
  apply Forall_app. auto.
Qed.

Lemma insert_max_ok t i (t' : IntervalNode D) :
  _insert t i = Ok t' -> max_ok t -> max_ok t'.
Proof.
  revert t'. induction t as [|iv m l IHl r IHr h]; intros t'.
  { simpl. intros [= <-] _. simpl. auto. }
  cbn [_insert]. intros H (Hl & Hr & _). revert H. destruct (start i <? start iv).
  - destruct (_insert l i) as [l'|] eqn:E; [|discriminate]. cbn [rbind].
    rewrite update_mk. intros H%insert_rebalance_inv.
    eapply rebal_max_ok; [exact H|]. apply max_ok_mk; auto.
  - destruct (_insert r i) as [r'|] eqn:E; [|discriminate]. cbn [rbind].
    rewrite update_mk. intros H%insert_rebalance_inv.
    eapply rebal_max_ok; [exact H|]. apply max_ok_mk; auto.
Qed.

Lemma insert_bst t i (t' : IntervalNode D) :
  _insert t i = Ok t' -> bst t -> bst t'.
Proof.
  revert t'. induction t as [|iv m l IHl r IHr h]; intros t'.
  { simpl. intros [= <-] _. simpl. auto. }
  cbn [_insert]. intros H (Hl & Hr & Fl & Fr). revert H.
  destruct (Z.ltb_spec (start i) (start iv)) as [Hlt|Hge].
  - destruct (_insert l i) as [l'|] eqn:E; [|discriminate]. cbn [rbind].
    rewrite update_mk. intros H%insert_rebalance_inv.
    eapply rebal_bst; [exact H|]. simpl. repeat split; auto.
    eapply insert_Forall; [exact E| |done]. simpl. lia.
  - destruct (_insert r i) as [r'|] eqn:E; [|discriminate]. cbn [rbind].
    rewrite update_mk. intros H%insert_rebalance_inv.
    eapply rebal_bst; [exact H|]. simpl. repeat split; auto.
    eapply insert_Forall; [exact E| |done]. simpl. lia.
Qed.

(** *** Deletion *)

Lemma find_min_In r s :
  interval_of (_find_min r) = Ok s -> s ∈ _inorder r.
Proof.
  induction r as [|iv m l IHl r' _ h]; [discriminate|].
  destruct l as [|liv lm ll lr lh].
  - simpl. intros [= ->]. constructor.
  - intros H. change (_find_min (Node iv m (Node liv lm ll lr lh) r' h))
      with (_find_min (Node liv lm ll lr lh)) in H.
    apply IHl in H.
    change (s ∈ _inorder (Node liv lm ll lr lh) ++ iv :: _inorder r').
    apply elem_of_app. by left.
Qed.

Lemma find_min_least r s :
  bst r -> interval_of (_find_min r) = Ok s ->
  Forall (fun i => start s <= start i) (_inorder r).
Proof.
  induction r as [|iv m l IHl r' _ h]; [discriminate|].
  destruct l as [|liv lm ll lr lh].
  - simpl. intros (_ & _ & _ & Fr) [= ->]. apply Forall_cons. split; [lia|done].
  - intros (Hl & Hr & Fl & Fr) H.
    change (_find_min (Node iv m (Node liv lm ll lr lh) r' h))
      with (_find_min (Node liv lm ll lr lh)) in H.
    pose proof (find_min_In _ _ H) as Hin.
    specialize (IHl Hl H).
    assert (start s <= start iv) as Hle.
    { rewrite Forall_forall in Fl. by apply Fl. }
    change (_inorder (Node iv m (Node liv lm ll lr lh) r' h))
      with (_inorder (Node liv lm ll lr lh) ++ iv :: _inorder r').
    apply Forall_app. split; [done|]. apply Forall_cons. split; [done|].
    eapply Forall_impl; [exact Fr|]. simpl. intros; lia.
Qed.

(** Deletion never adds an interval. *)
Lemma delete_Forall (P : Interval D -> Prop) t i (t' : IntervalNode D) :
  _delete t i = Ok t' -> Forall P (_inorder t) -> Forall P (_inorder t').
Proof.
  revert i t'. induction t as [|iv m l IHl r IHr h]; intros i t'.
  { simpl. by intros [= <-]. }
  intros H HF. change (Forall P (_inorder l ++ iv :: _inorder r)) in HF.
  apply Forall_app in HF as (Fl & (Fiv & Fr)%Forall_cons).
  assert (Hleft : forall j, (let* l' := _delete l j in
             delete_rebalance (_update_height_and_max (Node iv m l' r h))) = Ok t' ->
             Forall P (_inorder t')).
  { intros j. destruct (_delete l j) as [l'|] eqn:E; [|discriminate]. cbn [rbind].
    rewrite update_mk. intros H'%delete_rebalance_inv%rebal_inorder. rewrite H'.
    simpl. apply Forall_app. split; [by eapply IHl|]. by apply Forall_cons. }
  assert (Hright : forall j iv0, P iv0 -> (let* r' := _delete r j in
             delete_rebalance (_update_height_and_max (Node iv0 m l r' h))) = Ok t' ->
             Forall P (_inorder t')).
  { intros j iv0 H0. destruct (_delete r j) as [r'|] eqn:E; [|discriminate]. cbn [rbind].
    rewrite update_mk. intros H'%delete_rebalance_inv%rebal_inorder. rewrite H'.
    simpl. apply Forall_app. split; [done|]. apply Forall_cons. split; [done|]. by eapply IHr. }
  cbn [_delete] in H.
  destruct (Interval_lt i iv); [by eapply Hleft|].
  destruct (_ || _); [by eapply Hright|].
  destruct (Interval_eq i iv); [|by eapply Hright].
  destruct l as [|liv lm ll lr lh]; [by injection H as <-|].
  destruct r as [|riv rm rl rr rh]; [by injection H as <-|].
  destruct (interval_of (_find_min (Node riv rm rl rr rh))) as [s|] eqn:Es; [|discriminate].
  cbn [rbind] in H. eapply Hright; [|exact H].
  apply find_min_In in Es. rewrite Forall_forall in Fr. by apply Fr.
Qed.

Lemma delete_max_ok t i (t' : IntervalNode D) :
  _delete t i = Ok t' -> max_ok t -> max_ok t'.
Proof.
  revert i t'. induction t as [|iv m l IHl r IHr h]; intros i t'.
  { simpl. by intros [= <-]. }
  intros H (Hl & Hr & _).
  assert (Hleft : forall j, (let* l' := _delete l j in
             delete_rebalance (_update_height_and_max (Node iv m l' r h))) = Ok t' ->
             max_ok t').
  { intros j. destruct (_delete l j) as [l'|] eqn:E; [|discriminate]. cbn [rbind].
    rewrite update_mk. intros H'%delete_rebalance_inv.
    eapply rebal_max_ok; [exact H'|]. apply max_ok_mk; eauto. }
  assert (Hright : forall j iv0, (let* r' := _delete r j in
             delete_rebalance (_update_height_and_max (Node iv0 m l r' h))) = Ok t' ->
             max_ok t').
  { intros j iv0. destruct (_delete r j) as [r'|] eqn:E; [|discriminate]. cbn [rbind].
    rewrite update_mk. intros H'%delete_rebalance_inv.
    eapply rebal_max_ok; [exact H'|]. apply max_ok_mk; eauto. }
  cbn [_delete] in H.
  destruct (Interval_lt i iv); [by eapply Hleft|].
  destruct (_ || _); [by eapply Hright|].
  destruct (Interval_eq i iv); [|by eapply Hright].
  destruct l as [|liv lm ll lr lh]; [by injection H as <-|].
  destruct r as [|riv rm rl rr rh]; [by injection H as <-|].
  destruct (interval_of (_find_min (Node riv rm rl rr rh))) as [s|] eqn:Es; [|discriminate].
  cbn [rbind] in H. by eapply Hright.
Qed.

Lemma delete_bst t i (t' : IntervalNode D) :
  _delete t i = Ok t' -> bst t -> bst t'.
Proof.
  revert i t'. induction t as [|iv m l IHl r IHr h]; intros i t'.
  { simpl. by intros [= <-]. }
  intros H (Hl & Hr & Fl & Fr).
  assert (Hleft : forall j, (let* l' := _delete l j in
             delete_rebalance (_update_height_and_max (Node iv m l' r h))) = Ok t' ->
             bst t').
  { intros j. destruct (_delete l j) as [l'|] eqn:E; [|discriminate]. cbn [rbind].
    rewrite update_mk. intros H'%delete_rebalance_inv.
    eapply rebal_bst; [exact H'|]. simpl. repeat split; eauto.
    by eapply delete_Forall. }
  assert (Hright : forall j iv0,
             Forall (fun i => start i <= start iv0) (_inorder l) ->
             Forall (fun i => start iv0 <= start i) (_inorder r) ->
             (let* r' := _delete r j in
             delete_rebalance (_update_height_and_max (Node iv0 m l r' h))) = Ok t' ->
             bst t').
  { intros j iv0 F1 F2. destruct (_delete r j) as [r'|] eqn:E; [|discriminate]. cbn [rbind].
    rewrite update_mk. intros H'%delete_rebalance_inv.
    eapply rebal_bst; [exact H'|]. simpl. repeat split; eauto.
    by eapply delete_Forall. }
  cbn [_delete] in H.
  destruct (Interval_lt i iv); [by eapply Hleft|].
  destruct (_ || _); [by eapply Hright|].
  destruct (Interval_eq i iv); [|by eapply Hright].
  destruct l as [|liv lm ll lr lh]; [by injection H as <-|].
  destruct r as [|riv rm rl rr rh]; [by injection H as <-|].
  destruct (interval_of (_find_min (Node riv rm rl rr rh))) as [s|] eqn:Es; [|discriminate].
  cbn [rbind] in H. eapply Hright; [| |exact H].
  - pose proof (find_min_In _ _ Es) as Hin.
    assert (start iv <= start s) by (rewrite Forall_forall in Fr; by apply Fr).
    eapply Forall_impl; [exact Fl|]. simpl. intros; lia.
  - by apply find_min_least.
Qed.

(** *** Well-formed trees *)

Lemma wf_nil : wf (@Nil D).
Proof. by repeat split. Qed.

Lemma insert_wf t i :
  wf t -> exists t', _insert t i = Ok t' /\ wf t'.
Proof.
  intros (Ha & Hm & Hb).
  destruct (insert_avl t i Ha) as (t' & E & Ha' & _).
  exists t'. split; [done|]. repeat split;
    eauto using insert_max_ok, insert_bst.
Qed.

Lemma delete_wf t i :
  wf t -> exists t', _delete t i = Ok t' /\ wf t'.
Proof.
  intros (Ha & Hm & Hb).
  destruct (delete_avl t i Ha) as (t' & E & Ha' & _).
  exists t'. split; [done|]. repeat split;
    eauto using delete_max_ok, delete_bst.
Qed.

(** *** Sequences of insertions and deletions *)

Inductive op : Type :=
| Insert (i : Interval D)
| Delete (i : Interval D).

Fixpoint run (ops : list op) (self : IntervalTree D) : result (IntervalTree D) :=
  match ops with
  | [] => Ok self
  | Insert i :: ops' => let* self' := insert self i in run ops' self'
  | Delete i :: ops' => let* p := delete self i in run ops' (fst p)
  end.

Lemma run_wf ops (self : IntervalTree D) :
  wf (root self) -> exists self', run ops self = Ok self' /\ wf (root self').
Proof.
  revert self. induction ops as [|[i|i] ops IH]; intros self Hwf.
  - by exists self.
  - cbn [run]. unfold insert.
    destruct (insert_wf _ i Hwf) as (t' & -> & Hwf'). cbn [rbind].
    by apply IH.
  - cbn [run]. unfold delete.
    destruct (delete_wf _ i Hwf) as (t' & -> & Hwf'). cbn [rbind].
    destruct (_ <? _); cbn [rbind fst]; by apply IH.
Qed.

(** *** Overlap queries *)

(** The overlap test of the specification, and the linear scan it is
    compared with. *)
Definition overlap_spec i q : bool :=
  (start i <? end_ q) && (start q <? end_ i).

Definition brute_force (stored : list (Interval D)) q : list (Interval D) :=
  List.filter (fun i => overlap_spec i q) stored.

Definition root_max_end t : Z :=
  match t with
  | Nil => 0
  | Node _ m _ _ _ => m
  end.

Lemma max_ok_bound t :
  max_ok t -> Forall (fun i => end_ i <= root_max_end t) (_inorder t).
Proof.
  induction t as [|iv m l IHl r IHr h]; [constructor|].
  intros (Hl & Hr & ->). specialize (IHl Hl). specialize (IHr Hr).
  cbn [_inorder root_max_end]. unfold new_max_end.
  apply Forall_app. split; [|apply Forall_cons; split].
  - destruct l as [|liv lm ll lr lh]; [constructor|].
    eapply Forall_impl; [exact IHl|]. cbn [root_max_end]. intros.
    destruct r; lia.
  - destruct l, r; lia.
  - destruct r as [|riv rm rl rr rh]; [constructor|].
    eapply Forall_impl; [exact IHr|]. cbn [root_max_end]. intros.
    destruct l; lia.
Qed.

Lemma filter_none {A} (f : A -> bool) (xs : list A) :
  Forall (fun a => f a = false) xs -> List.filter f xs = [].
Proof.
  induction 1 as [|a xs Ha _ IH]; [done|]. simpl. by rewrite Ha.
Qed.

Lemma search_brute_force t q :
  max_ok t -> bst t -> _search t q = brute_force (_inorder t) q.
Proof.
  unfold brute_force.
  induction t as [|iv m l IHl r IHr h]; [done|].
  intros Hm Hb. pose proof (max_ok_bound _ Hm) as Hbound.
  destruct Hm as (Hml & Hmr & Em). destruct Hb as (Hbl & Hbr & Fl & Fr).
  cbn [_search _inorder root_max_end] in *.
  destruct (Z.leb_spec m (start q)) as [Hle|Hgt].
  { symmetry. apply filter_none. eapply Forall_impl; [exact Hbound|].
    cbn beta. intros a Ha. unfold overlap_spec.
    replace (start q <? end_ a) with false by (symmetry; apply Z.ltb_ge; lia).
    apply andb_false_r. }
  rewrite List.filter_app. cbn [List.filter].
  f_equal.
  { rewrite <- IHl by done. by destruct l. }
  change (overlaps iv q) with (overlap_spec iv q).
  assert (Hr : (if start iv <? end_ q then _search r q else [])
               = List.filter (fun i => overlap_spec i q) (_inorder r)).
  { destruct (Z.ltb_spec (start iv) (end_ q)) as [H1|H1]; [by apply IHr|].
    symmetry. apply filter_none. eapply Forall_impl; [exact Fr|].
    cbn beta. intros a Ha. unfold overlap_spec.
    replace (start a <? end_ q) with false by (symmetry; apply Z.ltb_ge; lia).
    done. }
  rewrite Hr. by destruct (overlap_spec iv q).
Qed.

(** C2. Whatever sequence of insertions and deletions built the tree (none
    of them raises), [find_overlapping] returns exactly the stored intervals
    [i] with [i.start < q.end] and [q.start < i.end], in the order of a
    linear scan of the stored sequence; an interval that only touches the
    query ([i.end = q.start] or [q.end = i.start]) is never returned. *)
Theorem find_overlapping_is_brute_force (ops : list op) :
  exists self,
    run ops empty = Ok self
    /\ forall q,
         find_overlapping self q = brute_force (get_all_intervals self) q
         /\ (forall i, i ∈ find_overlapping self q <->
               i ∈ get_all_intervals self
               /\ start i < end_ q /\ start q < end_ i)
         /\ (forall i, i ∈ find_overlapping self q ->
               end_ i <> start q /\ end_ q <> start i).
Proof.
  destruct (run_wf ops empty wf_nil) as (self & E & (_ & Hm & Hb)).
  exists self. split; [done|]. intros q.
  assert (Heq : find_overlapping self q = brute_force (get_all_intervals self) q)
    by (by apply search_brute_force).
  assert (Hin : forall i, i ∈ find_overlapping self q <->
               i ∈ get_all_intervals self
               /\ start i < end_ q /\ start q < end_ i).
  { intros i. rewrite Heq. unfold brute_force.
    rewrite list_elem_of_In, List.filter_In, <- list_elem_of_In.
    unfold overlap_spec. rewrite andb_true_iff, !Z.ltb_lt. tauto. }
  split; [done|]. split; [done|].
  intros i (_ & H1 & H2)%Hin. lia.
Qed.

End Invariants.

Arguments op : clear implicits.

Section Disjoint.
Context {D : Type}.
Implicit Types (t l r x y n : IntervalNode D) (i iv q a b : Interval D).
Implicit Types (xs ys : list (Interval D)).

(** ** Trees of pairwise disjoint, non-empty intervals *)


Definition starts_increase xs : Prop :=
  StronglySorted (fun a b => start a < start b) xs.



Lemma starts_increase_unique xs a b :
  starts_increase xs -> a ∈ xs -> b ∈ xs -> start a = start b -> a = b.
Proof.
  induction 1 as [|c xs Hs IH Fc]; [by intros ?%elem_of_nil|].
  rewrite Forall_forall in Fc.
  intros [->|Ha]%elem_of_cons [->|Hb]%elem_of_cons E; auto.
  - specialize (Fc _ Hb). lia.
  - specialize (Fc _ Ha). lia.
Qed.

Lemma filter_all {A} (f : A -> bool) (zs : list A) :
  Forall (fun z => f z = true) zs -> List.filter f zs = zs.
Proof.
  induction 1 as [|z zs Hz _ IH]; [done|]. simpl. by rewrite Hz, IH.
Qed.

Lemma sorted_filter {A} (R : A -> A -> Prop) (f : A -> bool) (zs : list A) :
  StronglySorted R zs -> StronglySorted R (List.filter f zs).
Proof.
  induction 1 as [|z zs Hs IH Fz]; [constructor|]. simpl.
  destruct (f z); [|done]. constructor; [done|].
  rewrite Forall_forall in *. intros u Hu. apply Fz.
  apply list_elem_of_In in Hu. apply List.filter_In in Hu as (Hu & _).
  by apply list_elem_of_In.
Qed.




(** ** Insertion, with the place of the new interval *)

Lemma insert_inorder_place t i (t' : IntervalNode D) :
  bst t -> _insert t i = Ok t' ->
  exists xs ys,
    _inorder t = xs ++ ys /\ _inorder t' = xs ++ i :: ys
    /\ Forall (fun a => start a <= start i) xs
    /\ Forall (fun a => start i < start a) ys.
Proof.
  revert t'. induction t as [|iv m l IHl r IHr h]; intros t'.
  { simpl. intros _ [= <-]. exists [], []. repeat split; constructor. }
  intros (Hl & Hr & Fl & Fr). cbn [_insert].
  destruct (Z.ltb_spec (start i) (start iv)) as [Hlt|Hge].
  - destruct (_insert l i) as [l'|] eqn:E; [|discriminate]. cbn [rbind].
    rewrite update_mk. intros H%insert_rebalance_inv%rebal_inorder.
    destruct (IHl _ Hl eq_refl) as (xs & ys & E1 & E2 & F1 & F2).
    exists xs, (ys ++ iv :: _inorder r). rewrite H. simpl.
    rewrite E1, E2, <- !app_assoc. repeat split; auto.
    apply Forall_app. split; [done|]. apply Forall_cons. split; [done|].
    eapply Forall_impl; [exact Fr|]. simpl. intros; lia.
  - destruct (_insert r i) as [r'|] eqn:E; [|discriminate]. cbn [rbind].
    rewrite update_mk. intros H%insert_rebalance_inv%rebal_inorder.
    destruct (IHr _ Hr eq_refl) as (xs & ys & E1 & E2 & F1 & F2).
    exists (_inorder l ++ iv :: xs), ys. rewrite H. simpl.
    rewrite E1, E2, <- !app_assoc. repeat split; auto.
    apply Forall_app. split.
    + eapply Forall_impl; [exact Fl|]. simpl. intros; lia.
    + by apply Forall_cons.
Qed.

(** ** Deletion from a tree whose starts are all different *)

Lemma find_min_head r s :
  interval_of (_find_min r) = Ok s -> exists rest, _inorder r = s :: rest.
Proof.
  induction r as [|iv m l IHl r' _ h]; [discriminate|].
  destruct l as [|liv lm ll lr lh].
  - simpl. intros [= ->]. eauto.
  - intros H. change (_find_min (Node iv m (Node liv lm ll lr lh) r' h))
      with (_find_min (Node liv lm ll lr lh)) in H.
    destruct (IHl H) as (rest & E).
    change (_inorder (Node iv m (Node liv lm ll lr lh) r' h))
      with (_inorder (Node liv lm ll lr lh) ++ iv :: _inorder r').
    rewrite E. simpl. eauto.
Qed.

(** The test that deletion is meant to apply to the stored intervals:
    keep what does not start where [i] starts. *)
Definition other_start i a : bool := negb (start a =? start i).

Lemma delete_inorder_filter t i (t' : IntervalNode D) :
  starts_increase (_inorder t) ->
  (forall a, a ∈ _inorder t -> start a = start i -> end_ a = end_ i) ->
  _delete t i = Ok t' ->
  _inorder t' = List.filter (other_start i) (_inorder t).
Proof.
  revert i t'. induction t as [|iv m l IHl r IHr h]; intros i t'.
  { simpl. by intros _ _ [= <-]. }
  cbn [_inorder]. intros Hs Hend H.
  apply StronglySorted_app in Hs as (Hlr & Hsl & Hsr).
  apply StronglySorted_inv in Hsr as (Hsr & Fr).
  assert (Fl : Forall (fun a => start a < start iv) (_inorder l)).
  { rewrite Forall_forall. intros a Ha. apply Hlr; [done|]. constructor. }
  assert (Hendl : forall j : Interval D, (forall a, a ∈ _inorder l ++ iv :: _inorder r ->
                      start a = start j -> end_ a = end_ j) ->
                  forall a, a ∈ _inorder l -> start a = start j -> end_ a = end_ j).
  { intros j Hj a Ha. apply Hj. apply elem_of_app. by left. }
  assert (Hendr : forall j : Interval D, (forall a, a ∈ _inorder l ++ iv :: _inorder r ->
                      start a = start j -> end_ a = end_ j) ->
                  forall a, a ∈ _inorder r -> start a = start j -> end_ a = end_ j).
  { intros j Hj a Ha. apply Hj. apply elem_of_app. right. by constructor. }
  assert (Hiv : start iv = start i -> end_ iv = end_ i).
  { apply Hend. apply elem_of_app. right. constructor. }
  assert (Hkeep_l : start iv <= start i ->
            List.filter (other_start i) (_inorder l) = _inorder l).
  { intros Hle. apply filter_all. eapply Forall_impl; [exact Fl|].
    simpl. intros a Ha. unfold other_start. apply negb_true_iff, Z.eqb_neq. lia. }
  assert (Hkeep_r : start i <= start iv ->
            List.filter (other_start i) (_inorder r) = _inorder r).
  { intros Hle. apply filter_all. eapply Forall_impl; [exact Fr|].
    simpl. intros a Ha. unfold other_start. apply negb_true_iff, Z.eqb_neq. lia. }
  assert (Hother : start iv <> start i -> other_start i iv = true).
  { intros Hne. unfold other_start. apply negb_true_iff, Z.eqb_neq. lia. }
  assert (Hsame : start iv = start i -> other_start i iv = false).
  { intros He. unfold other_start. apply negb_false_iff, Z.eqb_eq. lia. }
  rewrite List.filter_app. cbn [List.filter].
  cbn [_delete] in H. unfold Interval_lt, Interval_eq in H.
  destruct (Z.lt_trichotomy (start i) (start iv)) as [Hlt|[Heq|Hgt]].
  - (* the interval is on the left *)
    replace (start i =? start iv) with false in H
      by (symmetry; apply Z.eqb_neq; lia).
    replace (start i <? start iv) with true in H
      by (symmetry; apply Z.ltb_lt; lia).
    cbn [negb] in H.
    destruct (_delete l i) as [l'|] eqn:E; [|discriminate]. cbn [rbind] in H.
    rewrite update_mk in H. apply delete_rebalance_inv, rebal_inorder in H.
    rewrite H. simpl. rewrite (IHl i l') by auto.
    rewrite Hkeep_r, Hother by lia. done.
  - (* the interval is at this node *)
    specialize (Hiv (eq_sym Heq)).
    replace (start i =? start iv) with true in H
      by (symmetry; apply Z.eqb_eq; lia).
    replace (end_ i <? end_ iv) with false in H
      by (symmetry; apply Z.ltb_ge; lia).
    replace (start iv <? start i) with false in H
      by (symmetry; apply Z.ltb_ge; lia).
    replace (end_ iv <? end_ i) with false in H
      by (symmetry; apply Z.ltb_ge; lia).
    replace (end_ i =? end_ iv) with true in H
      by (symmetry; apply Z.eqb_eq; lia).
    cbn [negb andb orb] in H.
    rewrite Hkeep_l, Hkeep_r, Hsame by lia.
    destruct l as [|liv lm ll lr lh]; [by injection H as <-|].
    destruct r as [|riv rm rl rr rh].
    { injection H as <-. by rewrite app_nil_r. }
    remember (Node riv rm rl rr rh) as rN eqn:ErN.
    remember (Node liv lm ll lr lh) as lN eqn:ElN.
    assert (H' : (let* successor := interval_of (_find_min rN) in
                  let* r' := _delete rN successor in
                  delete_rebalance
                    (_update_height_and_max (Node successor m lN r' h)))
                 = Ok t') by (rewrite <- H, ErN, ElN; reflexivity).
    clear H ErN ElN.
    destruct (interval_of (_find_min rN)) as [s|] eqn:Es; [|discriminate].
    cbn [rbind] in H'.
    destruct (_delete rN s) as [r'|] eqn:E; [|discriminate].
    cbn [rbind] in H'. rewrite update_mk in H'.
    apply delete_rebalance_inv, rebal_inorder in H'. rewrite H'.
    rewrite inorder_mk.
    destruct (find_min_head _ _ Es) as (rest & Er).
    assert (_inorder r' = rest) as ->; [|by rewrite Er].
    rewrite (IHr s r' Hsr); [| |done].
    + rewrite Er. cbn [List.filter].
      assert (other_start s s = false) as ->.
      { unfold other_start. apply negb_false_iff, Z.eqb_eq. lia. }
      apply filter_all. rewrite Er in Hsr.
      apply StronglySorted_inv in Hsr as (_ & Fs).
      eapply Forall_impl; [exact Fs|]. simpl. intros a Ha.
      unfold other_start. apply negb_true_iff, Z.eqb_neq. lia.
    + intros a Ha Hst.
      assert (a = s) as ->; [|done].
      eapply starts_increase_unique; [exact Hsr|done| |done].
      rewrite Er. constructor.
  - (* the interval is on the right *)
    replace (start i =? start iv) with false in H
      by (symmetry; apply Z.eqb_neq; lia).
    replace (start i <? start iv) with false in H
      by (symmetry; apply Z.ltb_ge; lia).
    replace (start iv <? start i) with true in H
      by (symmetry; apply Z.ltb_lt; lia).
    cbn [negb orb] in H.
    destruct (_delete r i) as [r'|] eqn:E; [|discriminate]. cbn [rbind] in H.
    rewrite update_mk in H. apply delete_rebalance_inv, rebal_inorder in H.
    rewrite H. simpl. rewrite (IHr i r') by auto.
    rewrite Hkeep_l, Hother by lia. done.
Qed.

(** [_count_nodes] counts what the in-order walk lists. *)
Lemma count_nodes_inorder (t : IntervalNode D) :
  _count_nodes t = Z.of_nat (length (_inorder t)).
Proof.
  induction t as [|iv m l IHl r IHr h]; [done|].
  cbn [_count_nodes _inorder]. rewrite length_app. cbn [length]. lia.
Qed.

End Disjoint.

(** *** Ties on [start] *)

(** The tree holding [5,10) only, and the interval [5,7) whose start ties
    with it. *)
Definition tie_tree : result (IntervalTree unit) :=
  insert empty (mkInterval 5 10 None).

Definition tie_interval : Interval unit := mkInterval 5 7 None.

(** C9 (code at the failing input). [insert] compares starts only, so
    [5,7) is placed to the right of [5,10); [delete] compares
    (start, end), looks for [5,7) to the left of [5,10), does not find it
    and returns [False]: after [insert(i); delete(i)] the tree still holds
    [i]. *)
Theorem delete_misses_interval_with_tied_start :
  exists t0 t1 t2,
    tie_tree = Ok t0
    /\ get_all_intervals t0 = [mkInterval 5 10 None]
    /\ insert t0 tie_interval = Ok t1
    /\ get_all_intervals t1 = [mkInterval 5 10 None; tie_interval]
    /\ delete t1 tie_interval = Ok (t2, false)
    /\ get_all_intervals t2 = [mkInterval 5 10 None; tie_interval].
Proof. do 3 eexists. repeat split; reflexivity. Qed.
End IntervalTreeProofs.

(** * Proofs: the AVL tree *)

Module AVLTreeProofs.

Import AVLTree ReservationSystem.

(** ** Invariants of the AVL tree *)

Section Invariants.

Context {K V : Type} (cmp : K -> K -> Z).

(** The comparison is a total order whose zero is equality, as the default
    [(a > b) - (a < b)] is on strings and numbers. *)
Hypothesis cmp_eq : forall a b, cmp a b = 0 <-> a = b.
Hypothesis cmp_antisym : forall a b, cmp a b < 0 <-> 0 < cmp b a.
Hypothesis cmp_trans : forall a b c, cmp a b < 0 -> cmp b c < 0 -> cmp a c < 0.

Implicit Types (t l r x y n : AVLNode K V) (k : K) (v : stored K V).

Fixpoint avl t : Prop :=
  match t with
  | Nil => True
  | Node _ _ l r h =>
      avl l /\ avl r /\ h = 1 + Z.max (_height l) (_height r)
      /\ -1 <= _height l - _height r <= 1
  end.

(** Search-tree order: keys on the left are smaller, keys on the right
    are larger. *)
Fixpoint bst t : Prop :=
  match t with
  | Nil => True
  | Node k _ l r _ =>
      bst l /\ bst r
      /\ Forall (fun p => cmp p.1 k < 0) (_inorder l)
      /\ Forall (fun p => cmp k p.1 < 0) (_inorder r)
  end.

Definition wf t : Prop := avl t /\ bst t.

(** The node that [_update_height] leaves behind. *)
Definition mk k v l r : AVLNode K V :=
  Node k v l r (1 + Z.max (_height l) (_height r)).

Lemma kv_update_mk k v l r h : _update_height (Node k v l r h) = mk k v l r.
Proof. reflexivity. Qed.

Lemma kv_avl_height_nonneg t : avl t -> 0 <= _height t.
Proof.
  induction t as [|k v l IHl r IHr h]; simpl; [lia|].
  intros (Hl & Hr & -> & _). specialize (IHl Hl). specialize (IHr Hr). lia.
Qed.

Lemma kv_avl_node_inv k v l r h :
  avl (Node k v l r h) ->
  avl l /\ avl r /\ h = 1 + Z.max (_height l) (_height r)
  /\ -1 <= _height l - _height r <= 1 /\ 0 <= _height l /\ 0 <= _height r.
Proof.
  simpl. intros (Hl & Hr & Hh & Hb).
  pose proof (kv_avl_height_nonneg _ Hl). pose proof (kv_avl_height_nonneg _ Hr).
  auto 10.
Qed.

Lemma kv_avl_mk k v l r :
  avl l -> avl r -> -1 <= _height l - _height r <= 1 -> avl (mk k v l r).
Proof. simpl. auto. Qed.

Lemma kv_height_mk k v l r :
  _height (mk k v l r) = 1 + Z.max (_height l) (_height r).
Proof. reflexivity. Qed.

(** *** Rotations *)

Lemma kv_rotate_right_eq yk yv xk xv xl xr xh yr yh :
  _rotate_right (Node yk yv (Node xk xv xl xr xh) yr yh)
  = Ok (mk xk xv xl (mk yk yv xr yr)).
Proof. reflexivity. Qed.

Lemma kv_rotate_left_eq xk xv xl yk yv yl yr yh xh :
  _rotate_left (Node xk xv xl (Node yk yv yl yr yh) xh)
  = Ok (mk yk yv (mk xk xv xl yl) yr).
Proof. reflexivity. Qed.

Lemma kv_rotate_right_node_mk yk yv xk xv xl xr (yr : AVLNode K V) yh :
  _rotate_right (Node yk yv (mk xk xv xl xr) yr yh)
  = Ok (mk xk xv xl (mk yk yv xr yr)).
Proof. reflexivity. Qed.

Lemma kv_rotate_left_node_mk xk xv xl yk yv yl (yr : AVLNode K V) xh :
  _rotate_left (Node xk xv xl (mk yk yv yl yr) xh)
  = Ok (mk yk yv (mk xk xv xl yl) yr).
Proof. reflexivity. Qed.

Lemma kv_rotate_right_inv y (y' : AVLNode K V) :
  _rotate_right y = Ok y' ->
  exists yk yv xk xv xl xr xh yr yh,
    y = Node yk yv (Node xk xv xl xr xh) yr yh
    /\ y' = mk xk xv xl (mk yk yv xr yr).
Proof.
  destruct y as [|yk yv [|xk xv xl xr xh] yr yh]; simpl; try discriminate.
  intros [= <-]. by repeat eexists.
Qed.

Lemma kv_rotate_left_inv x (x' : AVLNode K V) :
  _rotate_left x = Ok x' ->
  exists xk xv xl yk yv yl yr yh xh,
    x = Node xk xv xl (Node yk yv yl yr yh) xh
    /\ x' = mk yk yv (mk xk xv xl yl) yr.
Proof.
  destruct x as [|xk xv xl [|yk yv yl yr yh] xh]; simpl; try discriminate.
  intros [= <-]. by repeat eexists.
Qed.

Lemma kv_rotate_right_inorder y (y' : AVLNode K V) :
  _rotate_right y = Ok y' -> _inorder y' = _inorder y.
Proof.
  intros H. apply kv_rotate_right_inv in H
    as (yk & yv & xk & xv & xl & xr & xh & yr & yh & -> & ->).
  simpl. by rewrite <- app_assoc.
Qed.

Lemma kv_rotate_left_inorder x (x' : AVLNode K V) :
  _rotate_left x = Ok x' -> _inorder x' = _inorder x.
Proof.
  intros H. apply kv_rotate_left_inv in H
    as (xk & xv & xl & yk & yv & yl & yr & yh & xh & -> & ->).
  simpl. by rewrite <- app_assoc.
Qed.

Lemma kv_rotate_right_bst y (y' : AVLNode K V) :
  _rotate_right y = Ok y' -> bst y -> bst y'.
Proof.
  intros H. apply kv_rotate_right_inv in H
    as (yk & yv & xk & xv & xl & xr & xh & yr & yh & -> & ->).
  simpl. intros ((Hxl & Hxr & Fxl & Fxr) & Hyr & Fl & Fr).
  apply Forall_app in Fl as (Fl1 & Fl2).
  apply Forall_cons in Fl2 as (Hxy & Fl2). simpl in Hxy.
  repeat split; auto.
  apply Forall_app; split; [done|].
  apply Forall_cons; split; [done|].
  eapply Forall_impl; [exact Fr|]. simpl. intros; eauto.
Qed.

Lemma kv_rotate_left_bst x (x' : AVLNode K V) :
  _rotate_left x = Ok x' -> bst x -> bst x'.
Proof.
  intros H. apply kv_rotate_left_inv in H
    as (xk & xv & xl & yk & yv & yl & yr & yh & xh & -> & ->).
  simpl. intros (Hxl & (Hyl & Hyr & Fyl & Fyr) & Fl & Fr).
  apply Forall_app in Fr as (Fr1 & Fr2).
  apply Forall_cons in Fr2 as (Hxy & Fr2). simpl in Hxy.
  repeat split; auto.
  apply Forall_app; split; [|apply Forall_cons; split; [done|done]].
  eapply Forall_impl; [exact Fl|]. simpl. intros; eauto.
Qed.

(** *** Rebalancing after an insertion *)

(** The five outcomes of the rebalancing tests. *)
Definition rebal n (n' : AVLNode K V) : Prop :=
  n' = n
  \/ _rotate_right n = Ok n'
  \/ _rotate_left n = Ok n'
  \/ (exists l', _rotate_left (left_of n) = Ok l'
                 /\ _rotate_right (set_left n l') = Ok n')
  \/ (exists r', _rotate_right (right_of n) = Ok r'
                 /\ _rotate_left (set_right n r') = Ok n').

Lemma rebalance_inv n key (n' : AVLNode K V) :
  _rebalance cmp n key = Ok n' -> rebal n n'.
Proof.
  unfold _rebalance, rebal.
  destruct (and_then (1 <? _) _) as [[|]|]; simpl; try discriminate; [auto|].
  destruct (and_then (_ <? -1) _) as [[|]|]; simpl; try discriminate; [auto|].
  destruct (and_then (1 <? _) _) as [[|]|]; simpl; try discriminate.
  { destruct (_rotate_left (left_of n)) as [l'|] eqn:E; simpl; [|discriminate].
    intros H. right; right; right; left. eauto. }
  destruct (and_then (_ <? -1) _) as [[|]|]; simpl; try discriminate.
  { destruct (_rotate_right (right_of n)) as [r'|] eqn:E; simpl; [|discriminate].
    intros H. right; right; right; right. eauto. }
  intros [= <-]. auto.
Qed.

Lemma kv_set_left_inorder n l' :
  _inorder l' = _inorder (left_of n) -> _inorder (set_left n l') = _inorder n.
Proof. destruct n; simpl; [done|]. by intros ->. Qed.

Lemma kv_set_right_inorder n r' :
  _inorder r' = _inorder (right_of n) -> _inorder (set_right n r') = _inorder n.
Proof. destruct n; simpl; [done|]. by intros ->. Qed.

Lemma kv_rebal_inorder n n' : rebal n n' -> _inorder n' = _inorder n.
Proof.
  intros [->|[H|[H|[(l' & H1 & H2)|(r' & H1 & H2)]]]].
  - done.
  - by apply kv_rotate_right_inorder.
  - by apply kv_rotate_left_inorder.
  - apply kv_rotate_left_inorder in H1. apply kv_rotate_right_inorder in H2.
    rewrite H2. by apply kv_set_left_inorder.
  - apply kv_rotate_right_inorder in H1. apply kv_rotate_left_inorder in H2.
    rewrite H2. by apply kv_set_right_inorder.
Qed.

Lemma kv_set_left_bst n l' :
  bst n -> bst l' -> _inorder l' = _inorder (left_of n) -> bst (set_left n l').
Proof. destruct n; simpl; [done|]. intros (? & ? & ? & ?) ? ->. auto. Qed.

Lemma kv_set_right_bst n r' :
  bst n -> bst r' -> _inorder r' = _inorder (right_of n) -> bst (set_right n r').
Proof. destruct n; simpl; [done|]. intros (? & ? & ? & ?) ? ->. auto. Qed.

Lemma kv_bst_left_of n : bst n -> bst (left_of n).
Proof. destruct n; simpl; tauto. Qed.

Lemma kv_bst_right_of n : bst n -> bst (right_of n).
Proof. destruct n; simpl; tauto. Qed.

Lemma kv_rebal_bst n n' : rebal n n' -> bst n -> bst n'.
Proof.
  intros [->|[H|[H|[(l' & H1 & H2)|(r' & H1 & H2)]]]] Hn.
  - done.
  - by eapply kv_rotate_right_bst.
  - by eapply kv_rotate_left_bst.
  - eapply kv_rotate_right_bst; [exact H2|].
    apply kv_set_left_bst; [done| |by eapply kv_rotate_left_inorder].
    eapply kv_rotate_left_bst; [exact H1|]. by apply kv_bst_left_of.
  - eapply kv_rotate_left_bst; [exact H2|].
    apply kv_set_right_bst; [done| |by eapply kv_rotate_right_inorder].
    eapply kv_rotate_right_bst; [exact H1|]. by apply kv_bst_right_of.
Qed.

Lemma rebalance_noop n key :
  -1 <= _balance_factor n <= 1 -> _rebalance cmp n key = Ok n.
Proof.
  intros H. unfold _rebalance.
  replace (1 <? _balance_factor n) with false by (symmetry; apply Z.ltb_ge; lia).
  replace (_balance_factor n <? -1) with false by (symmetry; apply Z.ltb_ge; lia).
  reflexivity.
Qed.

Lemma rebalance_left k v lk lv ll lr lh r h key :
  1 < lh - _height r -> cmp key lk <> 0 ->
  _rebalance cmp (Node k v (Node lk lv ll lr lh) r h) key
  = if cmp key lk <? 0
    then _rotate_right (Node k v (Node lk lv ll lr lh) r h)
    else let* l' := _rotate_left (Node lk lv ll lr lh) in
         _rotate_right (Node k v l' r h).
Proof.
  intros H Hne. unfold _rebalance.
  cbn [_balance_factor _height left_of key_of rbind set_left].
  replace (1 <? lh - _height r) with true by (symmetry; apply Z.ltb_lt; lia).
  replace (lh - _height r <? -1) with false by (symmetry; apply Z.ltb_ge; lia).
  cbn [and_then rbind].
  destruct (Z.ltb_spec (cmp key lk) 0) as [H1|H1]; [reflexivity|].
  replace (0 <? cmp key lk) with true by (symmetry; apply Z.ltb_lt; lia).
  reflexivity.
Qed.

Lemma rebalance_right k v l rk rv rl rr rh h key :
  _height l - rh < -1 -> cmp key rk <> 0 ->
  _rebalance cmp (Node k v l (Node rk rv rl rr rh) h) key
  = if 0 <? cmp key rk
    then _rotate_left (Node k v l (Node rk rv rl rr rh) h)
    else let* r' := _rotate_right (Node rk rv rl rr rh) in
         _rotate_left (Node k v l r' h).
Proof.
  intros H Hne. unfold _rebalance.
  cbn [_balance_factor _height right_of key_of rbind set_right].
  replace (1 <? _height l - rh) with false by (symmetry; apply Z.ltb_ge; lia).
  replace (_height l - rh <? -1) with true by (symmetry; apply Z.ltb_lt; lia).
  cbn [and_then rbind].
  destruct (Z.ltb_spec 0 (cmp key rk)) as [H1|H1]; [reflexivity|].
  replace (cmp key rk <? 0) with true by (symmetry; apply Z.ltb_lt; lia).
  reflexivity.
Qed.

(** *** Insertion keeps the balance and never raises *)

(** When an insertion makes a non-empty tree higher, the root is the same
    node, the key went to one side, and that side is the higher one. *)
Definition grew t (t' : AVLNode K V) key : Prop :=
  match t with
  | Nil => True
  | Node k _ _ _ _ =>
      match t' with
      | Nil => False
      | Node k' _ l' r' _ =>
          k' = k /\ cmp key k <> 0
          /\ if cmp key k <? 0
             then _height r' < _height l'
             else _height l' < _height r'
      end
  end.

Lemma kv_insert_avl t key value :
  avl t ->
  exists t', _insert cmp t key value = Ok t' /\ avl t'
    /\ (_height t' = _height t
        \/ (_height t' = _height t + 1 /\ grew t t' key)).
Proof.
  induction t as [|k v l IHl r IHr h]; intros Ht.
  { eexists; split; [reflexivity|]. simpl. split; [lia|]. right. done. }
  pose proof Ht as Ht0.
  apply kv_avl_node_inv in Ht as (Hl & Hr & -> & Hb & Hl0 & Hr0).
  cbn [_insert]. destruct (Z.ltb_spec (cmp key k) 0) as [Hlt|Hge].
  - destruct (IHl Hl) as (l' & -> & Hl' & Hh). cbn [rbind]. rewrite kv_update_mk.
    pose proof (kv_avl_height_nonneg _ Hl') as Hl'0.
    destruct (Z_le_gt_dec (_height l' - _height r) 1) as [Hbal|Hbal].
    { rewrite rebalance_noop by (simpl; lia).
      eexists; split; [reflexivity|]. split; [apply kv_avl_mk; auto; lia|].
      rewrite kv_height_mk. cbn [_height].
      destruct Hh as [Hh|[Hh Hg]]; [left; lia|].
      destruct (Z.eq_dec (_height l) (_height r)); [right|left; lia].
      split; [lia|]. simpl. split; [done|]. split; [lia|].
      replace (cmp key k <? 0) with true by (symmetry; apply Z.ltb_lt; lia). lia. }
    destruct Hh as [Hh|[Hh Hg]]; [lia|].
    destruct l as [|lk lv ll lr lh]; [simpl in *; lia|].
    destruct l' as [|lk' lv' ll' lr' lh']; [done|].
    destruct Hg as (-> & Hne & Hg).
    apply kv_avl_node_inv in Hl' as (Hll' & Hlr' & -> & Hb' & Hll0 & Hlr0).
    unfold mk at 1. rewrite rebalance_left by (simpl in *; done || lia).
    cbn [_height] in *.
    destruct (Z.ltb_spec (cmp key lk) 0) as [H1|H1].
    + rewrite kv_rotate_right_eq. eexists; split; [reflexivity|].
      split.
      * apply kv_avl_mk; [done|apply kv_avl_mk; auto; lia|rewrite kv_height_mk; lia].
      * left. rewrite !kv_height_mk. lia.
    + destruct lr' as [|xk xv xl xr xh]; [simpl in *; lia|].
      apply kv_avl_node_inv in Hlr' as (Hxl & Hxr & -> & Hbx & Hxl0 & Hxr0).
      rewrite kv_rotate_left_eq. cbn [rbind]. rewrite kv_rotate_right_node_mk.
      cbn [_height] in *.
      eexists; split; [reflexivity|]. split.
      * apply kv_avl_mk; [apply kv_avl_mk; auto; lia|apply kv_avl_mk; auto; lia|rewrite !kv_height_mk; lia].
      * left. rewrite !kv_height_mk. lia.
  - destruct (Z.ltb_spec 0 (cmp key k)) as [Hgt|Hle].
    2:{ eexists; split; [reflexivity|]. split; [exact Ht0|]. left. reflexivity. }
    destruct (IHr Hr) as (r' & -> & Hr' & Hh). cbn [rbind]. rewrite kv_update_mk.
    pose proof (kv_avl_height_nonneg _ Hr') as Hr'0.
    destruct (Z_le_gt_dec (_height r' - _height l) 1) as [Hbal|Hbal].
    { rewrite rebalance_noop by (simpl; lia).
      eexists; split; [reflexivity|]. split; [apply kv_avl_mk; auto; lia|].
      rewrite kv_height_mk. cbn [_height].
      destruct Hh as [Hh|[Hh Hg]]; [left; lia|].
      destruct (Z.eq_dec (_height l) (_height r)); [right|left; lia].
      split; [lia|]. simpl. split; [done|]. split; [lia|].
      replace (cmp key k <? 0) with false by (symmetry; apply Z.ltb_ge; lia). lia. }
    destruct Hh as [Hh|[Hh Hg]]; [lia|].
    destruct r as [|rk rv rl rr rh]; [simpl in *; lia|].
    destruct r' as [|rk' rv' rl' rr' rh']; [done|].
    destruct Hg as (-> & Hne & Hg).
    apply kv_avl_node_inv in Hr' as (Hrl' & Hrr' & -> & Hb' & Hrl0 & Hrr0).
    unfold mk at 1. rewrite rebalance_right by (simpl in *; done || lia).
    cbn [_height] in *.
    destruct (Z.ltb_spec 0 (cmp key rk)) as [H1|H1].
    + replace (cmp key rk <? 0) with false in Hg by (symmetry; apply Z.ltb_ge; lia).
      rewrite kv_rotate_left_eq. eexists; split; [reflexivity|].
      split.
      * apply kv_avl_mk; [apply kv_avl_mk; auto; lia|done|rewrite kv_height_mk; lia].
      * left. rewrite !kv_height_mk. lia.
    + replace (cmp key rk <? 0) with true in Hg by (symmetry; apply Z.ltb_lt; lia).
      destruct rl' as [|xk xv xl xr xh]; [simpl in *; lia|].
      apply kv_avl_node_inv in Hrl' as (Hxl & Hxr & -> & Hbx & Hxl0 & Hxr0).
      rewrite kv_rotate_right_eq. cbn [rbind]. rewrite kv_rotate_left_node_mk.
      cbn [_height] in *.
      eexists; split; [reflexivity|]. split.
      * apply kv_avl_mk; [apply kv_avl_mk; auto; lia|apply kv_avl_mk; auto; lia|rewrite !kv_height_mk; lia].
      * left. rewrite !kv_height_mk. lia.
Qed.


(** *** Insertion and search *)

(** The first value bound to [key] in an in-order sequence. *)
Definition assoc (xs : list (K * stored K V)) key : option (stored K V) :=
  snd <$> List.find (fun p => cmp key p.1 =? 0) xs.

Definition found t key : option (stored K V) :=
  match _search_node cmp t key with
  | Nil => None
  | Node _ v _ _ _ => Some v
  end.

Lemma assoc_app xs ys key :
  assoc (xs ++ ys) key
  = match assoc xs key with Some v => Some v | None => assoc ys key end.
Proof.
  unfold assoc. induction xs as [|p xs IH]; [done|].
  simpl. destruct (cmp key p.1 =? 0); [done|]. exact IH.
Qed.

Lemma assoc_none xs key :
  Forall (fun p => cmp key p.1 <> 0) xs -> assoc xs key = None.
Proof.
  unfold assoc. induction 1 as [|p xs Hp _ IH]; [done|].
  simpl. apply Z.eqb_neq in Hp. by rewrite Hp.
Qed.

Lemma assoc_cons_eq k v xs : assoc ((k, v) :: xs) k = Some v.
Proof.
  unfold assoc. simpl. replace (cmp k k =? 0) with true; [done|].
  symmetry. apply Z.eqb_eq. by apply cmp_eq.
Qed.

Lemma assoc_cons_ne k v xs key :
  key <> k -> assoc ((k, v) :: xs) key = assoc xs key.
Proof.
  intros Hne. unfold assoc. simpl. replace (cmp key k =? 0) with false; [done|].
  symmetry. apply Z.eqb_neq. by rewrite cmp_eq.
Qed.

Lemma found_assoc t key : bst t -> found t key = assoc (_inorder t) key.
Proof.
  unfold found. induction t as [|k v l IHl r IHr h]; [done|].
  intros (Hl & Hr & Fl & Fr). cbn [_search_node _inorder].
  rewrite assoc_app.
  destruct (Z.ltb_spec (cmp key k) 0) as [Hlt|Hge].
  - rewrite (IHl Hl). destruct (assoc (_inorder l) key); [done|].
    symmetry. apply assoc_none. apply Forall_cons. split.
    + simpl. lia.
    + eapply Forall_impl; [exact Fr|]. simpl. intros p Hp.
      pose proof (cmp_trans _ _ _ Hlt Hp). lia.
  - assert (assoc (_inorder l) key = None) as ->.
    { apply assoc_none. eapply Forall_impl; [exact Fl|]. simpl. intros p Hp.
      intros E. apply cmp_eq in E. subst key. lia. }
    destruct (Z.ltb_spec 0 (cmp key k)) as [Hgt|Hle].
    + rewrite (IHr Hr). unfold assoc at 2. simpl.
      replace (cmp key k =? 0) with false by (symmetry; apply Z.eqb_neq; lia).
      done.
    + unfold assoc. simpl.
      replace (cmp key k =? 0) with true by (symmetry; apply Z.eqb_eq; lia).
      done.
Qed.




Lemma sorted_app_cons {A} (R : A -> A -> Prop) (xs ys : list A) (p : A) :
  (forall a b, R a p -> R p b -> R a b) ->
  StronglySorted R xs -> StronglySorted R ys ->
  Forall (fun a => R a p) xs -> Forall (R p) ys ->
  StronglySorted R (xs ++ p :: ys).
Proof.
  intros Htr Hxs Hys Fx Fy. induction Hxs as [|a xs Hxs IH Fa]; simpl.
  { by constructor. }
  apply Forall_cons in Fx as (Hap & Fx). constructor; [by apply IH|].
  apply Forall_app. split; [done|]. apply Forall_cons. split; [done|].
  eapply Forall_impl; [exact Fy|]. simpl. eauto.
Qed.

Lemma sorted_before {A} (R : A -> A -> Prop) (xs ys : list A) (p : A) :
  StronglySorted R (xs ++ p :: ys) -> Forall (fun a => R a p) xs.
Proof.
  induction xs as [|a xs IH]; simpl; [constructor|].
  intros H. inversion H as [|? ? Hs Fa]; subst.
  apply Forall_cons. split; [|by apply IH].
  apply Forall_app in Fa as (_ & Fa). by apply Forall_cons in Fa as (? & _).
Qed.

Lemma bst_sorted t :
  bst t -> StronglySorted (fun p q => cmp p.1 q.1 < 0) (_inorder t).
Proof.
  induction t as [|k w l IHl r IHr h]; [constructor|].
  intros (Hl & Hr & Fl & Fr). cbn [_inorder].
  apply sorted_app_cons; auto. simpl. intros a b. apply cmp_trans.
Qed.

Lemma bst_inorder_before t xs k w ys :
  bst t -> _inorder t = xs ++ (k, w) :: ys ->
  Forall (fun p => cmp k p.1 <> 0) xs.
Proof.
  intros Hs%bst_sorted E. rewrite E in Hs. apply sorted_before in Hs.
  eapply Forall_impl; [exact Hs|]. simpl. intros p Hp.
  apply cmp_antisym in Hp. lia.
Qed.


(** *** Deletion keeps the balance and never raises *)

Lemma kv_delete_rebalance_inv n (n' : AVLNode K V) :
  delete_rebalance n = Ok n' -> rebal n n'.
Proof.
  unfold delete_rebalance, rebal.
  destruct (_ && _); [auto|].
  destruct (_ && _).
  { destruct (_rotate_left (left_of n)) as [l'|] eqn:E; simpl; [|discriminate].
    intros H. right; right; right; left. eauto. }
  destruct (_ && _); [auto|].
  destruct (_ && _).
  { destruct (_rotate_right (right_of n)) as [r'|] eqn:E; simpl; [|discriminate].
    intros H. right; right; right; right. eauto. }
  intros [= <-]. auto.
Qed.

Lemma kv_rotate_right_mk yk yv xk xv xl xr xh (yr : AVLNode K V) :
  _rotate_right (mk yk yv (Node xk xv xl xr xh) yr)
  = Ok (mk xk xv xl (mk yk yv xr yr)).
Proof. reflexivity. Qed.

Lemma kv_rotate_left_mk xk xv xl yk yv yl (yr : AVLNode K V) yh :
  _rotate_left (mk xk xv xl (Node yk yv yl yr yh))
  = Ok (mk yk yv (mk xk xv xl yl) yr).
Proof. reflexivity. Qed.

Lemma kv_delete_rebalance_avl k v l r :
  avl l -> avl r -> -2 <= _height l - _height r <= 2 ->
  exists t', delete_rebalance (mk k v l r) = Ok t' /\ avl t'
    /\ (_height t' = _height (mk k v l r)
        \/ (_height t' = _height (mk k v l r) - 1
            /\ ~ -1 <= _height l - _height r <= 1)).
Proof.
  intros Hl Hr Hb.
  pose proof (kv_avl_height_nonneg _ Hl) as Hl0.
  pose proof (kv_avl_height_nonneg _ Hr) as Hr0.
  unfold delete_rebalance. cbn [mk _balance_factor left_of right_of set_left set_right].
  destruct (Z.ltb_spec 1 (_height l - _height r)) as [H2|H2]; cbn [andb].
  - destruct l as [|lk lv ll lr lh]; [simpl in *; lia|].
    apply kv_avl_node_inv in Hl as (Hll & Hlr & -> & Hbl & Hll0 & Hlr0).
    cbn [_balance_factor _height] in *.
    destruct (Z.leb_spec 0 (_height ll - _height lr)) as [H3|H3].
    + rewrite kv_rotate_right_mk. eexists; split; [reflexivity|]. split.
      * apply kv_avl_mk; [done|apply kv_avl_mk; auto; lia|rewrite kv_height_mk; lia].
      * rewrite !kv_height_mk. cbn [_height]. lia.
    + replace (_height ll - _height lr <? 0) with true by (symmetry; apply Z.ltb_lt; lia).
      destruct lr as [|xk xv xl xr xh]; [simpl in *; lia|].
      apply kv_avl_node_inv in Hlr as (Hxl & Hxr & -> & Hbx & Hxl0 & Hxr0).
      rewrite kv_rotate_left_eq. cbn [rbind]. rewrite kv_rotate_right_node_mk.
      cbn [_height] in *.
      eexists; split; [reflexivity|]. split.
      * apply kv_avl_mk; [apply kv_avl_mk; auto; lia|apply kv_avl_mk; auto; lia|rewrite !kv_height_mk; lia].
      * rewrite !kv_height_mk. cbn [_height]. lia.
  - destruct (Z.ltb_spec (_height l - _height r) (-1)) as [H4|H4]; cbn [andb].
    + destruct r as [|rk rv rl rr rh]; [simpl in *; lia|].
      apply kv_avl_node_inv in Hr as (Hrl & Hrr & -> & Hbr & Hrl0 & Hrr0).
      cbn [_balance_factor _height] in *.
      destruct (Z.leb_spec (_height rl - _height rr) 0) as [H3|H3].
      * rewrite kv_rotate_left_mk. eexists; split; [reflexivity|]. split.
        -- apply kv_avl_mk; [apply kv_avl_mk; auto; lia|done|rewrite kv_height_mk; lia].
        -- rewrite !kv_height_mk. cbn [_height]. lia.
      * replace (0 <? _height rl - _height rr) with true by (symmetry; apply Z.ltb_lt; lia).
        destruct rl as [|xk xv xl xr xh]; [simpl in *; lia|].
        apply kv_avl_node_inv in Hrl as (Hxl & Hxr & -> & Hbx & Hxl0 & Hxr0).
        rewrite kv_rotate_right_eq. cbn [rbind]. rewrite kv_rotate_left_node_mk.
        cbn [_height] in *.
        eexists; split; [reflexivity|]. split.
        -- apply kv_avl_mk; [apply kv_avl_mk; auto; lia|apply kv_avl_mk; auto; lia|rewrite !kv_height_mk; lia].
        -- rewrite !kv_height_mk. cbn [_height]. lia.
    + eexists; split; [reflexivity|]. split; [apply kv_avl_mk; auto; lia|]. left. reflexivity.
Qed.

Lemma kv_find_min_node k v l r h :
  exists k' v' r' h', _find_min (Node k v l r h) = Node k' v' Nil r' h'.
Proof.
  revert k v r h. induction l as [|lk lv ll IH lr _ lh]; intros k v r h.
  - simpl. eauto.
  - destruct (IH lk lv lr lh) as (k' & v' & r' & h' & E).
    exists k', v', r', h'. rewrite <- E. reflexivity.
Qed.

Lemma kv_delete_avl t key :
  avl t ->
  exists t', _delete cmp t key = Ok t' /\ avl t'
    /\ (_height t' = _height t \/ _height t' = _height t - 1).
Proof.
  revert key. induction t as [|k v l IHl r IHr h]; intros key Ht.
  { exists Nil. simpl. auto. }
  pose proof Ht as Ht0.
  apply kv_avl_node_inv in Ht as (Hl & Hr & -> & Hb & Hl0 & Hr0).
  assert (Hleft : forall j, exists t', (let* l' := _delete cmp l j in
             delete_rebalance (_update_height (Node k v l' r (1 + Z.max (_height l) (_height r))))) = Ok t'
             /\ avl t' /\ (_height t' = 1 + Z.max (_height l) (_height r)
                           \/ _height t' = 1 + Z.max (_height l) (_height r) - 1)).
  { intros j. destruct (IHl j Hl) as (l' & -> & Hl' & Hh). cbn [rbind]. rewrite kv_update_mk.
    destruct (kv_delete_rebalance_avl k v l' r Hl' Hr) as (t' & -> & Ht' & Hh'); [lia|].
    exists t'. split; [done|]. split; [done|]. rewrite kv_height_mk in Hh'. lia. }
  assert (Hright : forall j k0 v0, exists t', (let* r' := _delete cmp r j in
             delete_rebalance (_update_height (Node k0 v0 l r' (1 + Z.max (_height l) (_height r))))) = Ok t'
             /\ avl t' /\ (_height t' = 1 + Z.max (_height l) (_height r)
                           \/ _height t' = 1 + Z.max (_height l) (_height r) - 1)).
  { intros j k0 v0. destruct (IHr j Hr) as (r' & -> & Hr' & Hh). cbn [rbind]. rewrite kv_update_mk.
    destruct (kv_delete_rebalance_avl k0 v0 l r' Hl Hr') as (t' & -> & Ht' & Hh'); [lia|].
    exists t'. split; [done|]. split; [done|]. rewrite kv_height_mk in Hh'. lia. }
  cbn [_delete _height].
  destruct (cmp key k <? 0); [apply Hleft|].
  destruct (0 <? cmp key k); [apply Hright|].
  destruct l as [|lk lv ll lr lh].
  { exists r. split; [done|]. split; [done|]. simpl in *. lia. }
  destruct r as [|rk rv rl rr rh].
  { eexists. split; [done|]. split; [done|]. simpl in *. lia. }
  destruct (kv_find_min_node rk rv rl rr rh) as (k' & v' & r' & h' & ->).
  apply Hright.
Qed.

(** *** Deletion and search *)

(** The bindings that a deletion of [key] keeps. *)
Definition other_key key (p : K * stored K V) : bool :=
  negb (cmp key p.1 =? 0).

Lemma kv_find_min_head k v l r h k' v' l' r' h' :
  _find_min (Node k v l r h) = Node k' v' l' r' h' ->
  exists rest, _inorder (Node k v l r h) = (k', v') :: rest.
Proof.
  revert k v r h. induction l as [|lk lv ll IH lr _ lh]; intros k v r h.
  - simpl. intros [= -> -> _ _ _]. eauto.
  - intros E. destruct (IH lk lv lr lh) as (rest & Er).
    { rewrite <- E. reflexivity. }
    cbn [_inorder] in *. rewrite Er. simpl. eauto.
Qed.

Lemma other_key_above key xs :
  Forall (fun p => cmp key p.1 < 0) xs -> List.filter (other_key key) xs = xs.
Proof.
  intros H. apply IntervalTreeProofs.filter_all.
  eapply Forall_impl; [exact H|]. unfold other_key. simpl. intros p Hp.
  apply negb_true_iff, Z.eqb_neq. lia.
Qed.

Lemma other_key_below key xs :
  Forall (fun p => cmp p.1 key < 0) xs -> List.filter (other_key key) xs = xs.
Proof.
  intros H. apply IntervalTreeProofs.filter_all.
  eapply Forall_impl; [exact H|]. unfold other_key. simpl. intros p Hp.
  apply negb_true_iff, Z.eqb_neq. apply cmp_antisym in Hp. lia.
Qed.

(** On a search tree, deleting [key] takes the binding of [key] out of the
    in-order sequence and leaves the rest in place. *)
Lemma kv_delete_inorder t key (t' : AVLNode K V) :
  bst t -> _delete cmp t key = Ok t' ->
  _inorder t' = List.filter (other_key key) (_inorder t).
Proof.
  revert key t'. induction t as [|k v l IHl r IHr h]; intros key t'.
  { simpl. by intros _ [= <-]. }
  intros (Hl & Hr & Fl & Fr) H. cbn [_inorder].
  rewrite List.filter_app. cbn [List.filter]. cbn [_delete] in H.
  destruct (Z.ltb_spec (cmp key k) 0) as [Hlt|Hge].
  { destruct (_delete cmp l key) as [l'|] eqn:E; [|discriminate].
    cbn [rbind] in H. rewrite kv_update_mk in H.
    apply kv_delete_rebalance_inv, kv_rebal_inorder in H. rewrite H. simpl.
    rewrite (IHl key l') by auto.
    replace (other_key key (k, v)) with true
      by (symmetry; apply negb_true_iff, Z.eqb_neq; simpl; lia).
    rewrite (other_key_above key (_inorder r)); [done|].
    eapply Forall_impl; [exact Fr|]. simpl. intros p Hp. eauto. }
  destruct (Z.ltb_spec 0 (cmp key k)) as [Hgt|Hle].
  { destruct (_delete cmp r key) as [r'|] eqn:E; [|discriminate].
    cbn [rbind] in H. rewrite kv_update_mk in H.
    apply kv_delete_rebalance_inv, kv_rebal_inorder in H. rewrite H. simpl.
    rewrite (IHr key r') by auto.
    replace (other_key key (k, v)) with true
      by (symmetry; apply negb_true_iff, Z.eqb_neq; simpl; lia).
    rewrite (other_key_below key (_inorder l)); [done|].
    eapply Forall_impl; [exact Fl|]. simpl. intros p Hp.
    apply cmp_antisym in Hgt. eauto. }
  assert (key = k) as -> by (apply cmp_eq; lia).
  replace (other_key k (k, v)) with false
    by (symmetry; apply negb_false_iff, Z.eqb_eq; simpl; lia).
  rewrite (other_key_below k (_inorder l)), (other_key_above k (_inorder r)) by done.
  destruct l as [|lk lv ll lr lh].
  { injection H as <-. done. }
  destruct r as [|rk rv rl rr rh].
  { injection H as <-. by rewrite app_nil_r. }
  remember (Node rk rv rl rr rh) as rN eqn:ErN.
  remember (Node lk lv ll lr lh) as lN eqn:ElN.
  destruct (_find_min rN) as [|sk sv sl sr sh] eqn:Es; [discriminate|].
  destruct (_delete cmp rN sk) as [r'|] eqn:E; [|discriminate].
  cbn [rbind] in H. rewrite kv_update_mk in H.
  apply kv_delete_rebalance_inv, kv_rebal_inorder in H. rewrite H. simpl.
  rewrite (IHr sk r') by auto.
  subst rN. destruct (kv_find_min_head _ _ _ _ _ _ _ _ _ _ Es) as (rest & Er).
  rewrite Er. cbn [List.filter].
  replace (other_key sk (sk, sv)) with false
    by (symmetry; apply negb_false_iff, Z.eqb_eq; simpl; by apply cmp_eq).
  rewrite other_key_above; [done|].
  apply bst_sorted in Hr. rewrite Er in Hr.
  apply StronglySorted_inv in Hr as (_ & Hr). exact Hr.
Qed.

Lemma sorted_bst t :
  StronglySorted (fun p q => cmp p.1 q.1 < 0) (_inorder t) -> bst t.
Proof.
  induction t as [|k w l IHl r IHr h]; [done|].
  cbn [_inorder]. intros Hs. pose proof (sorted_before _ _ _ _ Hs) as Fl.
  apply StronglySorted_app in Hs as (_ & Hsl & Hsr).
  apply StronglySorted_inv in Hsr as (Hsr & Fr).
  simpl. auto.
Qed.

Lemma kv_delete_bst t key (t' : AVLNode K V) :
  bst t -> _delete cmp t key = Ok t' -> bst t'.
Proof.
  intros Hb E. apply sorted_bst. rewrite (kv_delete_inorder _ _ _ Hb E).
  apply IntervalTreeProofs.sorted_filter. by apply bst_sorted.
Qed.

Lemma assoc_other_key_eq xs key :
  assoc (List.filter (other_key key) xs) key = None.
Proof.
  apply assoc_none. apply Forall_forall. intros p Hp.
  apply list_elem_of_In, List.filter_In in Hp as (_ & Hp).
  unfold other_key in Hp. by apply negb_true_iff, Z.eqb_neq in Hp.
Qed.

Lemma assoc_other_key_ne xs key k' :
  k' <> key -> assoc (List.filter (other_key key) xs) k' = assoc xs k'.
Proof.
  intros Hne. induction xs as [|[k v] xs IH]; [done|]. cbn [List.filter].
  unfold other_key at 1. simpl.
  destruct (Z.eqb_spec (cmp key k) 0) as [E|E]; simpl.
  - apply cmp_eq in E. subst k. by rewrite assoc_cons_ne.
  - unfold assoc in *. simpl. destruct (cmp k' k =? 0); [done|]. exact IH.
Qed.

(** [delete] on a well-formed tree: it returns, the tree stays well formed,
    the key is bound to nothing, other keys are untouched. *)
Lemma delete_spec (self : AVLTree K V) key :
  wf (root self) ->
  exists self' flag,
    delete cmp self key = Ok (self', flag)
    /\ wf (root self')
    /\ search cmp self' key = SNone
    /\ forall k', k' <> key -> search cmp self' k' = search cmp self k'.
Proof.
  intros (Ha & Hb). unfold delete.
  destruct (contains cmp self key) eqn:Ec; cbn [negb].
  2:{ exists self, false. split; [done|]. split; [done|]. split; [|done].
      unfold contains in Ec. unfold search.
      by destruct (_search_node cmp (root self) key). }
  destruct (kv_delete_avl (root self) key Ha) as (t' & E & Ha' & _).
  pose proof (kv_delete_bst _ _ _ Hb E) as Hb'.
  rewrite E. cbn [rbind]. do 2 eexists. split; [reflexivity|].
  split; [done|].
  assert (Hs : forall t z k, search cmp (mkAVLTree t z) k
                             = default SNone (found t k)).
  { intros t z k. unfold search, found. cbn [root]. by destruct (_search_node _ _ _). }
  assert (Hs0 : forall k, search cmp self k = default SNone (found (root self) k)).
  { intros k. unfold search, found. by destruct (_search_node _ _ _). }
  split.
  - by rewrite Hs, (found_assoc _ _ Hb'), (kv_delete_inorder _ _ _ Hb E),
      assoc_other_key_eq.
  - intros k' Hne.
    by rewrite Hs, Hs0, (found_assoc _ _ Hb'), (found_assoc _ _ Hb),
      (kv_delete_inorder _ _ _ Hb E), assoc_other_key_ne.
Qed.

End Invariants.

(** ** The default comparison on strings *)


(** ** The size counter *)

(** [insert] always adds one to [size] and returns [True]. *)
Lemma insert_size {K V} (cmp : K -> K -> Z) (self : AVLTree K V) key value :
  match insert cmp self key value with
  | Ok (self', flag) => size self' = size self + 1 /\ flag = true
  | Raise _ => True
  end.
Proof.
  unfold insert. destruct (_insert _ _ _ _); simpl; [|done].
  split; [done|]. apply Z.ltb_lt. lia.
Qed.

(** The tree holding the key ["R1"] with the value [1]. *)
Definition one_key : result (AVLTree string nat * bool) :=
  insert str_compare empty "R1" (Some 1%nat).

(** C7 (code at the failing input). Inserting a key that is present
    overwrites the value, and still counts the key again: [size] goes
    from 1 to 2 while the tree holds one node. *)
Theorem insert_present_key_changes_size :
  exists t1 t2,
    one_key = Ok (t1, true)
    /\ contains str_compare t1 "R1" = true
    /\ size t1 = 1
    /\ insert str_compare t1 "R1" (Some 2%nat) = Ok (t2, true)
    /\ search str_compare t2 "R1" = SVal 2%nat
    /\ inorder_traversal t2 = [("R1", SVal 2%nat)]
    /\ size t2 = 2.
Proof. do 2 eexists. repeat split; reflexivity. Qed.
End AVLTreeProofs.

(** * Proofs: the undo/redo manager *)

Module StackQueueProofs.

Import StackQueue.

Section Record.
Context {S : Type}.
Implicit Types (m : UndoRedoManager S) (a : Action S).


End Record.




End StackQueueProofs.

(** * Proofs: the reservation system *)

Module ReservationSystemProofs.

Import StackQueue ReservationSystem.

(** ** Observations *)

(** The state a method call leaves behind, and its outcome. *)
Definition exec {A} (m : M A) (s : t) : t := snd (m s).
Definition outcome {A} (m : M A) (s : t) : result A := fst (m s).

(** What the public lookup [get_reservation] shows of a booking: the
    fields of the object it returns. *)
Definition lookup_reservation (s : t) (reservation_id : string)
  : option Reservation.t :=
  match AVLTree.search str_compare (_reservation_tree s) reservation_id with
  | AVLTree.SVal x => Some (reservation_at s x)
  | _ => None
  end.


(** The intervals stored for a room, as (start, end, booking id). *)
Definition stored_intervals (s : t) (room_id : string)
  : list (Z * Z * option string) :=
  match _room_intervals s !! room_id with
  | Some tree =>
      map (fun i => (IntervalTree.start i, IntervalTree.end_ i,
                     (fun x => Reservation.id (reservation_at s x))
                       <$> IntervalTree.data i))
          (IntervalTree.get_all_intervals tree)
  | None => []
  end.

(** ** Scenarios *)

Definition R1 : Room.t := Room.mk "R1" "Salon A" 10 MEETING 1 [] 100 true.

(** A booking of room R1 from minute [s] to minute [e]. *)
Definition booking (i : string) (s e : Z) (st : ReservationStatus)
  : Reservation.t :=
  Reservation.mk i "R1" "Ahmet" "ahmet@email.com" (s * 60) (e * 60) st 2
                 "Toplanti" "" 5 0 0.

Definition with_room : t := exec (add_room R1) init.

(** *** Undo after a cancel *)

Definition B1_confirmed : Reservation.t := booking "B1" 540 630 CONFIRMED.
Definition before_cancel : t := exec (create_reservation B1_confirmed) with_room.
Definition after_cancel : t := exec (cancel_reservation 7 "B1") before_cancel.
Definition after_cancel_undo : t := exec undo after_cancel.

(** C3 (code at the failing input). Room R1, booking B1 confirmed for
    [09:00,10:30), then [cancel_reservation] and [undo]. The undo succeeds
    and puts the interval back, but [_restore_reservation] replaces the
    object only in the [_reservations] dictionary: [get_reservation] reads
    the AVL tree, whose object is still the cancelled one, so the lookup
    does not show the booking as it was before the cancel. *)
Theorem undo_of_cancel_not_seen_by_lookup :
  lookup_reservation before_cancel "B1" = Some B1_confirmed
  /\ outcome (cancel_reservation 7 "B1") before_cancel
     = Ok (true, "Rezervasyon iptal edildi")
  /\ outcome undo after_cancel
     = Ok (Some "Geri alındı: Rezervasyon iptal edildi: Toplanti")
  /\ stored_intervals after_cancel_undo "R1" = [(540, 630, Some "B1")]
  /\ (reservation_at after_cancel_undo
        <$> _reservations after_cancel_undo !! "B1") = Some B1_confirmed
  /\ lookup_reservation after_cancel_undo "B1"
     = Some (set_updated_at 7 (set_status CANCELLED B1_confirmed))
  /\ lookup_reservation after_cancel_undo "B1"
     <> lookup_reservation before_cancel "B1".
Proof. repeat split; try (vm_compute; reflexivity). vm_compute. discriminate. Qed.

(** *** Undo after a batch *)



(** *** A conflicting update of a cancelled booking *)

Definition two_bookings : t :=
  exec (create_reservation (booking "B2" 660 720 PENDING))
    (exec (create_reservation (booking "B1" 540 630 PENDING)) with_room).
Definition B1_cancelled : t := exec (cancel_reservation 5 "B1") two_bookings.

(** Move the booking to [11:00,12:00), the slot of B2. *)
Definition move_onto_B2 : ReservationPatch.t :=
  ReservationPatch.mk None None None None (Some (660 * 60)) (Some (720 * 60))
    None None None None None None None.

(** C6 (code at the failing input). B1 is cancelled, so its interval is no
    longer in the index of R1. Updating B1 onto the slot of B2 finds the
    conflict and restores the fields of B1, but the error path inserts the
    old interval of B1 without regard to whether the delete before it
    removed anything: the index of R1 holds one more interval than before
    the call. *)
Theorem conflicting_update_of_cancelled_booking_adds_interval :
  stored_intervals B1_cancelled "R1" = [(660, 720, Some "B2")]
  /\ outcome (update_reservation 9 "B1" move_onto_B2) B1_cancelled
     = Ok (false, "Çakışma var, güncelleme iptal edildi")
  /\ lookup_reservation (exec (update_reservation 9 "B1" move_onto_B2)
                           B1_cancelled) "B1"
     = lookup_reservation B1_cancelled "B1"
  /\ stored_intervals (exec (update_reservation 9 "B1" move_onto_B2)
                         B1_cancelled) "R1"
     = [(540, 630, Some "B1"); (660, 720, Some "B2")].
Proof. repeat split; vm_compute; reflexivity. Qed.

(** *** Bookings whose interval is reversed or empty *)








(** *** Bookings marked as no-show *)

Import IntervalTree IntervalTreeProofs.








(** ** No double booking *)

(** The minute interval of a booking, as the interval index stores it. *)
Definition start_minute (r : Reservation.t) : Z :=
  _datetime_to_minutes (Reservation.start_time r).
Definition end_minute (r : Reservation.t) : Z :=
  _datetime_to_minutes (Reservation.end_time r).







(** Unfolding of the state-and-exception plumbing. *)
Ltac mstep :=
  cbv beta iota delta
    [bind get ret lift raise fst snd
     set_room_objs set_reservation_objs set_rooms set_room_tree
     set_reservations set_reservation_tree set_room_intervals
     set_undo_manager new_room new_reservation read_room read_reservation
     write_room write_reservation get_room get_reservation
     room_tree_insert room_tree_delete reservation_tree_insert
     reservation_tree_delete with_undo_manager
     intervals_of intervals_insert intervals_delete interval_for
     room_objs reservation_objs _rooms _room_tree _reservations
     _reservation_tree _room_intervals _undo_manager].

(** *** [add_room] *)





(** *** [create_reservation] *)




Definition new_interval (s : t) (r : Reservation.t) : Interval ref :=
  mkInterval (start_minute r) (end_minute r)
             (Some (length (reservation_objs s))).








(** *** [cancel_reservation] *)













(** *** [update_room] and [delete_room] *)






(** *** [delete_reservation] *)








(** *** [update_reservation] *)

















(** *** Sequences of calls *)

Inductive call : Type :=
| AddRoom (room : Room.t)
| UpdateRoom (room_id : string) (kwargs : RoomPatch.t)
| DeleteRoom (room_id : string)
| CreateReservation (reservation : Reservation.t)
| UpdateReservation (now : datetime) (reservation_id : string)
    (kwargs : ReservationPatch.t)
| CancelReservation (now : datetime) (reservation_id : string)
| DeleteReservation (reservation_id : string).

(** The state after a call, and whether the call returned a value. *)
Definition step (c : call) (s : t) : t :=
  match c with
  | AddRoom room => exec (add_room room) s
  | UpdateRoom i kwargs => exec (update_room i kwargs) s
  | DeleteRoom i => exec (delete_room i) s
  | CreateReservation r => exec (create_reservation r) s
  | UpdateReservation now i kwargs => exec (update_reservation now i kwargs) s
  | CancelReservation now i => exec (cancel_reservation now i) s
  | DeleteReservation i => exec (delete_reservation i) s
  end.



Fixpoint run (calls : list call) (s : t) : t :=
  match calls with
  | [] => s
  | c :: calls' => run calls' (step c s)
  end.



(** Two different bookings of one room that are both not cancelled do not
    overlap, in whole minutes. *)
Definition no_double_booking (s : t) : Prop :=
  forall id1 id2 b1 b2,
    id1 <> id2 ->
    lookup_reservation s id1 = Some b1 ->
    lookup_reservation s id2 = Some b2 ->
    Reservation.room_id b1 = Reservation.room_id b2 ->
    Reservation.status b1 <> CANCELLED ->
    Reservation.status b2 <> CANCELLED ->
    ~ (start_minute b1 < end_minute b2 /\ start_minute b2 < end_minute b1).








(** *** Completed bookings *)




(** *** Cancelled bookings that are updated or deleted *)

Definition confirm_again : ReservationPatch.t :=
  ReservationPatch.mk None None None None None None (Some CONFIRMED)
    None None None None None None.

(** Room R1; B1 for [09:00,10:30), cancelled; B2 for the same slot. *)
Definition B2_in_slot_of_B1 : t :=
  exec (create_reservation (booking "B2" 540 630 PENDING)) after_cancel.

(** Why [updatable] asks for a booking that is not cancelled. A patch of
    the status alone is not checked for conflicts, and the deletion of the
    old interval takes the interval of B2 out, which has the same start
    and end: B1 is confirmed again on top of B2. *)
Example update_of_cancelled_booking_skips_conflict_check :
  outcome (update_reservation 9 "B1" confirm_again) B2_in_slot_of_B1
  = Ok (true, "Rezervasyon başarıyla güncellendi")
  /\ stored_intervals
       (exec (update_reservation 9 "B1" confirm_again) B2_in_slot_of_B1) "R1"
     = [(540, 630, Some "B1")]
  /\ ~ no_double_booking
        (exec (update_reservation 9 "B1" confirm_again) B2_in_slot_of_B1).
Proof.
  split; [vm_compute; reflexivity|]. split; [vm_compute; reflexivity|].
  intros H.
  apply (H "B1" "B2"
           (set_updated_at 9 (set_status CONFIRMED
              (set_updated_at 7 (set_status CANCELLED B1_confirmed))))
           (booking "B2" 540 630 PENDING));
    try (vm_compute; reflexivity); try discriminate.
  vm_compute. split; reflexivity.
Qed.

(** Why [deletable] asks for a booking that is not cancelled. Deleting the
    cancelled B1 takes the interval of B2 out of the index, so B5 is
    accepted in the slot of B2. *)
Example delete_of_cancelled_booking_frees_slot_in_use :
  outcome (delete_reservation "B1") B2_in_slot_of_B1 = Ok true
  /\ stored_intervals (exec (delete_reservation "B1") B2_in_slot_of_B1) "R1"
     = []
  /\ outcome (create_reservation (booking "B5" 540 630 PENDING))
       (exec (delete_reservation "B1") B2_in_slot_of_B1)
     = Ok (true, "Rezervasyon başarıyla oluşturuldu (ID: B5)")
  /\ ~ no_double_booking
        (exec (create_reservation (booking "B5" 540 630 PENDING))
           (exec (delete_reservation "B1") B2_in_slot_of_B1)).
Proof.
  split; [vm_compute; reflexivity|]. split; [vm_compute; reflexivity|].
  split; [vm_compute; reflexivity|].
  intros H.
  apply (H "B2" "B5" (booking "B2" 540 630 PENDING)
           (booking "B5" 540 630 PENDING));
    try (vm_compute; reflexivity); try discriminate.
  vm_compute. split; reflexivity.
Qed.

End ReservationSystemProofs.
(** * More of the interval tree *)

Module IntervalTreeMore.

Import IntervalTree IntervalTreeProofs.

Section WithData.

Context {D : Type}.
Implicit Types (t l r : IntervalNode D) (i q a b : Interval D).

(** ** Sequences of insertions and deletions *)

Lemma bst_starts_sorted t :
  bst t -> StronglySorted (fun a b => start a <= start b) (_inorder t).
Proof.
  induction t as [|iv m l IHl r IHr h]; [constructor|].
  intros (Hl & Hr & Fl & Fr). cbn [_inorder].
  apply AVLTreeProofs.sorted_app_cons; auto. cbn beta. intros; lia.
Qed.

(** X1. Whatever insertions and deletions are made on an empty tree, none
    of them raises (no rotation meets a missing child), and in the tree
    they build every stored height is the height of its subtree, sibling
    heights differ by at most one, every [max_end] is the largest end
    below it, and the stored intervals are in the order of their starts. *)
Theorem sequences_keep_tree_balanced_and_ordered (ops : list (op D)) :
  exists self : IntervalTree D,
    run ops empty = Ok self
    /\ avl (root self)
    /\ max_ok (root self)
    /\ Forall (fun a => end_ a <= root_max_end (root self))
              (get_all_intervals self)
    /\ StronglySorted (fun a b => start a <= start b) (get_all_intervals self).
Proof.
  destruct (run_wf ops empty wf_nil) as (self & E & Ha & Hm & Hb).
  exists self. split; [done|]. split; [done|]. split; [done|].
  split; [by apply max_ok_bound|by apply bst_starts_sorted].
Qed.

(** A deletion never makes the stored sequence longer. *)
Lemma delete_length t i (t' : IntervalNode D) :
  _delete t i = Ok t' -> (length (_inorder t') <= length (_inorder t))%nat.
Proof.
  revert i t'. induction t as [|iv m l IHl r IHr h]; intros i t'.
  { simpl. by intros [= <-]. }
  assert (Hleft : forall j, (let* l' := _delete l j in
             delete_rebalance (_update_height_and_max (Node iv m l' r h))) = Ok t' ->
             (length (_inorder t') <= length (_inorder (Node iv m l r h)))%nat).
  { intros j. destruct (_delete l j) as [l'|] eqn:E; [|discriminate]. cbn [rbind].
    rewrite update_mk. intros H'%delete_rebalance_inv%rebal_inorder. rewrite H'.
    specialize (IHl _ _ E). simpl. rewrite !length_app. simpl. lia. }
  assert (Hright : forall j iv0, (let* r' := _delete r j in
             delete_rebalance (_update_height_and_max (Node iv0 m l r' h))) = Ok t' ->
             (length (_inorder t') <= length (_inorder (Node iv m l r h)))%nat).
  { intros j iv0. destruct (_delete r j) as [r'|] eqn:E; [|discriminate]. cbn [rbind].
    rewrite update_mk. intros H'%delete_rebalance_inv%rebal_inorder. rewrite H'.
    specialize (IHr _ _ E). simpl. rewrite !length_app. simpl. lia. }
  cbn [_delete].
  destruct (Interval_lt i iv); [apply Hleft|].
  destruct (_ || _); [apply Hright|].
  destruct (Interval_eq i iv); [|apply Hright].
  destruct l as [|liv lm ll lr lh].
  { intros [= <-]. simpl. lia. }
  destruct r as [|riv rm rl rr rh].
  { intros [= <-]. simpl. rewrite !length_app. simpl. lia. }
  destruct (find_min_node riv rm rl rr rh) as (iv' & m' & r' & h' & ->).
  cbn [interval_of rbind]. apply Hright.
Qed.

Lemma run_len (ops : list (op D)) (self : IntervalTree D) :
  wf (root self) -> size self = _count_nodes (root self) ->
  exists self', run ops self = Ok self' /\ wf (root self')
                /\ size self' = _count_nodes (root self').
Proof.
  revert self. induction ops as [|[i|i] ops IH]; intros self Hwf Hsz.
  - by exists self.
  - cbn [run]. unfold insert.
    destruct (insert_wf _ i Hwf) as (t' & E & Hwf'). rewrite E. cbn [rbind].
    apply IH; [done|]. cbn [size root].
    destruct Hwf as (_ & _ & Hb).
    destruct (insert_inorder_place _ _ _ Hb E) as (xs & ys & E1 & E2 & _).
    rewrite Hsz, !count_nodes_inorder, E1, E2, !length_app. cbn [length]. lia.
  - cbn [run]. unfold delete.
    destruct (delete_wf _ i Hwf) as (t' & E & Hwf'). rewrite E. cbn [rbind].
    pose proof (delete_length _ _ _ E) as Hle.
    destruct (Z.ltb_spec (_count_nodes t') (size self)) as [Hlt|Hge];
      cbn [rbind fst]; apply IH; cbn [size root]; try done.
    rewrite Hsz, !count_nodes_inorder in *. lia.
Qed.

(** X2. After any insertions and deletions on an empty tree, [len] is the
    number of stored intervals. *)
Theorem len_counts_stored_intervals (ops : list (op D)) :
  exists self : IntervalTree D,
    run ops empty = Ok self
    /\ len self = Z.of_nat (length (get_all_intervals self)).
Proof.
  destruct (run_len ops empty wf_nil eq_refl) as (self & E & _ & Hsz).
  exists self. split; [done|]. unfold len, get_all_intervals.
  by rewrite Hsz, count_nodes_inorder.
Qed.

(** X3. On a tree built by insertions and deletions, [insert] returns, adds
    one to [len] and puts the interval into the stored sequence after the
    intervals whose start is not larger and before the ones whose start is
    larger; nothing else moves. *)
Theorem insert_places_interval_by_start (ops : list (op D)) i :
  exists self self' : IntervalTree D,
    run ops empty = Ok self
    /\ insert self i = Ok self'
    /\ len self' = len self + 1
    /\ exists xs ys,
         get_all_intervals self = xs ++ ys
         /\ get_all_intervals self' = xs ++ i :: ys
         /\ Forall (fun a => start a <= start i) xs
         /\ Forall (fun a => start i < start a) ys.
Proof.
  destruct (run_wf ops empty wf_nil) as (self & E & Hwf).
  destruct (insert_wf _ i Hwf) as (t' & Ei & _).
  exists self, (mkIntervalTree t' (size self + 1)).
  split; [done|]. split; [unfold insert; by rewrite Ei|]. split; [done|].
  destruct Hwf as (_ & _ & Hb).
  destruct (insert_inorder_place _ _ _ Hb Ei) as (xs & ys & E1 & E2 & F1 & F2).
  by exists xs, ys.
Qed.

(** ** Queries *)

Lemma has_overlap_existsb t q :
  max_ok t -> bst t ->
  _has_overlap t q = existsb (fun a => overlaps a q) (_inorder t).
Proof.
  induction t as [|iv m l IHl r IHr h]; [done|].
  intros Hm Hb. pose proof (max_ok_bound _ Hm) as Hbound.
  destruct Hm as (Hml & Hmr & Em). destruct Hb as (Hbl & Hbr & Fl & Fr).
  assert (Hnone : forall xs : list (Interval D),
            Forall (fun a => overlaps a q = false) xs ->
            existsb (fun a => overlaps a q) xs = false).
  { induction 1 as [|a xs Ha _ IH]; [done|]. simpl. by rewrite Ha. }
  cbn [_has_overlap _inorder root_max_end] in *.
  destruct (Z.leb_spec m (start q)) as [Hle|Hgt].
  { symmetry. apply Hnone. eapply Forall_impl; [exact Hbound|].
    cbn beta. intros a Ha. unfold overlaps.
    replace (start q <? end_ a) with false by (symmetry; apply Z.ltb_ge; lia).
    apply andb_false_r. }
  rewrite existsb_app. cbn [existsb].
  destruct (overlaps iv q) eqn:Ho; [by rewrite orb_true_r|].
  cbn [orb].
  assert (Hl : match l with
               | Nil => false
               | Node _ lm _ _ _ =>
                   if start q <? lm then _has_overlap l q else false
               end = existsb (fun a => overlaps a q) (_inorder l)).
  { destruct l as [|liv lm ll lr lh]; [done|].
    destruct (Z.ltb_spec (start q) lm) as [H1|H1]; [by apply IHl|].
    symmetry. apply Hnone. pose proof (max_ok_bound _ Hml) as Hbl'.
    eapply Forall_impl; [exact Hbl'|]. cbn [root_max_end]. intros a Ha.
    unfold overlaps.
    replace (start q <? end_ a) with false by (symmetry; apply Z.ltb_ge; lia).
    apply andb_false_r. }
  rewrite Hl. destruct (existsb _ (_inorder l)); [done|]. cbn [orb].
  destruct (Z.ltb_spec (start iv) (end_ q)) as [H1|H1]; [by apply IHr|].
  symmetry. apply Hnone. eapply Forall_impl; [exact Fr|].
  cbn beta. intros a Ha. unfold overlaps.
  replace (start a <? end_ q) with false by (symmetry; apply Z.ltb_ge; lia).
  done.
Qed.

(** X4. On a tree built by insertions and deletions, [has_overlap] answers
    whether some stored interval overlaps the query, and so agrees with
    [find_overlapping] returning something. *)
Theorem has_overlap_iff_some_stored_interval_overlaps (ops : list (op D)) :
  exists self : IntervalTree D,
    run ops empty = Ok self
    /\ forall q,
         has_overlap self q
         = existsb (fun a => overlaps a q) (get_all_intervals self)
         /\ (has_overlap self q = true <-> find_overlapping self q <> []).
Proof.
  destruct (run_wf ops empty wf_nil) as (self & E & (_ & Hm & Hb)).
  exists self. split; [done|]. intros q.
  assert (H1 : has_overlap self q
               = existsb (fun a => overlaps a q) (get_all_intervals self))
    by (by apply has_overlap_existsb).
  split; [done|]. rewrite H1. unfold find_overlapping.
  rewrite search_brute_force by done. unfold brute_force, get_all_intervals.
  change (fun i0 : Interval D => overlap_spec i0 q)
    with (fun a : Interval D => overlaps a q).
  induction (_inorder (root self)) as [|a xs IH]; [done|].
  simpl. destruct (overlaps a q); [done|]. exact IH.
Qed.

Lemma search_point_filter t (p : Z) :
  max_ok t -> bst t ->
  _search_point t p = List.filter (fun a => contains a p) (_inorder t).
Proof.
  induction t as [|iv m l IHl r IHr h]; [done|].
  intros Hm Hb. pose proof (max_ok_bound _ Hm) as Hbound.
  destruct Hm as (Hml & Hmr & Em). destruct Hb as (Hbl & Hbr & Fl & Fr).
  cbn [_search_point _inorder root_max_end] in *.
  destruct (Z.leb_spec m p) as [Hle|Hgt].
  { symmetry. apply filter_none. eapply Forall_impl; [exact Hbound|].
    cbn beta. intros a Ha. unfold contains.
    replace (p <? end_ a) with false by (symmetry; apply Z.ltb_ge; lia).
    apply andb_false_r. }
  rewrite List.filter_app. cbn [List.filter].
  f_equal.
  { rewrite <- IHl by done. by destruct l. }
  assert (Hr : (if start iv <=? p then _search_point r p else [])
               = List.filter (fun a => contains a p) (_inorder r)).
  { destruct (Z.leb_spec (start iv) p) as [H1|H1]; [by apply IHr|].
    symmetry. apply filter_none. eapply Forall_impl; [exact Fr|].
    cbn beta. intros a Ha. unfold contains.
    replace (start a <=? p) with false by (symmetry; apply Z.leb_gt; lia).
    done. }
  rewrite Hr. by destruct (contains iv p).
Qed.

(** X5. On a tree built by insertions and deletions, [find_at_point]
    returns exactly the stored intervals with [start <= point < end], in
    the order of the stored sequence. *)
Theorem find_at_point_is_linear_scan (ops : list (op D)) :
  exists self : IntervalTree D,
    run ops empty = Ok self
    /\ forall p : Z,
         find_at_point self p
         = List.filter (fun a => contains a p) (get_all_intervals self)
         /\ forall a, a ∈ find_at_point self p <->
              a ∈ get_all_intervals self /\ start a <= p < end_ a.
Proof.
  destruct (run_wf ops empty wf_nil) as (self & E & (_ & Hm & Hb)).
  exists self. split; [done|]. intros p.
  assert (H1 : find_at_point self p
               = List.filter (fun a => contains a p) (get_all_intervals self))
    by (by apply search_point_filter).
  split; [done|]. intros a. rewrite H1.
  rewrite list_elem_of_In, List.filter_In, <- list_elem_of_In.
  unfold contains. rewrite andb_true_iff, Z.leb_le, Z.ltb_lt. tauto.
Qed.

(** ** Free slots *)

Lemma insert_by_start_elem a x (xs : list (Interval D)) :
  a ∈ insert_by_start x xs <-> a = x \/ a ∈ xs.
Proof.
  induction xs as [|y ys IH]; simpl.
  - rewrite elem_of_cons, elem_of_nil. tauto.
  - destruct (start x <=? start y).
    + by rewrite elem_of_cons.
    + rewrite !elem_of_cons, IH. tauto.
Qed.

Lemma sort_by_start_elem a (xs : list (Interval D)) :
  a ∈ sort_by_start xs <-> a ∈ xs.
Proof.
  induction xs as [|x xs IH]; simpl; [done|].
  rewrite insert_by_start_elem, elem_of_cons, IH. tauto.
Qed.

Lemma insert_by_start_sorted x (xs : list (Interval D)) :
  StronglySorted (fun a b => start a <= start b) xs ->
  StronglySorted (fun a b => start a <= start b) (insert_by_start x xs).
Proof.
  induction 1 as [|y ys Hs IH Fy]; simpl.
  { repeat constructor. }
  destruct (Z.leb_spec (start x) (start y)) as [Hle|Hgt].
  - constructor; [by constructor|]. apply Forall_cons. split; [done|].
    eapply Forall_impl; [exact Fy|]. cbn beta. intros; lia.
  - constructor; [done|]. rewrite Forall_forall. intros a Ha.
    apply insert_by_start_elem in Ha as [->|Ha]; [lia|].
    rewrite Forall_forall in Fy. by apply Fy.
Qed.

Lemma sort_by_start_sorted (xs : list (Interval D)) :
  StronglySorted (fun a b => start a <= start b) (sort_by_start xs).
Proof.
  induction xs as [|x xs IH]; simpl; [constructor|].
  by apply insert_by_start_sorted.
Qed.

(** What the loop of [find_available_slots] makes of a slot. *)
Definition free_slot (existing : list (Interval D)) (from duration : Z)
    (s : Interval D) : Prop :=
  from <= start s /\ start s < end_ s /\ duration <= end_ s - start s
  /\ data s = None
  /\ (exists a, a ∈ existing /\ end_ s = start a)
  /\ Forall (fun a => overlaps a s = false) existing.

Lemma slots_spec (existing : list (Interval D)) duration
    (available : list (Interval D)) (current_start : Z) :
  StronglySorted (fun a b => start a <= start b) existing ->
  exists new current_start',
    _slots existing duration available current_start
    = Ok (available ++ new, current_start')
    /\ current_start <= current_start'
    /\ Forall (fun a => end_ a <= current_start') existing
    /\ Forall (free_slot existing current_start duration) new.
Proof.
  intros Hs. revert available current_start.
  induction Hs as [|b rest Hs IH Fb]; intros available cs.
  { exists [], cs. rewrite app_nil_r. repeat split; (constructor || lia). }
  cbn [_slots].
  set (cs1 := if cs <? end_ b then end_ b else cs).
  assert (Hcs1 : cs <= cs1 /\ end_ b <= cs1).
  { unfold cs1. destruct (Z.ltb_spec cs (end_ b)); lia. }
  assert (Hweak : forall new cs',
            cs1 <= cs' ->
            Forall (fun a => end_ a <= cs') rest ->
            Forall (free_slot rest cs1 duration) new ->
            Forall (fun a => end_ a <= cs') (b :: rest)
            /\ Forall (free_slot (b :: rest) cs duration) new).
  { intros new cs' Hle Fe Fn. split.
    { apply Forall_cons. split; [lia|done]. }
    eapply Forall_impl; [exact Fn|].
    intros s (H1 & H2 & H3 & H4 & (a & Ha & Hea) & H6).
    split; [lia|]. split; [done|]. split; [done|]. split; [done|].
    split. { exists a. split; [by apply elem_of_cons; right|done]. }
    apply Forall_cons. split; [|done]. unfold overlaps.
    replace (start s <? end_ b) with false by (symmetry; apply Z.ltb_ge; lia).
    apply andb_false_r. }
  destruct (Z.ltb_spec cs (start b)) as [Hlt|Hge].
  2:{ cbn [rbind]. destruct (IH available cs1) as (new & cs' & -> & Hle & Fe & Fn).
      exists new, cs'. split; [done|]. split; [lia|]. by apply Hweak. }
  destruct (Z.leb_spec duration (start b - cs)) as [Hd|Hd].
  2:{ cbn [rbind]. destruct (IH available cs1) as (new & cs' & -> & Hle & Fe & Fn).
      exists new, cs'. split; [done|]. split; [lia|]. by apply Hweak. }
  unfold Interval_init.
  replace (start b <? cs) with false by (symmetry; apply Z.ltb_ge; lia).
  cbn [rbind].
  destruct (IH (available ++ [mkInterval cs (start b) None]) cs1)
    as (new & cs' & -> & Hle & Fe & Fn).
  exists (mkInterval cs (start b) None :: new), cs'.
  split. { by rewrite <- app_assoc. }
  split; [lia|]. destruct (Hweak new cs' Hle Fe Fn) as (Fe' & Fn').
  split; [done|]. apply Forall_cons. split; [|done].
  unfold free_slot. cbn [start end_ data].
  split; [lia|]. split; [done|]. split; [done|]. split; [done|].
  split. { exists b. split; [constructor|done]. }
  apply Forall_cons. split.
  - unfold overlaps. cbn [start end_].
    replace (start b <? start b) with false by (symmetry; apply Z.ltb_ge; lia).
    done.
  - eapply Forall_impl; [exact Fb|]. cbn beta. intros a Ha.
    unfold overlaps. cbn [start end_].
    replace (start a <? start b) with false by (symmetry; apply Z.ltb_ge; lia).
    done.
Qed.

(** X6. On a tree built by insertions and deletions,
    [find_available_slots(start, end, duration)] raises [ValueError] when
    [end < start]; otherwise it returns slots that lie inside
    [[start, end]], are not empty, are at least [duration] long, carry no
    data and overlap no stored interval. *)
Theorem find_available_slots_are_free (ops : list (op D))
    (start_ end' duration : Z) :
  exists self : IntervalTree D,
    run ops empty = Ok self
    /\ (end' < start_ ->
        find_available_slots self start_ end' duration = Raise ValueError)
    /\ (start_ <= end' ->
        exists slots,
          find_available_slots self start_ end' duration = Ok slots
          /\ Forall (fun s =>
                       start_ <= start s /\ start s < end_ s
                       /\ end_ s <= end'
                       /\ duration <= end_ s - start s
                       /\ data s = None
                       /\ Forall (fun a => overlaps a s = false)
                                 (get_all_intervals self))
                    slots).
Proof.
  destruct (run_wf ops empty wf_nil) as (self & E & (_ & Hm & Hb)).
  exists self. split; [done|]. unfold find_available_slots, Interval_init.
  split.
  { intros Hlt. by replace (end' <? start_) with true
      by (symmetry; apply Z.ltb_lt; lia). }
  intros Hle.
  replace (end' <? start_) with false by (symmetry; apply Z.ltb_ge; lia).
  cbn [rbind].
  set (query := mkInterval start_ end' None).
  set (existing := sort_by_start (find_overlapping self query)).
  destruct (slots_spec existing duration [] start_ (sort_by_start_sorted _))
    as (new & cs & -> & Hcs & Fe & Fn).
  cbn [rbind fst snd app].
  assert (Hex : forall a, a ∈ existing <->
            a ∈ get_all_intervals self /\ start a < end' /\ start_ < end_ a).
  { intros a. unfold existing. rewrite sort_by_start_elem.
    unfold find_overlapping. rewrite search_brute_force by done.
    unfold brute_force.
    rewrite list_elem_of_In, List.filter_In, <- list_elem_of_In.
    unfold overlap_spec, query. cbn [start end_].
    rewrite andb_true_iff, !Z.ltb_lt. tauto. }
  (* a slot inside the range that is free of what overlaps the range is
     free of everything stored *)
  assert (Hfree : forall s,
            start_ <= start s -> end_ s <= end' ->
            Forall (fun a => overlaps a s = false) existing ->
            Forall (fun a => overlaps a s = false) (get_all_intervals self)).
  { intros s H1 H2 F. rewrite Forall_forall in *. intros a Ha.
    destruct (Z.ltb_spec (start a) end') as [Ha1|Ha1].
    - destruct (Z.ltb_spec start_ (end_ a)) as [Ha2|Ha2].
      + apply F. apply Hex. auto.
      + unfold overlaps.
        replace (start s <? end_ a) with false by (symmetry; apply Z.ltb_ge; lia).
        apply andb_false_r.
    - unfold overlaps.
      replace (start a <? end_ s) with false by (symmetry; apply Z.ltb_ge; lia).
      done. }
  assert (Hnew : Forall (fun s =>
                       start_ <= start s /\ start s < end_ s
                       /\ end_ s <= end'
                       /\ duration <= end_ s - start s
                       /\ data s = None
                       /\ Forall (fun a => overlaps a s = false)
                                 (get_all_intervals self)) new).
  { eapply Forall_impl; [exact Fn|].
    intros s (H1 & H2 & H3 & H4 & (a & Ha & Hea) & H6).
    apply Hex in Ha as (_ & Ha1 & _).
    split; [done|]. split; [done|]. split; [lia|]. split; [done|].
    split; [done|]. apply Hfree; [done|lia|done]. }
  destruct (Z.ltb_spec cs end') as [Hlt|Hge]; [|by exists new].
  destruct (Z.leb_spec duration (end' - cs)) as [Hd|Hd]; [|by exists new].
  replace (end' <? cs) with false by (symmetry; apply Z.ltb_ge; lia).
  cbn [rbind]. eexists. split; [reflexivity|].
  apply Forall_app. split; [done|]. apply Forall_cons. split; [|constructor].
  cbn [start end_ data].
  split; [done|]. split; [done|]. split; [lia|]. split; [done|]. split; [done|].
  apply Hfree; cbn [start end_]; [done|lia|].
  eapply Forall_impl; [exact Fe|]. cbn beta. intros a Ha.
  unfold overlaps. cbn [start end_].
  replace (cs <? end_ a) with false by (symmetry; apply Z.ltb_ge; lia).
  apply andb_false_r.
Qed.

(** ** Deletion when the starts differ *)

Lemma filter_other_start_length (xs : list (Interval D)) a i :
  starts_increase xs -> a ∈ xs -> start a = start i ->
  (length (List.filter (other_start i) xs) + 1 = length xs)%nat.
Proof.
  induction 1 as [|c xs Hs IH Fc]; [by intros ?%elem_of_nil|].
  intros Ha Hst. cbn [List.filter length].
  apply elem_of_cons in Ha as [->|Ha].
  - unfold other_start at 1.
    replace (start c =? start i) with true by (symmetry; apply Z.eqb_eq; lia).
    cbn [negb]. rewrite filter_all; [lia|].
    eapply Forall_impl; [exact Fc|]. cbn beta. intros b Hb.
    unfold other_start. apply negb_true_iff, Z.eqb_neq. lia.
  - unfold other_start at 1. rewrite Forall_forall in Fc.
    specialize (Fc _ Ha).
    replace (start c =? start i) with false by (symmetry; apply Z.eqb_neq; lia).
    cbn [negb length]. specialize (IH Ha Hst). lia.
Qed.

(** X7. On a tree built by insertions and deletions in which no two stored
    intervals start together, [delete(i)] of an interval that is stored
    (same start and end) returns [True], takes exactly that interval out
    and leaves the others in place, and [len] goes down by one. *)
Theorem delete_removes_interval_when_starts_differ (ops : list (op D))
    (self : IntervalTree D) i a :
  run ops empty = Ok self ->
  starts_increase (get_all_intervals self) ->
  a ∈ get_all_intervals self -> start a = start i -> end_ a = end_ i ->
  exists self',
    delete self i = Ok (self', true)
    /\ get_all_intervals self'
       = List.filter (fun b => negb (start b =? start i))
                     (get_all_intervals self)
    /\ (a ∉ get_all_intervals self')
    /\ len self' = len self - 1.
Proof.
  intros E Hinc Ha Hs He.
  destruct (run_len ops empty wf_nil eq_refl) as (self0 & E0 & Hwf & Hsz).
  assert (self0 = self) as -> by congruence.
  destruct (delete_wf _ i Hwf) as (t' & Ed & _).
  assert (Hf : _inorder t' = List.filter (other_start i) (get_all_intervals self)).
  { apply delete_inorder_filter; [done| |done].
    intros b Hb Hsb.
    assert (b = a) as -> by (eapply starts_increase_unique; eauto; congruence).
    done. }
  pose proof (filter_other_start_length _ _ i Hinc Ha Hs) as Hlen.
  rewrite <- Hf in Hlen. unfold get_all_intervals in Hlen.
  unfold delete. rewrite Ed. cbn [rbind].
  replace (_count_nodes t' <? size self) with true.
  2:{ symmetry. apply Z.ltb_lt. rewrite Hsz, !count_nodes_inorder. lia. }
  eexists. split; [reflexivity|]. unfold get_all_intervals in *. cbn [root].
  split; [exact Hf|]. split.
  - rewrite Hf. intros Hin.
    apply list_elem_of_In, List.filter_In in Hin as (_ & Hin).
    unfold other_start in Hin. apply negb_true_iff, Z.eqb_neq in Hin. lia.
  - unfold len. cbn [size]. rewrite Hsz, !count_nodes_inorder. lia.
Qed.

End WithData.

(** Two intervals with different starts, the second one deleted. *)
Definition two_starts : list (op unit) :=
  [Insert (mkInterval 1 3 None); Insert (mkInterval 5 7 None)].

Definition two_starts_tree : IntervalTree unit :=
  match run two_starts empty with
  | Ok self => self
  | Raise _ => empty
  end.

Lemma delete_removes_interval_when_starts_differ_witness :
  exists self',
    delete two_starts_tree (mkInterval 5 7 None) = Ok (self', true)
    /\ get_all_intervals self'
       = List.filter (fun b => negb (start b =? 5))
                     (get_all_intervals two_starts_tree)
    /\ (mkInterval 5 7 None ∉ get_all_intervals self')
    /\ len self' = len two_starts_tree - 1.
Proof.
  apply (delete_removes_interval_when_starts_differ two_starts two_starts_tree
           (mkInterval 5 7 None) (mkInterval 5 7 None)).
  - reflexivity.
  - vm_compute. repeat constructor.
  - vm_compute. apply elem_of_cons. right. constructor.
  - reflexivity.
  - reflexivity.
Defined.

End IntervalTreeMore.

(** * More of the AVL tree *)

Module AVLTreeMore.

Import AVLTree AVLTreeProofs.

Section WithOrder.

Context {K V : Type} (cmp : K -> K -> Z).

Implicit Types (t l r : AVLNode K V) (k key : K).

(** The comparison function is a total order whose zero is equality, as
    the default [(a > b) - (a < b)] is on numbers and strings. *)
Definition total_order : Prop :=
  (forall a b, cmp a b = 0 <-> a = b)
  /\ (forall a b, cmp a b < 0 <-> 0 < cmp b a)
  /\ (forall a b c, cmp a b < 0 -> cmp b c < 0 -> cmp a c < 0).

(** The value a new node gets: [value if value is not None else key]. *)
Definition fresh key (value : option V) : stored K V :=
  match value with
  | Some v => SVal v
  | None => SKey key
  end.

(** Where an inserted binding lands in the in-order sequence, whatever
    value is given: at a new place with the value of a new node, or in the
    place of the binding with the same key, with the assigned value. *)
Lemma insert_inorder_any t key (value : option V) (t' : AVLNode K V) :
  total_order ->
  _insert cmp t key value = Ok t' ->
  exists xs ys,
    (_inorder t = xs ++ ys
     /\ _inorder t' = xs ++ (key, fresh key value) :: ys)
    \/ (exists old, _inorder t = xs ++ (key, old) :: ys
        /\ _inorder t' = xs ++ (key, assigned value) :: ys).
Proof.
  intros (cmp_eq & _ & _).
  revert t'. induction t as [|k w l IHl r IHr h]; intros t'.
  { simpl. intros [= <-]. exists [], []. left. done. }
  cbn [_insert]. destruct (Z.ltb_spec (cmp key k) 0) as [Hlt|Hge].
  - destruct (_insert cmp l key value) as [l'|] eqn:E; [|discriminate].
    cbn [rbind]. rewrite kv_update_mk. intros H%rebalance_inv%kv_rebal_inorder.
    destruct (IHl _ eq_refl) as (xs & ys & IH).
    exists xs, (ys ++ (k, w) :: _inorder r). rewrite H. simpl.
    destruct IH as [(E1 & E2)|(old & E1 & E2)]; rewrite E1, E2;
      [left|right; exists old]; by rewrite <- !app_assoc.
  - destruct (Z.ltb_spec 0 (cmp key k)) as [Hgt|Hle].
    + destruct (_insert cmp r key value) as [r'|] eqn:E; [|discriminate].
      cbn [rbind]. rewrite kv_update_mk. intros H%rebalance_inv%kv_rebal_inorder.
      destruct (IHr _ eq_refl) as (xs & ys & IH).
      exists (_inorder l ++ (k, w) :: xs), ys. rewrite H. simpl.
      destruct IH as [(E1 & E2)|(old & E1 & E2)]; rewrite E1, E2;
        [left|right; exists old]; by rewrite <- !app_assoc.
    + intros [= <-]. assert (key = k) as -> by (apply cmp_eq; lia).
      exists (_inorder l), (_inorder r). right. exists w. done.
Qed.

Lemma insert_Forall_any (P : K * stored K V -> Prop) t key
    (value : option V) (t' : AVLNode K V) :
  total_order ->
  _insert cmp t key value = Ok t' ->
  (forall w, P (key, w)) -> Forall P (_inorder t) -> Forall P (_inorder t').
Proof.
  intros Hord E Hk HF.
  destruct (insert_inorder_any _ _ _ _ Hord E)
    as (xs & ys & [(E1 & E2)|(old & E1 & E2)]); rewrite E1 in HF; rewrite E2;
    apply Forall_app in HF as (H1 & H2); apply Forall_app; split; auto.
  apply Forall_cons in H2 as (_ & H2). auto.
Qed.

Lemma insert_bst_any t key (value : option V) (t' : AVLNode K V) :
  total_order ->
  _insert cmp t key value = Ok t' -> bst cmp t -> bst cmp t'.
Proof.
  intros Hord. pose proof Hord as (cmp_eq & cmp_antisym & cmp_trans).
  revert t'. induction t as [|k w l IHl r IHr h]; intros t'.
  { simpl. intros [= <-] _. simpl. auto. }
  cbn [_insert]. intros H (Hl & Hr & Fl & Fr). revert H.
  destruct (Z.ltb_spec (cmp key k) 0) as [Hlt|Hge].
  - destruct (_insert cmp l key value) as [l'|] eqn:E; [|discriminate].
    cbn [rbind]. rewrite kv_update_mk. intros H%rebalance_inv.
    eapply kv_rebal_bst; [exact cmp_trans|exact H|]. simpl. repeat split; auto.
    eapply insert_Forall_any; [done|exact E| |done]. simpl. done.
  - destruct (Z.ltb_spec 0 (cmp key k)) as [Hgt|Hle].
    + destruct (_insert cmp r key value) as [r'|] eqn:E; [|discriminate].
      cbn [rbind]. rewrite kv_update_mk. intros H%rebalance_inv.
      eapply kv_rebal_bst; [exact cmp_trans|exact H|]. simpl. repeat split; auto.
      eapply insert_Forall_any; [done|exact E| |done]. simpl. intros _.
      by apply cmp_antisym.
    + intros [= <-]. simpl. auto.
Qed.

(** ** Sequences of insertions and deletions *)

Inductive op : Type :=
| Insert (key : K) (value : option V)
| Delete (key : K).

Fixpoint run (ops : list op) (self : AVLTree K V) : result (AVLTree K V) :=
  match ops with
  | [] => Ok self
  | Insert key value :: ops' =>
      let* p := insert cmp self key value in run ops' (fst p)
  | Delete key :: ops' =>
      let* p := delete cmp self key in run ops' (fst p)
  end.

Lemma run_keeps_wf (ops : list op) (self : AVLTree K V) :
  total_order -> wf cmp (root self) ->
  exists self', run ops self = Ok self' /\ wf cmp (root self').
Proof.
  intros Hord. pose proof Hord as (cmp_eq & cmp_antisym & cmp_trans).
  revert self. induction ops as [|[key value|key] ops IH]; intros self Hwf.
  - by exists self.
  - cbn [run]. unfold insert. destruct Hwf as (Ha & Hb).
    destruct (kv_insert_avl cmp (root self) key value Ha) as (t' & E & Ha' & _).
    rewrite E. cbn [rbind fst]. apply IH. split; [done|].
    by eapply insert_bst_any.
  - cbn [run].
    destruct (delete_spec cmp cmp_eq cmp_antisym cmp_trans self key Hwf)
      as (self' & flag & -> & Hwf' & _).
    cbn [rbind fst]. by apply IH.
Qed.

Lemma avl_check_balance t : avl t -> _check_balance t = true.
Proof.
  induction t as [|k v l IHl r IHr h]; [done|].
  intros (Hl & Hr & _ & Hb). cbn [_check_balance _balance_factor].
  replace (1 <? Z.abs (_height l - _height r)) with false
    by (symmetry; apply Z.ltb_ge; lia).
  by rewrite IHl, IHr.
Qed.

(** X8. Whatever insertions and deletions are made on an empty AVL tree,
    none of them raises, [is_balanced] holds of the tree they build, and
    [inorder_traversal] lists the bindings by strictly increasing key (no
    key twice). *)
Theorem avl_sequences_stay_balanced_and_sorted (ops : list op) :
  total_order ->
  exists self,
    run ops empty = Ok self
    /\ is_balanced self = true
    /\ StronglySorted (fun p q => cmp p.1 q.1 < 0) (inorder_traversal self).
Proof.
  intros Hord. pose proof Hord as (cmp_eq & cmp_antisym & cmp_trans).
  destruct (run_keeps_wf ops empty Hord) as (self & E & Ha & Hb).
  { split; simpl; auto. }
  exists self. split; [done|]. split; [by apply avl_check_balance|].
  by apply bst_sorted.
Qed.

(** ** Insertion, deletion and search *)

Lemma search_found (self : AVLTree K V) key :
  search cmp self key = default SNone (found cmp (root self) key).
Proof. unfold search, found. by destruct (_search_node _ _ _). Qed.

Lemma contains_found (self : AVLTree K V) key :
  contains cmp self key = bool_decide (is_Some (found cmp (root self) key)).
Proof.
  unfold contains, found. destruct (_search_node _ _ _); [|by rewrite bool_decide_true].
  rewrite bool_decide_false; [done|]. by intros [? ?].
Qed.

(** X9. On a tree built by insertions and deletions, [insert(key, value)]
    returns [True] and binds the key: to the value when one is given; with
    no value, to the key itself when the key is new and to [None] when the
    key was present. The other keys keep what they were bound to. *)
Theorem insert_binds_key (ops : list op) key (value : option V) :
  total_order ->
  exists self self',
    run ops empty = Ok self
    /\ insert cmp self key value = Ok (self', true)
    /\ contains cmp self' key = true
    /\ search cmp self' key
       = (if contains cmp self key then assigned value else fresh key value)
    /\ forall k', k' <> key -> search cmp self' k' = search cmp self k'.
Proof.
  intros Hord. pose proof Hord as (cmp_eq & cmp_antisym & cmp_trans).
  destruct (run_keeps_wf ops empty Hord) as (self & E & Ha & Hb).
  { split; simpl; auto. }
  destruct (kv_insert_avl cmp (root self) key value Ha) as (t' & Ei & Ha' & _).
  pose proof (insert_bst_any _ _ _ _ Hord Ei Hb) as Hb'.
  exists self, (mkAVLTree t' (size self + 1)). split; [done|].
  split. { unfold insert. rewrite Ei. cbn [rbind]. do 2 f_equal.
           apply Z.ltb_lt. lia. }
  rewrite !contains_found, !search_found. cbn [root].
  rewrite !(found_assoc cmp cmp_eq cmp_trans) by done.
  destruct (insert_inorder_any _ _ _ _ Hord Ei)
    as (xs & ys & [(E1 & E2)|(old & E1 & E2)]).
  - (* a new key *)
    assert (Hx : assoc cmp xs key = None).
    { apply assoc_none.
      eapply (bst_inorder_before cmp cmp_antisym cmp_trans); eauto. }
    assert (Hy : assoc cmp ys key = None).
    { apply assoc_none. apply (bst_sorted cmp cmp_trans) in Hb'.
      rewrite E2 in Hb'. apply StronglySorted_app in Hb' as (_ & _ & Hb').
      apply StronglySorted_inv in Hb' as (_ & Hb').
      eapply Forall_impl; [exact Hb'|]. cbn. intros p Hp. lia. }
    rewrite E1, E2, !assoc_app, Hx, Hy.
    rewrite (assoc_cons_eq cmp cmp_eq).
    split; [by rewrite bool_decide_true|].
    split. { rewrite bool_decide_false; [done|]. by intros [? ?]. }
    intros k' Hne. rewrite !search_found. cbn [root].
    rewrite !(found_assoc cmp cmp_eq cmp_trans) by done.
    rewrite E1, E2, !assoc_app.
    by rewrite (assoc_cons_ne cmp cmp_eq) by done.
  - (* a key that was present *)
    assert (Hx : assoc cmp xs key = None).
    { apply assoc_none.
      eapply (bst_inorder_before cmp cmp_antisym cmp_trans); eauto. }
    rewrite E1, E2, !assoc_app, Hx, !(assoc_cons_eq cmp cmp_eq).
    split; [by rewrite bool_decide_true|].
    split. { by rewrite bool_decide_true. }
    intros k' Hne. rewrite !search_found. cbn [root].
    rewrite !(found_assoc cmp cmp_eq cmp_trans) by done.
    rewrite E1, E2, !assoc_app.
    by rewrite !(assoc_cons_ne cmp cmp_eq) by done.
Qed.

(** X10. On a tree built by insertions and deletions, [delete(key)]
    returns whether the key was present; afterwards the key is absent
    ([contains] is false, [search] gives [None]) and the other keys keep
    what they were bound to. *)
Theorem delete_unbinds_key (ops : list op) key :
  total_order ->
  exists self self',
    run ops empty = Ok self
    /\ delete cmp self key = Ok (self', contains cmp self key)
    /\ contains cmp self' key = false
    /\ search cmp self' key = SNone
    /\ forall k', k' <> key ->
         search cmp self' k' = search cmp self k'
         /\ contains cmp self' k' = contains cmp self k'.
Proof.
  intros Hord. pose proof Hord as (cmp_eq & cmp_antisym & cmp_trans).
  destruct (run_keeps_wf ops empty Hord) as (self & E & Ha & Hb).
  { split; simpl; auto. }
  exists self. unfold delete.
  destruct (contains cmp self key) eqn:Ec; cbn [negb].
  2:{ exists self. split; [done|]. split; [done|]. split; [done|].
      split; [|done]. unfold contains in Ec. unfold search.
      by destruct (_search_node cmp (root self) key). }
  destruct (kv_delete_avl cmp (root self) key Ha) as (t' & Ed & Ha' & _).
  pose proof (kv_delete_bst cmp cmp_eq cmp_antisym cmp_trans _ _ _ Hb Ed) as Hb'.
  pose proof (kv_delete_inorder cmp cmp_eq cmp_antisym cmp_trans _ _ _ Hb Ed)
    as Hin.
  rewrite Ed. cbn [rbind]. eexists. split; [done|]. split; [reflexivity|].
  rewrite !contains_found, !search_found. cbn [root].
  rewrite !(found_assoc cmp cmp_eq cmp_trans) by done. rewrite Hin.
  rewrite (assoc_other_key_eq cmp).
  split. { rewrite bool_decide_false; [done|]. by intros [? ?]. }
  split; [done|]. intros k' Hne.
  rewrite !contains_found, !search_found. cbn [root].
  rewrite !(found_assoc cmp cmp_eq cmp_trans) by done. rewrite Hin.
  by rewrite (assoc_other_key_ne cmp cmp_eq) by done.
Qed.

(** ** Range queries and extremes *)

(** [low <= key <= high] by the comparison function. *)
Definition in_range (low high : K) (p : K * stored K V) : bool :=
  (0 <=? cmp p.1 low) && (cmp p.1 high <=? 0).

Lemma range_query_filter t (low high : K) :
  total_order -> bst cmp t ->
  _range_query cmp t low high = List.filter (in_range low high) (_inorder t).
Proof.
  intros (cmp_eq & cmp_antisym & cmp_trans).
  induction t as [|k v l IHl r IHr h]; [done|].
  intros (Hl & Hr & Fl & Fr). cbn [_range_query _inorder].
  rewrite List.filter_app. cbn [List.filter].
  change ((0 <=? cmp k low) && (cmp k high <=? 0)) with (in_range low high (k, v)).
  assert (HL : (if 0 <? cmp k low then _range_query cmp l low high else [])
               = List.filter (in_range low high) (_inorder l)).
  { destruct (Z.ltb_spec 0 (cmp k low)) as [H1|H1]; [by apply IHl|].
    symmetry. apply IntervalTreeProofs.filter_none.
    eapply Forall_impl; [exact Fl|]. cbn beta. intros p Hp.
    unfold in_range.
    assert (cmp p.1 low < 0).
    { destruct (Z.eq_dec (cmp k low) 0) as [E|E].
      - apply cmp_eq in E. by subst low.
      - eapply cmp_trans; [exact Hp|lia]. }
    replace (0 <=? cmp p.1 low) with false by (symmetry; apply Z.leb_gt; lia).
    done. }
  assert (HR : (if cmp k high <? 0 then _range_query cmp r low high else [])
               = List.filter (in_range low high) (_inorder r)).
  { destruct (Z.ltb_spec (cmp k high) 0) as [H1|H1]; [by apply IHr|].
    symmetry. apply IntervalTreeProofs.filter_none.
    eapply Forall_impl; [exact Fr|]. cbn beta. intros p Hp.
    unfold in_range.
    assert (0 < cmp p.1 high).
    { apply cmp_antisym. destruct (Z.eq_dec (cmp k high) 0) as [E|E].
      - apply cmp_eq in E. by subst high.
      - eapply cmp_trans; [|exact Hp]. apply cmp_antisym. lia. }
    replace (cmp p.1 high <=? 0) with false by (symmetry; apply Z.leb_gt; lia).
    apply andb_false_r. }
  rewrite HL, HR. by destruct (in_range low high (k, v)).
Qed.

(** X11. On a tree built by insertions and deletions, [range_query(low,
    high)] returns exactly the bindings whose key is between [low] and
    [high], both included, in increasing key order. *)
Theorem range_query_is_filter_of_inorder (ops : list op) (low high : K) :
  total_order ->
  exists self,
    run ops empty = Ok self
    /\ range_query cmp self low high
       = List.filter (in_range low high) (inorder_traversal self)
    /\ forall k v,
         (k, v) ∈ range_query cmp self low high <->
         (k, v) ∈ inorder_traversal self /\ 0 <= cmp k low /\ cmp k high <= 0.
Proof.
  intros Hord.
  destruct (run_keeps_wf ops empty Hord) as (self & E & Ha & Hb).
  { split; simpl; auto. }
  exists self. split; [done|].
  assert (H1 : range_query cmp self low high
               = List.filter (in_range low high) (inorder_traversal self))
    by (by apply range_query_filter).
  split; [done|]. intros k v. rewrite H1.
  rewrite list_elem_of_In, List.filter_In, <- list_elem_of_In.
  unfold in_range. cbn [fst]. rewrite andb_true_iff, !Z.leb_le. tauto.
Qed.

Lemma find_max_node k v l r h :
  exists k' v' l' h', _find_max (Node k v l r h) = Node k' v' l' Nil h'.
Proof.
  revert k v l h. induction r as [|rk rv rl _ rr IH rh]; intros k v l h.
  - simpl. eauto.
  - destruct (IH rk rv rl rh) as (k' & v' & l' & h' & E).
    exists k', v', l', h'. rewrite <- E. reflexivity.
Qed.

Lemma find_max_last k v l r h k' v' l' r' h' :
  _find_max (Node k v l r h) = Node k' v' l' r' h' ->
  exists rest, _inorder (Node k v l r h) = rest ++ [(k', v')].
Proof.
  revert k v l h. induction r as [|rk rv rl _ rr IH rh]; intros k v l h.
  - simpl. intros [= -> -> _ _ _]. eauto.
  - intros E. destruct (IH rk rv rl rh) as (rest & Er).
    { rewrite <- E. reflexivity. }
    cbn [_inorder] in *. rewrite Er.
    exists (_inorder l ++ (k, v) :: rest). by rewrite <- app_assoc.
Qed.

(** X12. On a tree built by insertions and deletions, [get_min] returns
    what the smallest key is bound to and [get_max] what the largest key is
    bound to: the values of the first and of the last binding of
    [inorder_traversal], which lists the keys in increasing order. On an
    empty tree both return [None]. *)
Theorem get_min_and_get_max_are_the_ends (ops : list op) :
  total_order ->
  exists self,
    run ops empty = Ok self
    /\ StronglySorted (fun p q => cmp p.1 q.1 < 0) (inorder_traversal self)
    /\ get_min self
       = match inorder_traversal self with
         | [] => SNone
         | p :: _ => p.2
         end
    /\ get_max self
       = match last (inorder_traversal self) with
         | None => SNone
         | Some p => p.2
         end.
Proof.
  intros Hord. pose proof Hord as (cmp_eq & cmp_antisym & cmp_trans).
  destruct (run_keeps_wf ops empty Hord) as (self & E & Ha & Hb).
  { split; simpl; auto. }
  exists self. split; [done|]. split; [by apply bst_sorted|].
  unfold get_min, get_max, inorder_traversal.
  destruct (root self) as [|k v l r h]; [done|]. split.
  - destruct (kv_find_min_node k v l r h) as (k' & v' & r' & h' & Em).
    destruct (kv_find_min_head _ _ _ _ _ _ _ _ _ _ Em) as (rest & ->).
    by rewrite Em.
  - destruct (find_max_node k v l r h) as (k' & v' & l' & h' & Em).
    destruct (find_max_last _ _ _ _ _ _ _ _ _ _ Em) as (rest & ->).
    by rewrite Em, last_snoc.
Qed.

End WithOrder.

(** ** The default comparison on integers *)

(** [lambda a, b: (a > b) - (a < b)] *)
Definition int_compare (a b : Z) : Z :=
  (if b <? a then 1 else 0) - (if a <? b then 1 else 0).

Lemma int_compare_order : total_order int_compare.
Proof.
  unfold total_order, int_compare. repeat split.
  - destruct (Z.ltb_spec b a), (Z.ltb_spec a b); lia.
  - destruct (Z.ltb_spec b a), (Z.ltb_spec a b); lia.
  - destruct (Z.ltb_spec b a), (Z.ltb_spec a b); lia.
  - destruct (Z.ltb_spec b a), (Z.ltb_spec a b); lia.
  - intros a b c. destruct (Z.ltb_spec b a), (Z.ltb_spec a b),
      (Z.ltb_spec c b), (Z.ltb_spec b c), (Z.ltb_spec c a), (Z.ltb_spec a c); lia.
Qed.

(** Keys 3, 1, 2 with values, 1 again without a value, and 3 deleted. *)
Definition sample_ops : list (op (K := Z) (V := string)) :=
  [Insert 3 (Some "c"); Insert 1 (Some "a"); Insert 2 (Some "b");
   Insert 1 None; Delete 3].

Lemma avl_sequences_stay_balanced_and_sorted_witness :
  exists self,
    run int_compare sample_ops empty = Ok self
    /\ is_balanced self = true
    /\ StronglySorted (fun p q => int_compare p.1 q.1 < 0)
                      (inorder_traversal self).
Proof.
  apply (avl_sequences_stay_balanced_and_sorted int_compare sample_ops).
  exact int_compare_order.
Defined.

Lemma insert_binds_key_witness :
  exists self self',
    run int_compare sample_ops empty = Ok self
    /\ insert int_compare self 2 None = Ok (self', true)
    /\ contains int_compare self' 2 = true
    /\ search int_compare self' 2
       = (if contains int_compare self 2 then assigned None else fresh 2 None)
    /\ forall k', k' <> 2 ->
         search int_compare self' k' = search int_compare self k'.
Proof.
  apply (insert_binds_key int_compare sample_ops 2 None).
  exact int_compare_order.
Defined.

Lemma delete_unbinds_key_witness :
  exists self self',
    run int_compare sample_ops empty = Ok self
    /\ delete int_compare self 1 = Ok (self', contains int_compare self 1)
    /\ contains int_compare self' 1 = false
    /\ search int_compare self' 1 = SNone
    /\ forall k', k' <> 1 ->
         search int_compare self' k' = search int_compare self k'
         /\ contains int_compare self' k' = contains int_compare self k'.
Proof.
  apply (delete_unbinds_key int_compare sample_ops 1).
  exact int_compare_order.
Defined.

Lemma range_query_is_filter_of_inorder_witness :
  exists self,
    run int_compare sample_ops empty = Ok self
    /\ range_query int_compare self 2 5
       = List.filter (in_range int_compare 2 5) (inorder_traversal self)
    /\ forall k v,
         (k, v) ∈ range_query int_compare self 2 5 <->
         (k, v) ∈ inorder_traversal self
         /\ 0 <= int_compare k 2 /\ int_compare k 5 <= 0.
Proof.
  apply (range_query_is_filter_of_inorder int_compare sample_ops 2 5).
  exact int_compare_order.
Defined.

Lemma get_min_and_get_max_are_the_ends_witness :
  exists self,
    run int_compare sample_ops empty = Ok self
    /\ StronglySorted (fun p q => int_compare p.1 q.1 < 0)
                      (inorder_traversal self)
    /\ get_min self
       = match inorder_traversal self with
         | [] => SNone
         | p :: _ => p.2
         end
    /\ get_max self
       = match last (inorder_traversal self) with
         | None => SNone
         | Some p => p.2
         end.
Proof.
  apply (get_min_and_get_max_are_the_ends int_compare sample_ops).
  exact int_compare_order.
Defined.

End AVLTreeMore.

(** * More of the stack and the undo/redo manager *)

Module StackQueueMore.

Import StackQueue.

Section Stack.

Context {T : Type}.

(** X13. [push] refuses an item exactly when the stack has a bound other
    than 0 and holds at least that many items; a stack of bound 0 reports
    [is_full] and still accepts every item. After an accepted [push],
    [peek] and [pop] give the item back, [pop] restores the stack, and
    [to_list] shows the item first; a refused [push] leaves the stack as it
    was. *)
Theorem push_then_pop_gives_item_back (self : Stack T) (item : T) :
  snd (push self item)
  = negb (is_full self && negb (bool_decide (_max_size self = Some 0)))
  /\ (if snd (push self item)
      then peek (fst (push self item)) = Ok item
           /\ pop (fst (push self item)) = Ok (self, item)
           /\ to_list (fst (push self item)) = item :: to_list self
           /\ Stack_size (fst (push self item)) = Stack_size self + 1
      else fst (push self item) = self).
Proof.
  destruct self as [items [m|]]; unfold push, is_full, max_size_set;
    cbn [_items _max_size].
  - destruct (Z.eqb_spec m 0) as [->|Hm]; cbn [negb andb].
    + rewrite bool_decide_true by done. rewrite andb_false_r. cbn.
      unfold peek, pop, to_list, Stack_size. cbn [_items _max_size].
      rewrite last_snoc, removelast_last, rev_unit, length_app. cbn.
      repeat split; try done. lia.
    + rewrite bool_decide_false by congruence. rewrite andb_true_r.
      destruct (m <=? Z.of_nat (length items)); cbn; [done|].
      unfold peek, pop, to_list, Stack_size. cbn [_items _max_size].
      rewrite last_snoc, removelast_last, rev_unit, length_app. cbn.
      repeat split; try done. lia.
  - cbn. unfold peek, pop, to_list, Stack_size. cbn [_items _max_size].
    rewrite last_snoc, removelast_last, rev_unit, length_app. cbn.
    repeat split; try done. lia.
Qed.

End Stack.

(** ** The undo/redo manager *)

Section Manager.

Context {S : Type}.

Inductive op : Type :=
| Record (action : Action S)
| Undo
| Redo
| BeginBatch
| EndBatch (description : string)
| CancelBatch.

(** The manager after an operation; [undo] and [redo] that raise leave it
    as it is. *)
Definition step (o : op) (m : UndoRedoManager S) : UndoRedoManager S :=
  match o with
  | Record a => record_action m a
  | Undo => match undo m with Ok (m', _) => m' | Raise _ => m end
  | Redo => match redo m with Ok (m', _) => m' | Raise _ => m end
  | BeginBatch => begin_batch m
  | EndBatch d => end_batch m d
  | CancelBatch => cancel_batch m
  end.

Definition run (ops : list op) (m : UndoRedoManager S) : UndoRedoManager S :=
  foldl (fun m o => step o m) m ops.

(** Both stacks have the bound [max_history], and together they never
    hold more than a positive bound, so that the pushes of [undo] and
    [redo] are accepted. *)
Definition within_history (m : UndoRedoManager S) : Prop :=
  _max_size (_undo_stack m) = Some (_max_history m)
  /\ _max_size (_redo_stack m) = Some (_max_history m)
  /\ (_max_history m < 0 ->
      _items (_undo_stack m) = [] /\ _items (_redo_stack m) = [])
  /\ (0 < _max_history m ->
      Z.of_nat (length (_items (_undo_stack m)))
      + Z.of_nat (length (_items (_redo_stack m))) <= _max_history m).

Lemma push_bound {T} (s : Stack T) (x : T) :
  _max_size (fst (push s x)) = _max_size s.
Proof. unfold push. by destruct (_ && _). Qed.

Lemma push_items {T} (s : Stack T) (x : T) (m : Z) :
  _max_size s = Some m ->
  _items (fst (push s x))
  = if negb (m =? 0) && (m <=? Z.of_nat (length (_items s)))
    then _items s else _items s ++ [x].
Proof.
  intros E. unfold push, max_size_set. rewrite E.
  by destruct (_ && _).
Qed.

Lemma pop_inv {T} (s s' : Stack T) (x : T) :
  pop s = Ok (s', x) ->
  _items s = _items s' ++ [x] /\ _max_size s' = _max_size s.
Proof.
  unfold pop. destruct (last (_items s)) as [y|] eqn:E; [|discriminate].
  intros [= <- <-]. cbn [_items _max_size]. split; [|done].
  destruct (_items s) as [|z zs] using rev_ind; [done|].
  rewrite last_snoc in E. injection E as ->. by rewrite removelast_last.
Qed.

Lemma pop_nonempty {T} (s : Stack T) :
  is_empty s = false -> exists s' x, pop s = Ok (s', x).
Proof.
  unfold is_empty, pop. destruct (_items s) as [|z zs] using rev_ind.
  - cbn. discriminate.
  - rewrite last_snoc. eauto.
Qed.

Lemma step_within_history (o : op) (m : UndoRedoManager S) :
  within_history m -> within_history (step o m).
Proof.
  intros (Hu & Hr & Hneg & Hpos). unfold within_history.
  destruct o as [a| | | |d|]; cbn [step].
  - (* record_action *)
    unfold record_action. destruct (_batch_mode m); [done|].
    cbn [_undo_stack _redo_stack _max_history clear _items _max_size].
    rewrite push_bound, (push_items _ _ _ Hu).
    split; [done|]. split; [done|]. split.
    + intros H. destruct (Hneg H) as (E1 & _). rewrite E1. cbn [length].
      change (Z.of_nat 0) with 0.
      replace (_max_history m =? 0) with false by (symmetry; apply Z.eqb_neq; lia).
      replace (_max_history m <=? 0) with true by (symmetry; apply Z.leb_le; lia).
      done.
    + intros H. specialize (Hpos H).
      replace (_max_history m =? 0) with false by (symmetry; apply Z.eqb_neq; lia).
      cbn [negb andb].
      destruct (Z.leb_spec (_max_history m) (Z.of_nat (length (_items (_undo_stack m)))));
        [cbn; lia|]. rewrite length_app. cbn. lia.
  - (* undo *)
    unfold undo, can_undo.
    destruct (is_empty (_undo_stack m)) eqn:Ee; cbn [negb]; [done|].
    destruct (pop_nonempty _ Ee) as (u' & a & Ep). rewrite Ep. cbn [rbind].
    apply pop_inv in Ep as (Ei & Eb).
    cbn [_undo_stack _redo_stack _max_history].
    rewrite push_bound, (push_items _ _ _ Hr).
    split; [congruence|]. split; [done|]. split.
    + intros H. destruct (Hneg H) as (E1 & _). rewrite E1 in Ei.
      by destruct (_items u').
    + intros H. specialize (Hpos H). rewrite Ei, length_app in Hpos.
      cbn [length] in Hpos.
      replace (_max_history m =? 0) with false by (symmetry; apply Z.eqb_neq; lia).
      cbn [negb andb].
      replace (_max_history m <=? Z.of_nat (length (_items (_redo_stack m))))
        with false by (symmetry; apply Z.leb_gt; lia).
      rewrite length_app. cbn. lia.
  - (* redo *)
    unfold redo, can_redo.
    destruct (is_empty (_redo_stack m)) eqn:Ee; cbn [negb]; [done|].
    destruct (pop_nonempty _ Ee) as (r' & a & Ep). rewrite Ep. cbn [rbind].
    apply pop_inv in Ep as (Ei & Eb).
    cbn [_undo_stack _redo_stack _max_history].
    rewrite push_bound, (push_items _ _ _ Hu).
    split; [done|]. split; [congruence|]. split.
    + intros H. destruct (Hneg H) as (_ & E1). rewrite E1 in Ei.
      by destruct (_items r').
    + intros H. specialize (Hpos H). rewrite Ei, length_app in Hpos.
      cbn [length] in Hpos.
      replace (_max_history m =? 0) with false by (symmetry; apply Z.eqb_neq; lia).
      cbn [negb andb].
      replace (_max_history m <=? Z.of_nat (length (_items (_undo_stack m))))
        with false by (symmetry; apply Z.leb_gt; lia).
      rewrite length_app. cbn. lia.
  - done.
  - (* end_batch *)
    unfold end_batch. destruct (_batch_mode m); cbn [negb]; [|done].
    destruct (_batch_actions m) as [|b bs]; [done|].
    cbn [_undo_stack _redo_stack _max_history clear _items _max_size].
    rewrite push_bound, (push_items _ _ _ Hu).
    split; [done|]. split; [done|]. split.
    + intros H. destruct (Hneg H) as (E1 & _). rewrite E1. cbn [length].
      change (Z.of_nat 0) with 0.
      replace (_max_history m =? 0) with false by (symmetry; apply Z.eqb_neq; lia).
      replace (_max_history m <=? 0) with true by (symmetry; apply Z.leb_le; lia).
      done.
    + intros H. specialize (Hpos H).
      replace (_max_history m =? 0) with false by (symmetry; apply Z.eqb_neq; lia).
      cbn [negb andb].
      destruct (Z.leb_spec (_max_history m) (Z.of_nat (length (_items (_undo_stack m)))));
        [cbn; lia|]. rewrite length_app. cbn. lia.
  - done.
Qed.

Lemma run_within_history (ops : list op) (m : UndoRedoManager S) :
  within_history m -> within_history (run ops m).
Proof.
  revert m. induction ops as [|o ops IH]; intros m Hm; [done|].
  cbn. apply IH. by apply step_within_history.
Qed.

Lemma init_within_history (max_history : Z) :
  within_history (UndoRedoManager_init (S := S) max_history).
Proof. unfold within_history. cbn. repeat split; lia. Qed.

(** X14. After any recordings, undos, redos and batches on a new manager,
    [undo] does not raise; when it returns an action, the [redo] that
    follows returns the same action and the manager is again what it was
    before the [undo]; when it returns [None] nothing can be undone and
    the manager is unchanged. *)
Theorem redo_restores_what_undo_took (max_history : Z) (ops : list op) :
  match undo (run ops (UndoRedoManager_init max_history)) with
  | Ok (m1, Some a) =>
      redo m1 = Ok (run ops (UndoRedoManager_init max_history), Some a)
  | Ok (m1, None) =>
      m1 = run ops (UndoRedoManager_init max_history)
      /\ can_undo m1 = false
  | Raise _ => False
  end.
Proof.
  pose proof (run_within_history ops _ (init_within_history max_history))
    as (Hu & Hr & Hneg & Hpos).
  set (m := run ops (UndoRedoManager_init max_history)) in *.
  unfold undo. unfold can_undo at 1.
  destruct (is_empty (_undo_stack m)) eqn:Ee; cbn [negb].
  { split; [done|]. unfold can_undo. by rewrite Ee. }
  destruct (pop_nonempty _ Ee) as (u' & a & Ep). rewrite Ep. cbn [rbind].
  pose proof Ep as (Ei & Eb)%pop_inv.
  assert (Hmax : ~ _max_history m < 0).
  { intros H. destruct (Hneg H) as (E1 & _). rewrite E1 in Ei.
    by destruct (_items u'). }
  (* the push onto the redo stack is accepted *)
  assert (Hpush : push (_redo_stack m) a
                  = (mkStack (_items (_redo_stack m) ++ [a])
                             (_max_size (_redo_stack m)), true)).
  { unfold push, max_size_set. rewrite Hr.
    destruct (Z.eqb_spec (_max_history m) 0) as [E0|E0]; [done|].
    cbn [negb andb].
    assert (0 < _max_history m) as H by lia. specialize (Hpos H).
    rewrite Ei, length_app in Hpos. cbn [length] in Hpos.
    by replace (_max_history m <=? Z.of_nat (length (_items (_redo_stack m))))
      with false by (symmetry; apply Z.leb_gt; lia). }
  rewrite Hpush. cbn [fst].
  unfold redo, can_redo, is_empty.
  cbn [_redo_stack _undo_stack _max_history _batch_mode _batch_actions _items].
  rewrite length_app. cbn [length].
  replace (Z.of_nat (length (_items (_redo_stack m)) + 1) =? 0) with false
    by (symmetry; apply Z.eqb_neq; lia).
  cbn [negb]. unfold pop. cbn [_items _max_size].
  rewrite last_snoc, removelast_last. cbn [rbind].
  (* the push back onto the undo stack is accepted *)
  assert (Hback : push u' a = (_undo_stack m, true)).
  { unfold push, max_size_set. rewrite Eb, Hu.
    destruct (_undo_stack m) as [items bound] eqn:Es.
    cbn [_items _max_size] in *. subst items bound.
    destruct (Z.eqb_spec (_max_history m) 0) as [E0|E0]; [done|].
    cbn [negb andb].
    assert (0 < _max_history m) as H by lia. specialize (Hpos H).
    rewrite length_app in Hpos. cbn [length] in Hpos.
    by replace (_max_history m <=? Z.of_nat (length (_items u')))
      with false by (symmetry; apply Z.leb_gt; lia). }
  rewrite Hback. cbn [fst].
  do 2 f_equal. destruct m as [us rs mh bm ba]. cbn.
  by destruct rs.
Qed.

(** X15. A batch is one entry: after [begin_batch], the recording of some
    actions and [end_batch], the undo stack got one [BATCH] action whose
    old state lists the recorded actions in order (when the stack accepts
    it) and the redo stack is empty. A batch in which nothing was recorded
    adds no entry and keeps the redo stack. *)
Theorem batch_is_one_entry (m : UndoRedoManager S) (actions : list (Action S))
    (description : string) :
  let m' := end_batch (foldl record_action (begin_batch m) actions)
                      description in
  _batch_mode m' = false
  /\ _batch_actions m' = []
  /\ match actions with
     | [] => _undo_stack m' = _undo_stack m /\ _redo_stack m' = _redo_stack m
     | _ :: _ =>
         _undo_stack m'
         = fst (push (_undo_stack m)
                  (mkAction BATCH "batch" None (PActions actions) PNone
                            description))
         /\ _items (_redo_stack m') = []
     end.
Proof.
  assert (H : forall (acts : list (Action S)) (m0 : UndoRedoManager S),
            _batch_mode m0 = true ->
            foldl record_action m0 acts
            = mkManager (_undo_stack m0) (_redo_stack m0) (_max_history m0)
                        true (_batch_actions m0 ++ acts)).
  { induction acts as [|a acts IH]; intros m0 Hb.
    - rewrite app_nil_r. destruct m0; cbn in *. by subst.
    - cbn [foldl]. rewrite IH.
      + unfold record_action. rewrite Hb. cbn. by rewrite <- app_assoc.
      + unfold record_action. by rewrite Hb. }
  cbv zeta. rewrite H by done. cbn [begin_batch _undo_stack _redo_stack
    _max_history _batch_actions app].
  unfold end_batch. cbn [_batch_mode negb _batch_actions].
  destruct actions as [|a acts]; cbn; done.
Qed.

End Manager.

End StackQueueMore.

(** * The circular queue *)

Module CircularQueueProofs.

Import Queues.CircularQueue.

Section WithItem.

Context {T : Type}.

Inductive op : Type :=
| Enqueue (item : T)
| Dequeue
| Front.

(** What a call gives back. *)
Inductive answer : Type :=
| Accepted
| Refused
| Item (x : option T)
| Error (e : raised).

(** A call on the circular queue. The one exception that the calls below
    meet is the one of the emptiness test, which is raised before anything
    is assigned. *)
Definition call (q : t T) (o : op) : answer * t T :=
  match o with
  | Enqueue x =>
      match enqueue q x with
      | Returns (q', true) => (Accepted, q')
      | Returns (q', false) => (Refused, q')
      | Raises e => (Error e, q)
      end
  | Dequeue =>
      match dequeue q with
      | Returns (q', item) => (Item item, q')
      | Raises e => (Error e, q)
      end
  | Front =>
      match front q with
      | Returns item => (Item item, q)
      | Raises e => (Error e, q)
      end
  end.

Fixpoint answers (q : t T) (ops : list op) : list answer :=
  match ops with
  | [] => []
  | o :: ops' => (call q o).1 :: answers (call q o).2 ops'
  end.

(** The same calls on a plain list that holds at most [capacity] items,
    oldest first. *)
Definition fifo_call (capacity : Z) (items : list T) (o : op)
  : answer * list T :=
  match o with
  | Enqueue x =>
      if Z.of_nat (length items) =? capacity then (Refused, items)
      else (Accepted, items ++ [x])
  | Dequeue =>
      match items with
      | [] => (Error IndexError, items)
      | x :: rest => (Item (Some x), rest)
      end
  | Front =>
      match items with
      | [] => (Error IndexError, items)
      | x :: _ => (Item (Some x), items)
      end
  end.

Fixpoint fifo_answers (capacity : Z) (items : list T) (ops : list op)
  : list answer :=
  match ops with
  | [] => []
  | o :: ops' =>
      (fifo_call capacity items o).1
      :: fifo_answers capacity (fifo_call capacity items o).2 ops'
  end.

Lemma mod_wrap (a cap : Z) :
  0 < cap -> 0 <= a < 2 * cap ->
  a mod cap = if a <? cap then a else a - cap.
Proof.
  intros Hc Ha. destruct (Z.ltb_spec a cap) as [H|H].
  - apply Z.mod_small. lia.
  - replace a with (a - cap + 1 * cap) at 1 by lia.
    rewrite Z.mod_add by lia. apply Z.mod_small. lia.
Qed.

(** The cell of the [j]-th oldest item. *)
Definition cell (q : t T) (j : nat) : nat :=
  Z.to_nat ((_front q + Z.of_nat j) mod _capacity q).

(** The circular queue [q] holds the items [items], oldest first. *)
Definition holds (q : t T) (items : list T) : Prop :=
  0 < _capacity q
  /\ Z.of_nat (length (_items q)) = _capacity q
  /\ 0 <= _front q < _capacity q
  /\ _size q = Z.of_nat (length items)
  /\ _size q <= _capacity q
  /\ (_rear q + 1) mod _capacity q = (_front q + _size q) mod _capacity q
  /\ forall j x, items !! j = Some x -> _items q !! cell q j = Some (Some x).

Lemma holds_init (capacity : Z) : 0 < capacity -> holds (init capacity) [].
Proof.
  intros Hc. unfold holds, init. cbn.
  rewrite length_replicate. repeat split; try lia. done.
Qed.

Lemma position_inside (n : nat) (i : Z) :
  0 <= i < Z.of_nat n -> position n i = Some (Z.to_nat i).
Proof.
  intros H. unfold position.
  replace (0 <=? i) with true by (symmetry; apply Z.leb_le; lia).
  by replace (i <? Z.of_nat n) with true by (symmetry; apply Z.ltb_lt; lia).
Qed.

Ltac split_ltb :=
  repeat match goal with
         | |- context [?a <? ?b] => destruct (Z.ltb_spec a b)
         end.

Lemma call_holds (q : t T) (items : list T) (o : op) :
  holds q items ->
  (call q o).1 = (fifo_call (_capacity q) items o).1
  /\ holds (call q o).2 (fifo_call (_capacity q) items o).2
  /\ _capacity (call q o).2 = _capacity q.
Proof.
  intros (Hc & Hlen & Hf & Hsz & Hle & Hr & Hitems).
  destruct o as [x| |]; cbn [call fifo_call].
  - (* enqueue *)
    unfold enqueue, is_full. rewrite Hsz.
    destruct (Z.eqb_spec (Z.of_nat (length items)) (_capacity q)) as [E|E].
    { cbn [fst snd]. split; [done|]. split; [|done].
      unfold holds. repeat split; auto; lia. }
    unfold py_mod.
    replace (_capacity q =? 0) with false by (symmetry; apply Z.eqb_neq; lia).
    rewrite Hr, Hsz.
    assert (Hw : (_front q + Z.of_nat (length items)) mod _capacity q
                 = if _front q + Z.of_nat (length items) <? _capacity q
                   then _front q + Z.of_nat (length items)
                   else _front q + Z.of_nat (length items) - _capacity q)
      by (apply mod_wrap; lia).
    set (rear' := (_front q + Z.of_nat (length items)) mod _capacity q) in *.
    assert (Hrear : 0 <= rear' < _capacity q)
      by (apply Z.mod_pos_bound; lia).
    rewrite position_inside by lia. cbn [fst snd].
    split; [done|]. split; [|done].
    unfold holds. cbn [_capacity _items _front _rear _size].
    rewrite length_insert, length_app. cbn [length].
    split; [done|]. split; [done|]. split; [done|]. split; [lia|].
    split; [lia|]. split.
    { unfold rear'. rewrite Z.add_mod_idemp_l by lia. f_equal. lia. }
    intros j y Hj. unfold cell. cbn [_front _capacity].
    apply lookup_app_Some in Hj as [Hj|(Hj1 & Hj2)].
    + pose proof (lookup_lt_Some _ _ _ Hj) as Hjl.
      rewrite list_lookup_insert_ne; [by apply Hitems|].
      rewrite (mod_wrap (_front q + Z.of_nat j)) by lia.
      rewrite Hw. split_ltb; lia.
    + assert (j = length items) as ->.
      { apply lookup_lt_Some in Hj2. cbn in Hj2. lia. }
      rewrite Nat.sub_diag in Hj2. injection Hj2 as ->.
      fold rear'. apply list_lookup_insert_eq. lia.
  - (* dequeue *)
    unfold dequeue, is_empty. rewrite Hsz.
    destruct items as [|x rest]; [done|].
    replace (Z.of_nat (length (x :: rest)) =? 0) with false
      by (symmetry; apply Z.eqb_neq; cbn [length]; lia).
    rewrite position_inside by lia.
    pose proof (Hitems 0%nat x eq_refl) as H0. unfold cell in H0.
    rewrite Z.add_0_r, Z.mod_small in H0 by lia. rewrite H0.
    unfold py_mod.
    replace (_capacity q =? 0) with false by (symmetry; apply Z.eqb_neq; lia).
    cbn [default fst snd]. split; [done|]. split; [|done].
    assert (Hw : (_front q + 1) mod _capacity q
                 = if _front q + 1 <? _capacity q
                   then _front q + 1 else _front q + 1 - _capacity q)
      by (apply mod_wrap; lia).
    unfold holds. cbn [_capacity _items _front _rear _size length] in *.
    rewrite length_insert.
    split; [done|]. split; [done|].
    split. { rewrite Hw. split_ltb; lia. }
    split; [lia|]. split; [lia|]. split.
    { rewrite Hr, Z.add_mod_idemp_l by lia. f_equal. lia. }
    intros j y Hj. unfold cell. cbn [_front _capacity].
    pose proof (lookup_lt_Some _ _ _ Hj) as Hjl.
    rewrite Z.add_mod_idemp_l by lia.
    replace (_front q + 1 + Z.of_nat j) with (_front q + Z.of_nat (S j)) by lia.
    rewrite list_lookup_insert_ne; [by apply (Hitems (S j))|].
    rewrite (mod_wrap (_front q + Z.of_nat (S j))) by lia.
    split_ltb; lia.
  - (* front *)
    unfold front, is_empty. rewrite Hsz.
    destruct items as [|x rest].
    { simpl. split; [done|]. split; [|done].
      unfold holds. repeat split; auto; lia. }
    replace (Z.of_nat (length (x :: rest)) =? 0) with false
      by (symmetry; apply Z.eqb_neq; cbn [length]; lia).
    rewrite position_inside by lia.
    pose proof (Hitems 0%nat x eq_refl) as H0. unfold cell in H0.
    rewrite Z.add_0_r, Z.mod_small in H0 by lia. rewrite H0.
    cbn [default fst snd]. split; [done|]. split; [|done].
    unfold holds. repeat split; auto; lia.
Qed.

Lemma answers_holds (ops : list op) (q : t T) (items : list T) :
  holds q items -> answers q ops = fifo_answers (_capacity q) items ops.
Proof.
  revert q items. induction ops as [|o ops IH]; intros q items Hq; [done|].
  cbn [answers fifo_answers].
  destruct (call_holds q items o Hq) as (E1 & Hq' & Ec).
  rewrite E1. f_equal. rewrite (IH _ _ Hq'). by rewrite Ec.
Qed.

(** X16. A circular queue of a capacity of at least one answers every
    sequence of [enqueue], [dequeue] and [front] calls as a first-in
    first-out list bounded by the capacity does: [enqueue] is refused
    exactly when [capacity] items are held, [dequeue] and [front] give the
    oldest item and raise [IndexError] when nothing is held. *)
Theorem circular_queue_is_bounded_fifo (capacity : Z) (ops : list op) :
  0 < capacity ->
  answers (init capacity) ops = fifo_answers capacity [] ops.
Proof.
  intros Hc. by rewrite (answers_holds ops _ [] (holds_init _ Hc)).
Qed.

End WithItem.

(** Capacity 2: three items offered, the third refused, both taken out,
    and one more [dequeue]. *)
Definition wrap_around : list (op (T := string)) :=
  [Enqueue "a"; Enqueue "b"; Enqueue "c"; Dequeue; Enqueue "d"; Front;
   Dequeue; Dequeue; Dequeue].

Lemma circular_queue_is_bounded_fifo_witness :
  answers (init 2) wrap_around = fifo_answers 2 [] wrap_around.
Proof. apply (circular_queue_is_bounded_fifo 2 wrap_around). lia. Defined.

End CircularQueueProofs.

(** * Merge sort *)

Module SortingProofs.

Import Sorting.

Section WithKey.

Context {A K : Type} (key : A -> K) (le : K -> K -> bool).

(** The order on keys is total and transitive. *)
Definition total_preorder : Prop :=
  (forall a b, le a b = true \/ le b a = true)
  /\ (forall a b c, le a b = true -> le b c = true -> le a c = true).

(** [a] may come before [b] in the result. *)
Definition before (reverse : bool) (a b : A) : Prop :=
  should_take_left le reverse (key a) (key b) = true.

Lemma before_total reverse a b :
  total_preorder -> before reverse a b \/ before reverse b a.
Proof.
  intros (Ht & _). unfold before, should_take_left.
  destruct reverse; [destruct (Ht (key b) (key a))|destruct (Ht (key a) (key b))];
    auto.
Qed.

Lemma before_trans reverse a b c :
  total_preorder -> before reverse a b -> before reverse b c ->
  before reverse a c.
Proof.
  intros (_ & Htr). unfold before, should_take_left.
  destruct reverse; eauto.
Qed.

Lemma merge_nil_r reverse (left : list A) : _merge key le reverse left [] = left.
Proof. by destruct left. Qed.

Lemma merge_cons reverse x (left : list A) y right :
  _merge key le reverse (x :: left) (y :: right)
  = if should_take_left le reverse (key x) (key y)
    then x :: _merge key le reverse left (y :: right)
    else y :: _merge key le reverse (x :: left) right.
Proof. reflexivity. Qed.

Lemma merge_perm reverse (left right : list A) :
  _merge key le reverse left right ≡ₚ left ++ right.
Proof.
  revert right. induction left as [|x left IHl]; intros right; [done|].
  induction right as [|y right IHr].
  { by rewrite merge_nil_r, app_nil_r. }
  rewrite merge_cons. destruct (should_take_left _ _ _ _).
  - cbn. by rewrite IHl.
  - rewrite IHr. by rewrite <- Permutation_middle.
Qed.

Lemma merge_sorted reverse (left right : list A) :
  total_preorder ->
  StronglySorted (before reverse) left ->
  StronglySorted (before reverse) right ->
  StronglySorted (before reverse) (_merge key le reverse left right).
Proof.
  intros Hord Hl. revert right.
  induction Hl as [|x left Hl IHl Fx]; intros right Hr; [done|].
  induction Hr as [|y right Hr IHr Fy].
  { rewrite merge_nil_r. by constructor. }
  rewrite merge_cons.
  destruct (should_take_left le reverse (key x) (key y)) eqn:E.
  - constructor; [apply IHl; by constructor|].
    rewrite merge_perm. apply Forall_app. split; [done|].
    apply Forall_cons. split; [done|].
    eapply Forall_impl; [exact Fy|]. intros z Hz.
    by eapply before_trans.
  - assert (Hyx : before reverse y x).
    { destruct (before_total reverse x y Hord) as [H|H]; [|done].
      unfold before in H. congruence. }
    constructor; [exact IHr|].
    rewrite merge_perm. apply Forall_app. split; [|done].
    apply Forall_cons. split; [done|].
    eapply Forall_impl; [exact Fx|]. intros z Hz.
    by eapply before_trans.
Qed.

(** Elements picked by [p] keep their order in a merge, when an element of
    the right list picked by [p] never has to come strictly before one of
    the left list picked by [p]. *)
Lemma merge_filter reverse (p : A -> bool) (left right : list A) :
  total_preorder ->
  (forall a b, p a = true -> p b = true -> before reverse a b) ->
  StronglySorted (before reverse) left ->
  List.filter p (_merge key le reverse left right)
  = List.filter p left ++ List.filter p right.
Proof.
  intros Hord Hp Hl. revert right.
  induction Hl as [|x left Hl IHl Fx]; intros right; [done|].
  induction right as [|y right IHr].
  { by rewrite merge_nil_r, app_nil_r. }
  rewrite merge_cons.
  destruct (should_take_left le reverse (key x) (key y)) eqn:E.
  - cbn [List.filter]. rewrite IHl. by destruct (p x).
  - cbn [List.filter]. rewrite IHr. cbn [List.filter].
    destruct (p y) eqn:Ey; [|done].
    (* nothing on the left is picked: it would have to come after [y] *)
    assert (Hnone : List.filter p (x :: left) = []).
    { apply IntervalTreeProofs.filter_none. apply Forall_cons. split.
      - destruct (p x) eqn:Ex; [|done].
        pose proof (Hp x y Ex Ey) as H. unfold before in H. congruence.
      - eapply Forall_impl; [exact Fx|]. intros z Hz.
        destruct (p z) eqn:Ez; [|done].
        pose proof (before_trans _ _ _ _ Hord Hz (Hp z y Ez Ey)) as H.
        unfold before in H. congruence. }
    cbn [List.filter] in Hnone. by rewrite Hnone.
Qed.

Lemma mergesort_unfold reverse (arr : list A) :
  _mergesort key le reverse arr
  = if (length arr <=? 1)%nat then arr
    else _merge key le reverse
           (_mergesort key le reverse (take (length arr / 2) arr))
           (_mergesort key le reverse (drop (length arr / 2) arr)).
Proof.
  rewrite _mergesort_equation_1. unfold _mergesort_clause_1.
  destruct (le_lt_dec (length arr) 1) as [H|H].
  - by replace (length arr <=? 1)%nat with true
      by (symmetry; apply Nat.leb_le; lia).
  - by replace (length arr <=? 1)%nat with false
      by (symmetry; apply Nat.leb_gt; lia).
Qed.

Lemma mergesort_spec reverse (p : A -> bool) (arr : list A) :
  total_preorder ->
  (forall a b, p a = true -> p b = true -> before reverse a b) ->
  StronglySorted (before reverse) (_mergesort key le reverse arr)
  /\ _mergesort key le reverse arr ≡ₚ arr
  /\ List.filter p (_mergesort key le reverse arr) = List.filter p arr.
Proof.
  intros Hord Hp.
  induction arr as [arr IH] using (induction_ltof1 _ (@length A)).
  unfold ltof in IH. rewrite mergesort_unfold.
  destruct (Nat.leb_spec (length arr) 1) as [Hle|Hgt].
  { split; [|done]. destruct arr as [|a [|b arr]]; cbn in Hle; try lia.
    - constructor.
    - repeat constructor. }
  assert (Hmid : (0 < length arr / 2 < length arr)%nat).
  { split; [apply Nat.div_str_pos; lia|apply Nat.div_lt; lia]. }
  destruct (IH (take (length arr / 2) arr)) as (Hs1 & Hp1 & Hf1).
  { rewrite length_take. lia. }
  destruct (IH (drop (length arr / 2) arr)) as (Hs2 & Hp2 & Hf2).
  { rewrite length_drop. lia. }
  split; [by apply merge_sorted|]. split.
  - rewrite merge_perm, Hp1, Hp2. by rewrite take_drop.
  - rewrite merge_filter by done. rewrite Hf1, Hf2.
    by rewrite <- List.filter_app, take_drop.
Qed.

(** X17. For a total and transitive order on the keys, [mergesort] returns
    a rearrangement of its input in which the keys never decrease (never
    increase when [reverse] is set). *)
Theorem mergesort_sorts (reverse : bool) (arr : list A) :
  total_preorder ->
  StronglySorted (before reverse) (mergesort key le reverse arr)
  /\ mergesort key le reverse arr ≡ₚ arr.
Proof.
  intros Hord. unfold mergesort.
  destruct (Nat.leb_spec (length arr) 1) as [Hle|Hgt].
  - split; [|done]. destruct arr as [|a [|b arr]]; cbn in Hle; try lia.
    + constructor.
    + repeat constructor.
  - destruct (mergesort_spec reverse (fun _ => false) arr Hord) as (H1 & H2 & _);
      [discriminate|done].
Qed.

(** X18. [mergesort] is stable: elements that tie (each may come before
    the other) keep the order they had in the input. Stated for any
    selection [p] of elements that tie pairwise. *)
Theorem mergesort_is_stable (reverse : bool) (p : A -> bool) (arr : list A) :
  total_preorder ->
  (forall a b, p a = true -> p b = true -> before reverse a b) ->
  List.filter p (mergesort key le reverse arr) = List.filter p arr.
Proof.
  intros Hord Hp. unfold mergesort.
  destruct (length arr <=? 1)%nat; [done|].
  by destruct (mergesort_spec reverse p arr Hord Hp) as (_ & _ & H).
Qed.

End WithKey.

(** ** Rooms by capacity *)

(** (name, capacity) pairs, sorted by capacity. *)
Definition capacity_of (r : string * Z) : Z := r.2.

Definition sample_rooms : list (string * Z) :=
  [("A", 20); ("B", 10); ("C", 20); ("D", 5); ("E", 10)].

Lemma Z_leb_total_preorder : total_preorder Z.leb.
Proof.
  split.
  - intros a b. destruct (Z.leb_spec a b), (Z.leb_spec b a); auto; lia.
  - intros a b c H1%Z.leb_le H2%Z.leb_le. apply Z.leb_le. lia.
Qed.

Lemma mergesort_sorts_witness :
  StronglySorted (before capacity_of Z.leb true)
                 (mergesort capacity_of Z.leb true sample_rooms)
  /\ mergesort capacity_of Z.leb true sample_rooms ≡ₚ sample_rooms.
Proof.
  apply (mergesort_sorts capacity_of Z.leb true sample_rooms).
  exact Z_leb_total_preorder.
Defined.

Lemma mergesort_is_stable_witness :
  List.filter (fun r => capacity_of r =? 20)
              (mergesort capacity_of Z.leb false sample_rooms)
  = List.filter (fun r => capacity_of r =? 20) sample_rooms.
Proof.
  apply (mergesort_is_stable capacity_of Z.leb false
           (fun r => capacity_of r =? 20) sample_rooms).
  - exact Z_leb_total_preorder.
  - intros a b Ha%Z.eqb_eq Hb%Z.eqb_eq. unfold before, should_take_left.
    apply Z.leb_le. lia.
Defined.

End SortingProofs.

(** * More of the reservation system *)

Module ReservationSystemMore.

Import IntervalTree IntervalTreeProofs.
Import StackQueue ReservationSystem ReservationSystemProofs.

(** ** Calls that are refused *)

(** A call that reports a refusal: [False], or [(False, message)]. For
    [update_reservation] only the refusal of an unknown id is meant; the
    refusal after a conflict has already rewritten the interval index. *)
Definition refused (c : call) (s : t) : Prop :=
  match c with
  | AddRoom room => outcome (add_room room) s = Ok false
  | UpdateRoom i kwargs => outcome (update_room i kwargs) s = Ok false
  | DeleteRoom i => outcome (delete_room i) s = Ok false
  | CreateReservation r =>
      exists msg, outcome (create_reservation r) s = Ok (false, msg)
  | UpdateReservation now i kwargs =>
      outcome (update_reservation now i kwargs) s
      = Ok (false, "Rezervasyon bulunamadı")
  | CancelReservation now i =>
      exists msg, outcome (cancel_reservation now i) s = Ok (false, msg)
  | DeleteReservation i => outcome (delete_reservation i) s = Ok false
  end.

(** X19. A call that reports a refusal has changed nothing: [add_room],
    [update_room], [delete_room] and [delete_reservation] that return
    [False], [create_reservation] and [cancel_reservation] that return
    [(False, message)], and [update_reservation] that reports an unknown
    id, leave the system in the state they found, whatever that state
    is. *)
Theorem refused_call_changes_nothing (c : call) (s : t) :
  refused c s -> step c s = s.
Proof.
  destruct c as [room|i kwargs|i|r|now i kwargs|now i|i]; cbn [refused step].
  - unfold outcome, exec, add_room. mstep. destruct s; cbn in *.
    destruct (decide _); [done|]. cbn.
    destruct (AVLTree.insert _ _ _ _); cbn; done.
  - unfold outcome, exec, update_room. mstep. destruct s; cbn in *.
    destruct (truthy _); cbn [negb]; [|done].
    destruct (AVLTree.search _ _ _); cbn; done.
  - unfold outcome, exec, delete_room. mstep. destruct s; cbn in *.
    destruct (truthy _); cbn [negb]; [|done].
    destruct (match _ !! i with Some _ => _ | None => _ end); [done|].
    destruct (AVLTree.search _ _ _); cbn; try done.
    destruct (decide _); [done|]. cbn.
    destruct (AVLTree.delete _ _ _); cbn; [|done].
    destruct (decide _); done.
  - intros (msg & H). revert H.
    unfold outcome, exec, create_reservation. mstep. destruct s; cbn in *.
    destruct (truthy _); cbn [negb]; [|done].
    destruct (AVLTree.search _ _ _); cbn; try done.
    destruct (Room.is_active _); cbn [negb]; [|done].
    destruct (_ <? _); [done|].
    match goal with
    | |- context [?m !! Reservation.room_id r] =>
        destruct (m !! Reservation.room_id r) as [tree|] eqn:Hroom
    end; mstep; cbn.
    + destruct (Interval_init _ _ None) as [q|]; cbn; [|done].
      destruct (conflict_filter _ _ _); [|done]. cbn.
      destruct (AVLTree.insert _ _ _ _); cbn; [|done].
      destruct (Interval_init _ _ (Some _)); cbn; [|done].
      cbn in Hroom. rewrite Hroom. destruct (IntervalTree.insert _ _); cbn; done.
    + destruct (AVLTree.insert _ _ _ _); cbn; [|done].
      destruct (Interval_init _ _ (Some _)); cbn; [|done].
      cbn in Hroom. rewrite Hroom. done.
  - unfold outcome, exec, update_reservation. mstep. destruct s; cbn in *.
    destruct (truthy _); cbn [negb]; [|done].
    destruct (AVLTree.search _ _ _); cbn; try done.
    destruct (Interval_init _ _ _); cbn; [|done].
    destruct (_ !! _); cbn; [|done].
    destruct (IntervalTree.delete _ _); cbn; [|done].
    match goal with
    | |- context [(if touches_timing kwargs then ?m else ?m') ?s0] =>
        destruct ((if touches_timing kwargs then m else m') s0)
          as [[conflicts|e] s1]
    end; [|done].
    destruct conflicts; cbn.
    + destruct (Interval_init _ _ _); cbn; [|done].
      destruct (_ !! _); cbn; [|done].
      destruct (IntervalTree.insert _ _); cbn; done.
    + destruct (_ !! _); cbn; [|done].
      destruct (IntervalTree.insert _ _); cbn; done.
  - intros (msg & H). revert H.
    unfold outcome, exec, cancel_reservation. mstep. destruct s; cbn in *.
    destruct (truthy _); cbn [negb]; [|done].
    destruct (AVLTree.search _ _ _); cbn; try done.
    destruct (decide _); [done|]. cbn.
    destruct (Interval_init _ _ _); cbn; [|done].
    destruct (_ !! _); cbn; [|done].
    destruct (IntervalTree.delete _ _); cbn; done.
  - unfold outcome, exec, delete_reservation. mstep. destruct s; cbn in *.
    destruct (truthy _); cbn [negb]; [|done].
    destruct (AVLTree.search _ _ _); cbn; try done.
    destruct (Interval_init _ _ _); cbn; [|done].
    destruct (_ !! _); cbn; [|done].
    destruct (IntervalTree.delete _ _); cbn; [|done].
    destruct (decide _); [done|]. cbn.
    destruct (AVLTree.delete _ _ _); cbn; done.
Qed.

(** Room R1 is added a second time. *)
Lemma refused_call_changes_nothing_witness :
  step (AddRoom R1) with_room = with_room.
Proof.
  apply (refused_call_changes_nothing (AddRoom R1) with_room).
  vm_compute. reflexivity.
Defined.

(** ** States reached by calls *)











(** ** Accepted bookings *)










(** ** Undo of an accepted booking *)



























End ReservationSystemMore.

(** * The task queue *)

Module TaskQueueProofs.

Import Queues Queues.TaskQueue.

Section WithTask.

Context {Task : Type}.

Inductive op : Type :=
| AddTask (task : Task)
| GetNextTask
| CompleteCurrentTask
| CancelCurrentTask.

(** The queue after an operation; [get_next_task] that raises leaves it as
    it is. *)
Definition step (o : op) (self : t Task) : t Task :=
  match o with
  | AddTask task => fst (add_task self task)
  | GetNextTask =>
      match get_next_task self with
      | Ok p => fst p
      | Raise _ => self
      end
  | CompleteCurrentTask => fst (complete_current_task self)
  | CancelCurrentTask => fst (cancel_current_task self)
  end.

(** What the operation hands back: the flag of [add_task] or the task of
    the other three; [None] also stands for a raised exception. *)
Definition answer (o : op) (self : t Task) : option (bool + option Task) :=
  match o with
  | AddTask task => Some (inl (snd (add_task self task)))
  | GetNextTask =>
      match get_next_task self with
      | Ok p => Some (inr (snd p))
      | Raise _ => None
      end
  | CompleteCurrentTask => Some (inr (snd (complete_current_task self)))
  | CancelCurrentTask => Some (inr (snd (cancel_current_task self)))
  end.

Fixpoint run (ops : list op) (self : t Task) : t Task :=
  match ops with
  | [] => self
  | o :: ops' => run ops' (step o self)
  end.

(** The next task is asked for only when none is being processed. *)
Fixpoint one_at_a_time (ops : list op) (self : t Task) : Prop :=
  match ops with
  | [] => True
  | o :: ops' =>
      (o = GetNextTask -> is_processing self = false)
      /\ one_at_a_time ops' (step o self)
  end.

(** The tasks handed to [add_task], in the order of the calls. *)
Definition added (ops : list op) : list Task :=
  omap (fun o => match o with AddTask task => Some task | _ => None end) ops.

(** The tasks the queue knows: completed, being processed, pending. *)
Definition known (self : t Task) : list Task :=
  get_completed_tasks self ++ option_list (current_task self)
  ++ get_pending_tasks self.

Definition unbounded (self : t Task) : Prop :=
  Queue._max_size (_queue self) = None.

Lemma step_unbounded (o : op) (self : t Task) :
  unbounded self -> unbounded (step o self).
Proof.
  unfold unbounded. intros H.
  destruct o as [task| | |]; cbn [step].
  - unfold add_task, Queue.enqueue. rewrite H. done.
  - unfold get_next_task. destruct (Queue.is_empty _); [done|].
    unfold Queue.dequeue. by destruct (Queue._items _).
  - unfold complete_current_task. by destruct (_processing self).
  - unfold cancel_current_task. destruct (_processing self); [|done].
    cbn. unfold Queue.enqueue. rewrite H. done.
Qed.

Lemma step_known (o : op) (self : t Task) :
  unbounded self ->
  (o = GetNextTask -> is_processing self = false) ->
  known (step o self)
  ≡ₚ known self ++ match o with AddTask task => [task] | _ => [] end.
Proof.
  unfold unbounded, known, get_completed_tasks, current_task,
    get_pending_tasks, Queue.to_list, is_processing.
  intros H Hone. destruct self as [[items ms] processing completed].
  cbn in H. subst ms. destruct o as [task| | |]; cbn.
  - by rewrite !app_assoc.
  - rewrite app_nil_r. specialize (Hone eq_refl). cbn in Hone.
    destruct processing; [done|]. unfold get_next_task, Queue.is_empty.
    cbn. destruct items as [|x rest]; cbn; [done|].
    destruct (Z.eqb_spec (Z.pos (Pos.of_succ_nat (length rest))) 0); [lia|].
    cbn. done.
  - rewrite app_nil_r. destruct processing as [c|]; cbn; [|done].
    by rewrite <- app_assoc.
  - rewrite app_nil_r. destruct processing as [c|]; cbn; [|done].
    apply Permutation_app_head. symmetry. apply Permutation_cons_append.
Qed.

Lemma answer_returns (o : op) (self : t Task) :
  unbounded self ->
  match o with
  | AddTask _ => answer o self = Some (inl true)
  | _ => exists task, answer o self = Some (inr task)
  end.
Proof.
  unfold unbounded. intros H. destruct o as [task| | |]; cbn [answer]; eauto.
  - unfold add_task, Queue.enqueue. rewrite H. done.
  - unfold get_next_task, Queue.is_empty, Queue.dequeue.
    destruct (Queue._items (_queue self)); cbn; eauto.
Qed.

(** Every call returns: [add_task] returns [True], the others a task or
    [None]. *)
Fixpoint all_answer (ops : list op) (self : t Task) : Prop :=
  match ops with
  | [] => True
  | o :: ops' =>
      match o with
      | AddTask _ => answer o self = Some (inl true)
      | _ => exists task, answer o self = Some (inr task)
      end
      /\ all_answer ops' (step o self)
  end.

Lemma run_known (ops : list op) (self : t Task) :
  unbounded self -> one_at_a_time ops self ->
  known (run ops self) ≡ₚ known self ++ added ops
  /\ all_answer ops self.
Proof.
  revert self. induction ops as [|o ops IH]; intros self Hu Hone.
  { cbn. by rewrite app_nil_r. }
  destruct Hone as (Ho & Hone). cbn [run all_answer].
  destruct (IH _ (step_unbounded o _ Hu) Hone) as (IH1 & IH2).
  split; [|split; [by apply answer_returns|done]].
  rewrite IH1, (step_known o self Hu Ho), <- app_assoc.
  apply Permutation_app_head. by destruct o.
Qed.

(** X26. On a task queue without a bound, along any sequence of
    [add_task], [get_next_task], [complete_current_task] and
    [cancel_current_task] calls in which [get_next_task] is called only
    when no task is being processed, no call raises, every [add_task]
    returns [True], and no task is lost or made up: the completed tasks,
    the task being processed and the pending tasks are, up to order, the
    tasks that were added. *)
Theorem task_queue_keeps_every_task (ops : list op) :
  one_at_a_time ops (init None) ->
  all_answer ops (init None)
  /\ get_completed_tasks (run ops (init None))
     ++ option_list (current_task (run ops (init None)))
     ++ get_pending_tasks (run ops (init None))
     ≡ₚ added ops.
Proof.
  intros Hone. destruct (run_known ops (init None) eq_refl Hone) as (H1 & H2).
  split; [done|]. exact H1.
Qed.

End WithTask.

(** Two tasks are added, the first is taken, put back and taken again
    after the second was completed. *)
Definition sample_tasks : list (op (Task := string)) :=
  [AddTask "a"; AddTask "b"; GetNextTask; CancelCurrentTask; GetNextTask;
   CompleteCurrentTask; GetNextTask].

Lemma task_queue_keeps_every_task_witness :
  all_answer sample_tasks (init None)
  /\ get_completed_tasks (run sample_tasks (init None))
     ++ option_list (current_task (run sample_tasks (init None)))
     ++ get_pending_tasks (run sample_tasks (init None))
     ≡ₚ added sample_tasks.
Proof.
  apply (task_queue_keeps_every_task sample_tasks).
  cbn. repeat split; try discriminate; reflexivity.
Defined.

(** Why [get_next_task] has to wait: taking the next task while one is
    being processed overwrites it, and the first task is in none of the
    three places. *)
Example next_task_overwrites_current :
  let q := run [AddTask "a"; AddTask "b"; GetNextTask; GetNextTask]
               (init None) in
  get_completed_tasks q = [] /\ current_task q = Some "b"
  /\ get_pending_tasks q = [].
Proof. by repeat split. Qed.

End TaskQueueProofs.

(** * Binary search *)

Module SearchProofs.

Import Sorting.

Section WithSearch.

Context {A K : Type} (key : A -> K) (eq lt le : K -> K -> bool).
Implicit Types (arr ys ms zs : list A) (target low high : K).

(** The comparisons are those of one linear order on the keys: [==] is
    equality, [<] is irreflexive, transitive and total, and [a <= b] is
    [not b < a]. *)
Definition linear_order : Prop :=
  (forall a b, eq a b = true <-> a = b)
  /\ (forall a, lt a a = false)
  /\ (forall a b c, lt a b = true -> lt b c = true -> lt a c = true)
  /\ (forall a b, lt a b = true \/ a = b \/ lt b a = true)
  /\ (forall a b, le a b = true <-> lt b a = false).

(** The list is sorted by key, smallest first. *)
Definition sorted arr : Prop :=
  StronglySorted (fun x y => le (key x) (key y) = true) arr.

(** ** Indexing *)

Lemma getitem_inside arr (i : Z) (x : A) :
  0 <= i -> arr !! Z.to_nat i = Some x -> getitem arr i = Ok x.
Proof.
  intros Hi Hx. pose proof (lookup_lt_Some _ _ _ Hx) as Hlt.
  unfold getitem. replace (i <? 0) with false by (symmetry; apply Z.ltb_ge; lia).
  replace (0 <=? i) with true by (symmetry; apply Z.leb_le; lia).
  replace (i <? Z.of_nat (length arr)) with true
    by (symmetry; apply Z.ltb_lt; lia).
  cbn. by rewrite Hx.
Qed.

Lemma getitem_app_r ys zs (i : Z) (x : A) :
  Z.of_nat (length ys) <= i ->
  zs !! Z.to_nat (i - Z.of_nat (length ys)) = Some x ->
  getitem (ys ++ zs) i = Ok x.
Proof.
  intros Hi Hx. apply getitem_inside; [lia|].
  rewrite lookup_app_r by lia.
  by replace (Z.to_nat i - length ys)%nat
    with (Z.to_nat (i - Z.of_nat (length ys))) by lia.
Qed.

Lemma getitem_app_l ys zs (i : Z) :
  0 <= i < Z.of_nat (length ys) ->
  exists x, x ∈ ys /\ getitem (ys ++ zs) i = Ok x.
Proof.
  intros Hi. destruct (lookup_lt_is_Some_2 ys (Z.to_nat i)) as (x & Hx); [lia|].
  exists x. split; [by eapply list_elem_of_lookup_2|].
  apply getitem_inside; [lia|]. by rewrite lookup_app_l by lia.
Qed.

Lemma getitem_middle ys zs (i : Z) :
  Z.of_nat (length ys) <= i < Z.of_nat (length ys + length zs) ->
  exists x, x ∈ zs /\ getitem (ys ++ zs) i = Ok x.
Proof.
  intros Hi.
  destruct (lookup_lt_is_Some_2 zs (Z.to_nat (i - Z.of_nat (length ys))))
    as (x & Hx); [lia|].
  exists x. split; [by eapply list_elem_of_lookup_2|].
  by apply getitem_app_r; [lia|].
Qed.

Lemma getitem_three ys ms zs (i : Z) :
  Z.of_nat (length ys) <= i < Z.of_nat (length ys + length ms) ->
  exists x, x ∈ ms /\ getitem (ys ++ ms ++ zs) i = Ok x.
Proof.
  intros Hi.
  destruct (lookup_lt_is_Some_2 ms (Z.to_nat (i - Z.of_nat (length ys))))
    as (x & Hx); [lia|].
  exists x. split; [by eapply list_elem_of_lookup_2|].
  apply getitem_app_r; [lia|]. by rewrite lookup_app_l by lia.
Qed.

Lemma getitem_at ys (x : A) zs :
  getitem (ys ++ x :: zs) (Z.of_nat (length ys)) = Ok x.
Proof.
  apply getitem_app_r; [lia|]. by rewrite Z.sub_diag.
Qed.

(** ** The bisection loop *)

(** When the test holds on a first part of the list and fails on the
    rest, the loop started around the border ends at the border. *)
Lemma bisect_border (goes_right : K -> bool) ys zs (left_ right_ : Z) :
  Forall (fun x => goes_right (key x) = true) ys ->
  Forall (fun x => goes_right (key x) = false) zs ->
  0 <= left_ <= Z.of_nat (length ys) ->
  Z.of_nat (length ys) <= right_ <= Z.of_nat (length ys + length zs) ->
  _bisect key goes_right (ys ++ zs) left_ right_ = Ok (Z.of_nat (length ys)).
Proof.
  intros Hys Hzs. rewrite Forall_forall in Hys, Hzs.
  remember (Z.to_nat (right_ - left_)) as m eqn:Hm.
  revert left_ right_ Hm.
  induction (lt_wf m) as [m _ IH]. intros left_ right_ -> Hl Hr.
  rewrite _bisect_equation_1.
  destruct (inspect (left_ <? right_)) as [[] Hlt]; cbn;
    [apply Z.ltb_lt in Hlt|apply Z.ltb_ge in Hlt].
  2:{ f_equal. lia. }
  assert (left_ <= (left_ + right_) / 2)
    by (apply Z.div_le_lower_bound; lia).
  assert ((left_ + right_) / 2 < right_)
    by (apply Z.div_lt_upper_bound; lia).
  set (mid := (left_ + right_) / 2) in *.
  destruct (Z.lt_ge_cases mid (Z.of_nat (length ys))) as [Hin|Hout].
  - destruct (getitem_app_l ys zs mid) as (x & Hx & ->); [lia|].
    rewrite (Hys x Hx). eapply IH; [|reflexivity|lia|lia]. lia.
  - destruct (getitem_middle ys zs mid) as (x & Hx & ->); [lia|].
    rewrite (Hzs x Hx). eapply IH; [|reflexivity|lia|lia]. lia.
Qed.

Lemma insert_position_border ys zs target :
  Forall (fun x => lt (key x) target = true) ys ->
  Forall (fun x => lt (key x) target = false) zs ->
  binary_search_insert_position key lt (ys ++ zs) target
  = Ok (Z.of_nat (length ys)).
Proof.
  intros Hys Hzs. unfold binary_search_insert_position.
  destruct (ys ++ zs) eqn:El.
  { by destruct ys. }
  rewrite <- El. apply bisect_border; auto; rewrite ?length_app; lia.
Qed.

Lemma filter_nothing (f : A -> bool) (xs : list A) :
  Forall (fun a => f a = false) xs -> List.filter f xs = [].
Proof.
  induction 1 as [|a xs Ha _ IH]; [done|]. simpl. by rewrite Ha.
Qed.

Lemma filter_everything (f : A -> bool) (xs : list A) :
  Forall (fun a => f a = true) xs -> List.filter f xs = xs.
Proof.
  induction 1 as [|a xs Ha _ IH]; [done|]. simpl. by rewrite Ha, IH.
Qed.

(** ** The order of the keys *)

Section Order.

Hypothesis Hord : linear_order.

Lemma lt_ne a b : lt a b = true -> a <> b.
Proof.
  destruct Hord as (_ & Hirr & _). intros H ->. by rewrite Hirr in H.
Qed.

Lemma lt_asym a b : lt a b = true -> lt b a = false.
Proof.
  destruct Hord as (_ & Hirr & Htr & _). intros H.
  destruct (lt b a) eqn:E; [|done].
  by rewrite <- (Hirr a), (Htr a b a).
Qed.

Lemma not_lt a b : lt a b = false -> a = b \/ lt b a = true.
Proof.
  destruct Hord as (_ & _ & _ & Htot & _). intros H.
  destruct (Htot a b) as [E|[E|E]]; auto. congruence.
Qed.

Lemma le_lt_trans a b c : le a b = true -> lt b c = true -> lt a c = true.
Proof.
  pose proof Hord as (_ & _ & Htr & Htot & Hle). intros H1%Hle H2.
  destruct (Htot a c) as [E|[->|E]]; [done|congruence|].
  by rewrite (Htr _ _ _ H2 E) in H1.
Qed.

Lemma lt_le_trans a b c : lt a b = true -> le b c = true -> lt a c = true.
Proof.
  pose proof Hord as (_ & _ & Htr & Htot & Hle). intros H1 H2%Hle.
  destruct (Htot a c) as [E|[->|E]]; [done|congruence|].
  by rewrite (Htr _ _ _ E H1) in H2.
Qed.

Lemma le_refl a : le a a = true.
Proof. destruct Hord as (_ & Hirr & _ & _ & Hle). by apply Hle. Qed.

Lemma le_false a b : le a b = false -> lt b a = true.
Proof.
  destruct Hord as (_ & _ & _ & _ & Hle). intros H.
  destruct (lt b a) eqn:E; [done|]. apply Hle in E. congruence.
Qed.

Lemma le_antisym a b : le a b = true -> le b a = true -> a = b.
Proof.
  pose proof Hord as (_ & _ & _ & _ & Hle). intros H1%Hle H2%Hle.
  by destruct (not_lt _ _ H2) as [|E]; [|congruence].
Qed.

(** ** Sorted lists fall into parts *)

(** A test that, on the elements of a sorted list, passes from an element
    to the ones that are not larger, holds on a first part of the list
    and fails on the rest. *)
Lemma sorted_split (p : A -> bool) arr :
  sorted arr ->
  (forall x y, x ∈ arr -> y ∈ arr ->
     le (key x) (key y) = true -> p y = true -> p x = true) ->
  exists ys zs,
    arr = ys ++ zs
    /\ Forall (fun x => p x = true) ys
    /\ Forall (fun x => p x = false) zs.
Proof.
  induction 1 as [|a arr Hs IH Fa]; intros Hp.
  { exists [], []. by repeat split. }
  destruct (p a) eqn:Ea.
  - destruct IH as (ys & zs & -> & Hys & Hzs).
    { intros x y Hx Hy. apply Hp; by apply elem_of_cons; right. }
    exists (a :: ys), zs. repeat split; auto.
  - exists [], (a :: arr). repeat split; auto. constructor; [done|].
    rewrite Forall_forall in *. intros y Hy.
    destruct (p y) eqn:Ey; [exfalso|done].
    assert (p a = true); [|congruence].
    apply (Hp a y); auto.
    + constructor.
    + by apply elem_of_cons; right.
Qed.

Lemma sorted_app_l ys zs : sorted (ys ++ zs) -> sorted ys.
Proof. by intros (? & ? & ?)%StronglySorted_app. Qed.

Lemma sorted_app_r ys zs : sorted (ys ++ zs) -> sorted zs.
Proof. by intros (? & ? & ?)%StronglySorted_app. Qed.

Lemma sorted_across ys zs x y :
  sorted (ys ++ zs) -> x ∈ ys -> y ∈ zs -> le (key x) (key y) = true.
Proof. intros (H & _ & _)%StronglySorted_app. apply H. Qed.

(** The keys below [target] come first. *)
Lemma split_below arr target :
  sorted arr ->
  exists ys zs,
    arr = ys ++ zs
    /\ Forall (fun x => lt (key x) target = true) ys
    /\ Forall (fun x => lt (key x) target = false) zs.
Proof.
  intros Hs. apply (sorted_split (fun x => lt (key x) target)); [done|].
  intros x y _ _. apply le_lt_trans.
Qed.

(** The keys up to [target] come first. *)
Lemma split_upto arr target :
  sorted arr ->
  exists ys zs,
    arr = ys ++ zs
    /\ Forall (fun x => le (key x) target = true) ys
    /\ Forall (fun x => le (key x) target = false) zs.
Proof.
  intros Hs. apply (sorted_split (fun x => le (key x) target)); [done|].
  intros x y _ _ H1 H2. pose proof Hord as (_ & _ & _ & _ & Hle).
  apply Hle. destruct (lt target (key x)) eqn:E; [|done].
  apply Hle in H2. by rewrite (lt_le_trans _ _ _ E H1) in H2.
Qed.

(** The keys below [target], the keys equal to it, the keys above it. *)
Lemma split_three arr target :
  sorted arr ->
  exists ys ms zs,
    arr = ys ++ ms ++ zs
    /\ Forall (fun x => lt (key x) target = true) ys
    /\ Forall (fun x => key x = target) ms
    /\ Forall (fun x => lt target (key x) = true) zs.
Proof.
  intros Hs. destruct (split_upto arr target Hs) as (us & zs & -> & Hus & Hzs).
  destruct (split_below us target (sorted_app_l _ _ Hs))
    as (ys & ms & -> & Hys & Hms).
  exists ys, ms, zs. rewrite <- app_assoc. split; [done|]. split; [done|].
  apply Forall_app in Hus as (_ & Hus). split.
  - rewrite Forall_forall in *. intros x Hx.
    apply le_antisym; [by apply Hus|].
    pose proof Hord as (_ & _ & _ & _ & Hle). apply Hle. by apply Hms.
  - eapply Forall_impl; [exact Hzs|]. intros x. apply le_false.
Qed.

(** ** [binary_search] *)

Lemma binary_search_loop ys ms zs target (left_ right_ : Z) :
  Forall (fun x => lt (key x) target = true) ys ->
  Forall (fun x => key x = target) ms ->
  Forall (fun x => lt target (key x) = true) zs ->
  0 <= left_ <= Z.of_nat (length ys) ->
  Z.of_nat (length ys + length ms) - 1 <= right_
    <= Z.of_nat (length ys + length ms + length zs) - 1 ->
  exists i,
    _binary_search key eq lt (ys ++ ms ++ zs) target left_ right_ = Ok i
    /\ ((i = -1 /\ ms = [])
        \/ Z.of_nat (length ys) <= i < Z.of_nat (length ys + length ms)).
Proof.
  intros Hys Hms Hzs. rewrite Forall_forall in Hys, Hms, Hzs.
  pose proof Hord as (Heq & Hirr & _).
  remember (Z.to_nat (right_ - left_ + 1)) as m eqn:Hm.
  revert left_ right_ Hm.
  induction (lt_wf m) as [m _ IH]. intros left_ right_ -> Hl Hr.
  rewrite _binary_search_equation_1.
  destruct (inspect (left_ <=? right_)) as [[] Hle]; cbn;
    [apply Z.leb_le in Hle|apply Z.leb_gt in Hle].
  2:{ exists (-1). split; [done|]. left. split; [done|].
      destruct ms; [done|]. cbn in Hr. lia. }
  assert (left_ <= (left_ + right_) / 2)
    by (apply Z.div_le_lower_bound; lia).
  assert ((left_ + right_) / 2 <= right_)
    by (apply Z.div_le_upper_bound; lia).
  set (mid := (left_ + right_) / 2) in *.
  destruct (Z.lt_ge_cases mid (Z.of_nat (length ys))) as [Hin|Hout].
  { destruct (getitem_app_l ys (ms ++ zs) mid) as (x & Hx & ->); [lia|].
    replace (eq (key x) target) with false.
    2:{ symmetry. apply not_true_is_false. intros E%Heq.
        by apply (lt_ne _ _ (Hys x Hx)). }
    rewrite (Hys x Hx). eapply IH; [|reflexivity|lia|lia]. lia. }
  destruct (Z.lt_ge_cases mid (Z.of_nat (length ys + length ms)))
    as [Hin|Hout'].
  { destruct (getitem_three ys ms zs mid) as (x & Hx & ->); [lia|].
    replace (eq (key x) target) with true
      by (symmetry; apply Heq; by apply Hms).
    exists mid. split; [done|]. right. lia. }
  rewrite app_assoc.
  destruct (getitem_middle (ys ++ ms) zs mid) as (x & Hx & ->);
    [rewrite length_app; lia|].
  rewrite <- app_assoc.
  replace (eq (key x) target) with false.
  2:{ symmetry. apply not_true_is_false. intros E%Heq.
      by apply (lt_ne _ _ (Hzs x Hx)). }
  rewrite (lt_asym _ _ (Hzs x Hx)).
  eapply IH; [|reflexivity|lia|lia]. lia.
Qed.

(** X27. On a list sorted by key, [binary_search] returns the index of an
    element whose key is the target, or [-1] when no element has that
    key; it does not raise, and [binary_search_recursive] returns the
    same. *)
Theorem binary_search_finds_key arr target :
  sorted arr ->
  exists i,
    binary_search key eq lt arr target = Ok i
    /\ binary_search_recursive key eq lt arr target = Ok i
    /\ ((i = -1 /\ Forall (fun x => key x <> target) arr)
        \/ (0 <= i
            /\ exists x, arr !! Z.to_nat i = Some x /\ key x = target)).
Proof.
  intros Hs. destruct (split_three arr target Hs)
    as (ys & ms & zs & -> & Hys & Hms & Hzs).
  destruct (binary_search_loop ys ms zs target 0
              (Z.of_nat (length (ys ++ ms ++ zs)) - 1) Hys Hms Hzs)
    as (i & E & Hi); [lia|rewrite !length_app; lia|].
  exists i. split; [|split; [done|]].
  { unfold binary_search. destruct (ys ++ ms ++ zs) eqn:El; [|done].
    rewrite _binary_search_equation_1 in E. cbn in E.
    destruct Hi as [(-> & _)|Hi]; [done|].
    destruct ys, ms, zs; done. }
  destruct Hi as [(-> & ->)|Hi].
  - left. split; [done|]. cbn. apply Forall_app. split.
    + eapply Forall_impl; [exact Hys|]. intros x. apply lt_ne.
    + eapply Forall_impl; [exact Hzs|]. intros x H E'.
      by apply (lt_ne _ _ H).
  - right. split; [lia|].
    destruct (lookup_lt_is_Some_2 ms (Z.to_nat (i - Z.of_nat (length ys))))
      as (x & Hx); [lia|].
    exists x. split.
    + rewrite lookup_app_r by lia. rewrite lookup_app_l by lia.
      by replace (Z.to_nat i - length ys)%nat
        with (Z.to_nat (i - Z.of_nat (length ys))) by lia.
    + rewrite Forall_forall in Hms. apply Hms.
      by eapply list_elem_of_lookup_2.
Qed.

(** ** [binary_search_insert_position], leftmost and rightmost *)

(** X28. On a list sorted by key, [binary_search_insert_position] returns
    the number of elements whose key is below the target: the elements
    before that position have a smaller key and the elements from it on
    do not, so that an element with the target key put there keeps the
    list sorted. *)
Theorem insert_position_splits_sorted_list arr target :
  sorted arr ->
  exists ys zs,
    arr = ys ++ zs
    /\ binary_search_insert_position key lt arr target
       = Ok (Z.of_nat (length ys))
    /\ Forall (fun x => lt (key x) target = true) ys
    /\ Forall (fun x => le target (key x) = true) zs.
Proof.
  intros Hs. destruct (split_below arr target Hs) as (ys & zs & -> & Hys & Hzs).
  exists ys, zs. split; [done|]. split; [|split; [done|]].
  - by apply insert_position_border.
  - eapply Forall_impl; [exact Hzs|]. intros x.
    pose proof Hord as (_ & _ & _ & _ & Hle). apply Hle.
Qed.

(** X29. On a list sorted by key, the elements whose key is the target
    form one run: [binary_search_leftmost] returns the index of its first
    element and [binary_search_rightmost] the index of its last one; when
    no element has the target key both return [-1]. *)
Theorem leftmost_and_rightmost_are_the_ends arr target :
  sorted arr ->
  exists i j,
    binary_search_leftmost key eq lt arr target = Ok i
    /\ binary_search_rightmost key eq le arr target = Ok j
    /\ ((i = -1 /\ j = -1 /\ Forall (fun x => key x <> target) arr)
        \/ exists ys ms zs,
             arr = ys ++ ms ++ zs /\ ms <> []
             /\ Forall (fun x => key x <> target) ys
             /\ Forall (fun x => key x = target) ms
             /\ Forall (fun x => key x <> target) zs
             /\ i = Z.of_nat (length ys)
             /\ j = Z.of_nat (length ys + length ms) - 1).
Proof.
  intros Hs. destruct (split_three arr target Hs)
    as (ys & ms & zs & -> & Hys & Hms & Hzs).
  pose proof Hord as (Heq & Hirr & _ & _ & Hle).
  assert (Hys' : Forall (fun x => key x <> target) ys).
  { eapply Forall_impl; [exact Hys|]. intros x. apply lt_ne. }
  assert (Hzs' : Forall (fun x => key x <> target) zs).
  { eapply Forall_impl; [exact Hzs|]. intros x H E'. by apply (lt_ne _ _ H). }
  assert (Hl : _bisect key (fun k => lt k target) (ys ++ ms ++ zs) 0
                 (Z.of_nat (length (ys ++ ms ++ zs)))
               = Ok (Z.of_nat (length ys))).
  { apply bisect_border; auto; rewrite ?length_app; try lia.
    apply Forall_app. split.
    - eapply Forall_impl; [exact Hms|]. by intros x ->.
    - eapply Forall_impl; [exact Hzs|]. intros x. apply lt_asym. }
  assert (Hr : _bisect key (fun k => le k target) (ys ++ ms ++ zs) 0
                 (Z.of_nat (length (ys ++ ms ++ zs)))
               = Ok (Z.of_nat (length (ys ++ ms)))).
  { rewrite app_assoc. apply bisect_border; auto; rewrite ?length_app; try lia.
    - apply Forall_app. split.
      + eapply Forall_impl; [exact Hys|]. intros x H. by apply Hle, lt_asym.
      + eapply Forall_impl; [exact Hms|]. intros x ->. apply le_refl.
    - eapply Forall_impl; [exact Hzs|]. intros x H.
      apply not_true_is_false. intros E'%Hle. congruence. }
  unfold binary_search_leftmost, binary_search_rightmost.
  destruct (ys ++ ms ++ zs) as [|a0 arr0] eqn:El.
  { exists (-1), (-1). split; [done|]. split; [done|]. left. by repeat split. }
  rewrite <- El in *. rewrite Hl, Hr. cbn [rbind]. clear a0 arr0 El.
  destruct ms as [|m ms _] using rev_ind.
  - (* no element has the target key *)
    exists (-1), (-1). cbn [app]. rewrite app_nil_r.
    split; [|split; [|left; repeat split; by try apply Forall_app]].
    + destruct zs as [|z zs]; cbn [and_then].
      { rewrite app_nil_r, Z.ltb_irrefl. done. }
      replace (Z.of_nat (length ys) <? Z.of_nat (length (ys ++ z :: zs)))
        with true by (symmetry; apply Z.ltb_lt; rewrite length_app; cbn; lia).
      cbn [and_then]. rewrite getitem_at. cbn [rbind].
      apply Forall_cons in Hzs' as (Hz & _).
      replace (eq (key z) target) with false; [done|].
      symmetry. apply not_true_is_false. by intros E'%Heq.
    + destruct ys as [|y ys _] using rev_ind; [done|].
      replace (0 <? Z.of_nat (length (ys ++ [y]))) with true
        by (symmetry; apply Z.ltb_lt; rewrite length_app; cbn; lia).
      cbn [and_then].
      replace (Z.of_nat (length (ys ++ [y])) - 1) with (Z.of_nat (length ys))
        by (rewrite length_app; cbn; lia).
      rewrite <- app_assoc. cbn [app]. rewrite getitem_at. cbn [rbind].
      apply Forall_app in Hys' as (_ & (Hy & _)%Forall_cons).
      replace (eq (key y) target) with false; [done|].
      symmetry. apply not_true_is_false. by intros E'%Heq.
  - (* the run [ms ++ [m]] *)
    apply Forall_app in Hms as (Hms & (Hm & _)%Forall_cons).
    exists (Z.of_nat (length ys)), (Z.of_nat (length ys + length (ms ++ [m])) - 1).
    split; [|split].
    + replace (Z.of_nat (length ys)
               <? Z.of_nat (length (ys ++ (ms ++ [m]) ++ zs)))
        with true
        by (symmetry; apply Z.ltb_lt; rewrite !length_app; cbn; lia).
      cbn [and_then].
      assert (exists x rest, (ms ++ [m]) ++ zs = x :: rest /\ key x = target)
        as (x & rest & -> & Hx).
      { destruct ms as [|x ms]; cbn; [eauto|].
        apply Forall_cons in Hms as (Hx & _). eauto. }
      rewrite getitem_at. cbn [rbind].
      by replace (eq (key x) target) with true by (symmetry; by apply Heq).
    + replace (0 <? Z.of_nat (length (ys ++ ms ++ [m]))) with true
        by (symmetry; apply Z.ltb_lt; rewrite !length_app; cbn; lia).
      cbn [and_then].
      replace (Z.of_nat (length (ys ++ ms ++ [m])) - 1)
        with (Z.of_nat (length (ys ++ ms)))
        by (rewrite !length_app; cbn; lia).
      replace (ys ++ (ms ++ [m]) ++ zs) with ((ys ++ ms) ++ m :: zs)
        by (by rewrite <- !app_assoc).
      rewrite getitem_at. cbn [rbind].
      replace (eq (key m) target) with true by (symmetry; by apply Heq).
      f_equal. rewrite !length_app. cbn. lia.
    + right. exists ys, (ms ++ [m]), zs. repeat split; auto.
      * by destruct ms.
      * apply Forall_app. split; [done|]. by constructor.
Qed.

(** ** [binary_search_range] *)

Lemma extend_run ys ms zs high (right_ : Z) :
  Forall (fun x => key x = high) ms ->
  Forall (fun x => key x <> high) zs ->
  Z.of_nat (length ys) <= right_ <= Z.of_nat (length ys + length ms) ->
  _extend key eq (ys ++ ms ++ zs) high right_
  = Ok (Z.of_nat (length ys + length ms)).
Proof.
  intros Hms Hzs. rewrite Forall_forall in Hms, Hzs.
  pose proof Hord as (Heq & _).
  remember (Z.to_nat (Z.of_nat (length ys + length ms) - right_)) as n eqn:Hn.
  revert right_ Hn. induction (lt_wf n) as [n _ IH]. intros right_ -> Hr.
  rewrite _extend_equation_1.
  destruct (inspect (right_ <? Z.of_nat (length (ys ++ ms ++ zs))))
    as [[] Hlt]; cbn;
    [apply Z.ltb_lt in Hlt|apply Z.ltb_ge in Hlt];
    rewrite !length_app in Hlt.
  2:{ f_equal. lia. }
  destruct (Z.lt_ge_cases right_ (Z.of_nat (length ys + length ms)))
    as [Hin|Hout].
  - destruct (getitem_three ys ms zs right_) as (x & Hx & ->); [lia|].
    replace (eq (key x) high) with true
      by (symmetry; apply Heq; by apply Hms).
    eapply IH; [|reflexivity|lia]. lia.
  - rewrite app_assoc.
    destruct (getitem_middle (ys ++ ms) zs right_) as (x & Hx & ->);
      [rewrite length_app; lia|].
    replace (eq (key x) high) with false.
    2:{ symmetry. apply not_true_is_false. intros E'%Heq. by apply (Hzs x). }
    f_equal. lia.
Qed.

(** X30. On a list sorted by key, [binary_search_range(low, high)] returns
    exactly the elements whose key is between [low] and [high], both
    included, in the order of the list; nothing when [high] is below
    [low]. *)
Theorem range_is_filter_of_sorted_list arr low high :
  sorted arr ->
  binary_search_range key eq lt arr low high
  = Ok (List.filter (fun x => le low (key x) && le (key x) high) arr).
Proof.
  intros Hs. pose proof Hord as (Heq & Hirr & _ & _ & Hle).
  unfold binary_search_range. destruct arr as [|a0 arr0] eqn:El; [done|].
  rewrite <- El in *. clear a0 arr0 El.
  destruct (split_below arr low Hs) as (ls & rs & El & Hls & Hrs).
  destruct (split_three arr high Hs) as (ys & ms & zs & Eh & Hys & Hms & Hzs).
  assert (E1 : binary_search_insert_position key lt arr low
               = Ok (Z.of_nat (length ls))).
  { rewrite El. by apply insert_position_border. }
  assert (E2 : binary_search_insert_position key lt arr high
               = Ok (Z.of_nat (length ys))).
  { rewrite Eh. apply insert_position_border; [done|].
    apply Forall_app. split.
    - eapply Forall_impl; [exact Hms|]. by intros x ->.
    - eapply Forall_impl; [exact Hzs|]. intros x. apply lt_asym. }
  rewrite E1, E2. cbn [rbind].
  assert (E3 : _extend key eq arr high (Z.of_nat (length ys))
               = Ok (Z.of_nat (length ys + length ms))).
  { rewrite Eh. apply extend_run; [done| |lia].
    eapply Forall_impl; [exact Hzs|]. intros x H E'. by apply (lt_ne _ _ H). }
  rewrite E3. cbn [rbind]. f_equal.
  (* the slice *)
  unfold slice.
  assert (Hn1 : Z.of_nat (length ls) <= Z.of_nat (length arr))
    by (rewrite El, length_app; lia).
  assert (Hn2 : Z.of_nat (length ys + length ms) <= Z.of_nat (length arr))
    by (rewrite Eh, !length_app; lia).
  replace (Z.of_nat (length ls) <? 0) with false
    by (symmetry; apply Z.ltb_ge; lia).
  replace (Z.of_nat (length ys + length ms) <? 0) with false
    by (symmetry; apply Z.ltb_ge; lia).
  rewrite !Z.min_l by lia. rewrite !Nat2Z.id.
  set (us := ys ++ ms).
  assert (Eu : arr = us ++ zs) by (unfold us; by rewrite <- app_assoc).
  assert (Hus : Forall (fun x => le (key x) high = true) us).
  { apply Forall_app. split.
    - eapply Forall_impl; [exact Hys|]. intros x H. by apply Hle, lt_asym.
    - eapply Forall_impl; [exact Hms|]. intros x ->. apply le_refl. }
  assert (Hzs' : Forall (fun x => le (key x) high = false) zs).
  { eapply Forall_impl; [exact Hzs|]. intros x H.
    apply not_true_is_false. intros E'%Hle. congruence. }
  replace (length ys + length ms)%nat with (length us)
    by (unfold us; by rewrite length_app).
  rewrite Eu at 1 2. rewrite take_app_length.
  rewrite List.filter_app.
  replace (List.filter _ zs) with (@nil A).
  2:{ symmetry. apply filter_nothing. eapply Forall_impl; [exact Hzs'|].
      intros x ->. apply andb_false_r. }
  rewrite app_nil_r.
  rewrite Forall_forall in Hls, Hrs, Hus.
  rewrite Eu in El. symmetry in El.
  apply List.app_eq_app in El as (l & [(-> & ->)|(-> & ->)]).
  - rewrite drop_ge by (rewrite length_app; lia).
    symmetry. apply filter_nothing. rewrite Forall_forall. intros x Hx.
    apply andb_false_iff. left. apply not_true_is_false. intros E'%Hle.
    rewrite Hls in E'; [done|]. apply elem_of_app. by left.
  - rewrite drop_app_length. rewrite List.filter_app.
    replace (List.filter _ ls) with (@nil A).
    2:{ symmetry. apply filter_nothing. rewrite Forall_forall. intros x Hx.
        apply andb_false_iff. left. apply not_true_is_false. intros E'%Hle.
        by rewrite Hls in E'. }
    cbn [app]. symmetry. apply filter_everything. rewrite Forall_forall. intros x Hx.
    apply andb_true_iff. split.
    + apply Hle, Hrs. apply elem_of_app. by left.
    + apply Hus. apply elem_of_app. by right.
Qed.

End Order.

End WithSearch.

(** ** On integers *)

Lemma Z_linear_order : linear_order Z.eqb Z.ltb Z.leb.
Proof.
  split; [apply Z.eqb_eq|]. split; [apply Z.ltb_irrefl|].
  split. { intros a b c H1%Z.ltb_lt H2%Z.ltb_lt. apply Z.ltb_lt. lia. }
  split.
  { intros a b. destruct (Z.lt_trichotomy a b) as [H|[H|H]];
      [left|right; left|right; right]; try done; by apply Z.ltb_lt. }
  intros a b. rewrite Z.leb_le, Z.ltb_ge. done.
Qed.

Definition sample_keys : list Z := [1; 3; 3; 5; 8].

Lemma sample_keys_sorted : sorted id Z.leb sample_keys.
Proof. repeat constructor. Qed.

Lemma binary_search_finds_key_witness :
  exists i,
    binary_search id Z.eqb Z.ltb sample_keys 3 = Ok i
    /\ binary_search_recursive id Z.eqb Z.ltb sample_keys 3 = Ok i
    /\ ((i = -1 /\ Forall (fun x => id x <> 3) sample_keys)
        \/ (0 <= i
            /\ exists x, sample_keys !! Z.to_nat i = Some x /\ id x = 3)).
Proof.
  apply (binary_search_finds_key id Z.eqb Z.ltb Z.leb Z_linear_order
           sample_keys 3).
  exact sample_keys_sorted.
Defined.

Lemma insert_position_splits_sorted_list_witness :
  exists ys zs,
    sample_keys = ys ++ zs
    /\ binary_search_insert_position id Z.ltb sample_keys 4
       = Ok (Z.of_nat (length ys))
    /\ Forall (fun x => Z.ltb (id x) 4 = true) ys
    /\ Forall (fun x => Z.leb 4 (id x) = true) zs.
Proof.
  apply (insert_position_splits_sorted_list id Z.eqb Z.ltb Z.leb
           Z_linear_order sample_keys 4).
  exact sample_keys_sorted.
Defined.

Lemma leftmost_and_rightmost_are_the_ends_witness :
  exists i j,
    binary_search_leftmost id Z.eqb Z.ltb sample_keys 3 = Ok i
    /\ binary_search_rightmost id Z.eqb Z.leb sample_keys 3 = Ok j
    /\ ((i = -1 /\ j = -1 /\ Forall (fun x => id x <> 3) sample_keys)
        \/ exists ys ms zs,
             sample_keys = ys ++ ms ++ zs /\ ms <> []
             /\ Forall (fun x => id x <> 3) ys
             /\ Forall (fun x => id x = 3) ms
             /\ Forall (fun x => id x <> 3) zs
             /\ i = Z.of_nat (length ys)
             /\ j = Z.of_nat (length ys + length ms) - 1).
Proof.
  apply (leftmost_and_rightmost_are_the_ends id Z.eqb Z.ltb Z.leb
           Z_linear_order sample_keys 3).
  exact sample_keys_sorted.
Defined.

Lemma range_is_filter_of_sorted_list_witness :
  binary_search_range id Z.eqb Z.ltb sample_keys 3 5
  = Ok (List.filter (fun x => Z.leb 3 (id x) && Z.leb (id x) 5) sample_keys).
Proof.
  apply (range_is_filter_of_sorted_list id Z.eqb Z.ltb Z.leb Z_linear_order
           sample_keys 3 5).
  exact sample_keys_sorted.
Defined.

End SearchProofs.

